(** * astra-db-ts: bulk writes, insertMany chunking, deleteMany, distinct and
    the find cursor

    A shallow embedding of [src/client/collection.ts] (the bulk-mutation
    orchestrator, [insertMany], [deleteMany], [distinct] and its path
    extractor) together with a model of the find cursor, and the properties
    the specification states about them. *)

From Stdlib Require Import ZArith List String Ascii Bool Lia.
From stdpp Require Import base option list gmap strings.
Import ListNotations.

Local Open Scope Z_scope.
Local Open Scope nat_scope.

(* ===================================================================== *)
(** * JavaScript values *)
(* ===================================================================== *)

(** The objects of the runtime that a property name can reach from a
    document: [Object.prototype], from which every plain object inherits,
    and the functions that are its members ([constructor], [toString],
    ...), each identified by the name of the property that holds it. *)
Inductive builtin : Type :=
| ObjectPrototype
| PrototypeFunction (name : string).

Definition builtin_eqb (a b : builtin) : bool :=
  match a, b with
  | ObjectPrototype, ObjectPrototype => true
  | PrototypeFunction x, PrototypeFunction y => String.eqb x y
  | _, _ => false
  end.

(** The names of the function-valued properties of [Object.prototype]. *)
Definition prototype_functions : list string :=
  ["constructor"; "hasOwnProperty"; "isPrototypeOf"; "propertyIsEnumerable";
   "toLocaleString"; "toString"; "valueOf"; "__defineGetter__";
   "__defineSetter__"; "__lookupGetter__"; "__lookupSetter__"]%string.

(** [Object.prototype[prop]]: one of its functions; [__proto__] reads
    [null] there and any other name [undefined], both of which are
    [None]. *)
Definition prototype_member (prop : string) : option builtin :=
  if existsb (String.eqb prop) prototype_functions
  then Some (PrototypeFunction prop)
  else None.

(** [value[prop]] on a plain object that has no own property [prop]: what
    it inherits from [Object.prototype], [__proto__] reading the prototype
    itself. *)
Definition inherited (prop : string) : option builtin :=
  if String.eqb prop "__proto__" then Some ObjectPrototype
  else prototype_member prop.

(** Documents, filters, ids and extracted values are JSON-like JavaScript
    values ([any] in the source).  Numbers are the integers (document
    counters, indexes and ids); an object is a plain object, given by the
    list of its own properties in insertion order, with distinct keys. *)
#[warnings="-register-all"]
Inductive jsval : Type :=
| VUndefined
| VNull
| VBool (b : bool)
| VNum (n : Z)
| VStr (s : string)
| VArr (elems : list jsval)
| VObj (props : list (string * jsval))
| VBuiltin (b : builtin).

(** [!value] is [negb (truthy value)]: [undefined], [null], [false], [0] and
    the empty string are falsy, every array, object and function is
    truthy. *)
Definition truthy (value : jsval) : bool :=
  match value with
  | VUndefined | VNull => false
  | VBool b => b
  | VNum n => negb (n =? 0)%Z
  | VStr s => negb (String.eqb s "")
  | VArr _ | VObj _ | VBuiltin _ => true
  end.

(** [typeof v === 'object'] holds of [null], arrays and objects; the
    [typeof] of a function is ['function']. *)
Definition typeof_object (v : jsval) : bool :=
  match v with
  | VNull | VArr _ | VObj _ | VBuiltin ObjectPrototype => true
  | _ => false
  end.

(** [Array.isArray]. *)
Definition isArray (v : jsval) : bool :=
  match v with VArr _ => true | _ => false end.

(** [Object.keys(o).length]: the number of own enumerable properties;
    [None] is the [TypeError] that [Object.keys] throws on [null] and
    [undefined]. *)
Definition Object_keys_length (o : jsval) : option nat :=
  match o with
  | VObj props => Some (length props)
  | VArr elems => Some (length elems)
  | VStr s => Some (String.length s)
  | VBool _ | VNum _ | VBuiltin _ => Some 0
  | VNull | VUndefined => None
  end.

(** The membership test of a JavaScript [Set] (SameValueZero): primitives are
    compared by value, arrays and objects by identity, so two structurally
    equal objects are different members; a function of [Object.prototype]
    is one object wherever it is read. *)
Definition SameValueZero (a b : jsval) : bool :=
  match a, b with
  | VUndefined, VUndefined => true
  | VNull, VNull => true
  | VBool x, VBool y => Bool.eqb x y
  | VNum x, VNum y => (x =? y)%Z
  | VStr x, VStr y => String.eqb x y
  | VBuiltin x, VBuiltin y => builtin_eqb x y
  | _, _ => false
  end.

(* ===================================================================== *)
(** * Strings: [split('.')] and [parseInt(_, 10)] *)
(* ===================================================================== *)

(** [path.split('.')]; the empty string splits into one empty segment. *)
Fixpoint split_dot (s : string) : list string :=
  match s with
  | EmptyString => [EmptyString]
  | String c rest =>
      if Ascii.eqb c "."%char then EmptyString :: split_dot rest
      else match split_dot rest with
           | seg :: segs => String c seg :: segs
           | [] => [String c EmptyString]
           end
  end.

Definition is_whitespace (c : ascii) : bool :=
  let n := nat_of_ascii c in
  (n =? 32) || ((9 <=? n) && (n <=? 13)).

Fixpoint skip_whitespace (s : string) : string :=
  match s with
  | String c rest => if is_whitespace c then skip_whitespace rest else s
  | EmptyString => s
  end.

Definition digit_of (c : ascii) : option Z :=
  let n := nat_of_ascii c in
  if (48 <=? n) && (n <=? 57) then Some (Z.of_nat (n - 48)) else None.

(** The longest prefix of decimal digits, as a number; [acc] is [None] until
    a digit has been read. *)
Fixpoint parse_digits (acc : option Z) (s : string) : option Z :=
  match s with
  | EmptyString => acc
  | String c rest =>
      match digit_of c with
      | Some d => parse_digits (Some (10 * default 0%Z acc + d)%Z) rest
      | None => acc
      end
  end.

(** [parseInt(s, 10)]: leading white space is skipped, a sign is accepted,
    the digits that follow are read and whatever comes after them is
    ignored; [None] is [NaN] (no digit). *)
Definition parseInt (s : string) : option Z :=
  match skip_whitespace s with
  | String "-"%char rest => Z.opp <$> parse_digits None rest
  | String "+"%char rest => parse_digits None rest
  | t => parse_digits None t
  end.

(* ===================================================================== *)
(** * The distinct path extractor *)
(* ===================================================================== *)

(** [extract(path, index, value)] when [value] is [Object.prototype] or one
    of its functions.  At the end of the path the value is pushed.  Before
    it, a function contributes nothing (its [typeof] is ['function']), and
    [Object.prototype] is asked for [path[index]]: a function, on which the
    call [extract(path, index + 1, _)] pushes it if the path ends there, or
    [null] or [undefined], on which that call returns at once. *)
Definition extract_builtin (path : list string) (index : nat) (b : builtin)
    (values : list jsval) : list jsval :=
  if index =? length path then values ++ [VBuiltin b]
  else
    match b with
    | PrototypeFunction _ => values
    | ObjectPrototype =>
        match prototype_member (nth index path "undefined"%string) with
        | Some f =>
            if index + 1 =? length path then values ++ [VBuiltin f]
            else values
        | None => values
        end
    end.

(** [extract(path, index, value)] of [mkDistinctPathExtractor].  The source
    pushes onto the array [values] of the enclosing closure; here that array
    is passed in and the array after the call is returned.  Every recursive
    call of the source is on a component of [value] ([value[i]],
    [value[asInt]], [value[prop]]), which is what the local fixpoints
    [each], [at_index] and [get] select; [value[prop]] on an object is its
    own property of that name or, when it has none, what it inherits from
    [Object.prototype]. *)
Fixpoint extract (path : list string) (index : nat) (value : jsval)
    (values : list jsval) {struct value} : list jsval :=
  if negb (truthy value) then values
  else if index =? length path then
    match value with
    | VArr elems => values ++ elems
    | _ => values ++ [value]
    end
  else
    let prop := nth index path "undefined"%string in
    match value with
    | VArr elems =>
        match parseInt prop with
        | None =>
            (fix each (l : list jsval) (values : list jsval) : list jsval :=
               match l with
               | [] => values
               | x :: rest => each rest (extract path index x values)
               end) elems values
        | Some asInt =>
            if (asInt <? Z.of_nat (length elems))%Z then
              match asInt with
              | Zneg _ => values
              | _ =>
                  (fix at_index (l : list jsval) (k : nat) : list jsval :=
                     match l, k with
                     | [], _ => values
                     | x :: _, O => extract path (index + 1) x values
                     | _ :: rest, S k' => at_index rest k'
                     end) elems (Z.to_nat asInt)
              end
            else values
        end
    | VObj props =>
        (fix get (l : list (string * jsval)) : list jsval :=
           match l with
           | [] =>
               match inherited prop with
               | Some b => extract_builtin path (index + 1) b values
               | None => values
               end
           | (key, x) :: rest =>
               if String.eqb key prop then extract path (index + 1) x values
               else get rest
           end) props
    | VBuiltin b => extract_builtin path index b values
    | _ => values
    end.

(** The own property of that name of an object, if it has one. *)
Fixpoint get_prop (prop : string) (props : list (string * jsval))
    : option jsval :=
  match props with
  | [] => None
  | (key, x) :: rest => if String.eqb key prop then Some x else get_prop prop rest
  end.

(** What a value contributes at a position of the path: the walk run on an
    empty array. *)
Definition contribution (path : list string) (index : nat) (value : jsval)
    : list jsval :=
  extract path index value [].

(** [x] is an element of an array that occurs in [v] (at any depth). *)
Inductive element_of_array_in (x : jsval) : jsval -> Prop :=
| element_here elems : In x elems -> element_of_array_in x (VArr elems)
| element_in_element elems y :
    In y elems -> element_of_array_in x y -> element_of_array_in x (VArr elems)
| element_in_property props key y :
    In (key, y) props -> element_of_array_in x y ->
    element_of_array_in x (VObj props).

(** [mkDistinctPathExtractor(path)] returns a closure over one array
    [values], created once by the call of [mkDistinctPathExtractor].  The
    closure is modelled by its captured variables. *)
Record extractor : Type := {
  ex_path : string;
  ex_values : list jsval
}.

Definition mkDistinctPathExtractor (path : string) : extractor :=
  {| ex_path := path; ex_values := [] |}.

(** A call [extract(doc)] of the closure: it runs the walk from index 0 and
    returns the array [values] itself.  The result is the returned array
    together with the closure after the call, whose [values] is that same
    array. *)
Definition call_extractor (e : extractor) (doc : jsval)
    : list jsval * extractor :=
  let values := extract (split_dot (ex_path e)) 0 doc (ex_values e) in
  (values, {| ex_path := ex_path e; ex_values := values |}).

(** The arrays returned by the successive calls of one extractor on the
    documents [docs], in call order. *)
Fixpoint call_extractor_on (e : extractor) (docs : list jsval)
    : list (list jsval) :=
  match docs with
  | [] => []
  | doc :: rest =>
      let '(values, e') := call_extractor e doc in
      values :: call_extractor_on e' rest
  end.

(** What one document contributes on its own: the walk run on an empty
    array. *)
Definition extracted_from (path : string) (doc : jsval) : list jsval :=
  extract (split_dot path) 0 doc [].

(* ===================================================================== *)
(** * [Collection.distinct] *)
(* ===================================================================== *)

(** Errors thrown by plain [throw new Error(message)]. *)
Definition msg_empty_segment : string := "Path cannot contain empty segments".
Definition msg_empty_path : string := "Path cannot be empty".

(** [assertPathSafe4Distinct]: [None] when the path is accepted, the message
    of the error otherwise.  [!p] on a string holds of the empty string. *)
Definition assertPathSafe4Distinct (path : string) : option string :=
  let split := split_dot path in
  if length split =? 0 then Some msg_empty_path
  else if existsb (fun p => String.eqb p "") split then Some msg_empty_segment
  else None.

Section Distinct.

(** [objectHash] of the [object-hash] package, which is not part of the
    repository: any function from values to strings. *)
Variable objectHash : jsval -> string.

(** The member of [seen] that stands for a value: the hash for a value whose
    [typeof] is ['object'], the value itself otherwise. *)
Definition seen_key (v : jsval) : jsval :=
  if typeof_object v then VStr (objectHash v) else v.

(** [seen.has(k)]. *)
Definition seen_has (seen : list jsval) (k : jsval) : bool :=
  existsb (SameValueZero k) seen.

(** The inner [for] loop of [distinct] over the array [values]: [seen] and
    [ret] before, [seen] and [ret] after. *)
Fixpoint collect_values (values : list jsval) (seen ret : list jsval)
    : list jsval * list jsval :=
  match values with
  | [] => (seen, ret)
  | v :: rest =>
      if seen_has seen (seen_key v) then collect_values rest seen ret
      else collect_values rest (seen ++ [seen_key v]) (ret ++ [v])
  end.

(** The [for await (const doc of cursor)] loop, over the documents the cursor
    yields, with the one extractor made before the loop. *)
Fixpoint distinct_loop (e : extractor) (docs : list jsval)
    (seen ret : list jsval) : list jsval :=
  match docs with
  | [] => ret
  | doc :: rest =>
      let '(values, e') := call_extractor e doc in
      let '(seen', ret') := collect_values values seen ret in
      distinct_loop e' rest seen' ret'
  end.

(** [Collection.distinct(key, filter)], as a function of the documents that
    the cursor of [find(filter, projection)] yields: the error message when
    the path is refused, the distinct values otherwise.  The projection only
    shapes the request. *)
Definition Collection_distinct (key : string) (docs : list jsval)
    : string + list jsval :=
  match assertPathSafe4Distinct key with
  | Some message => inl message
  | None => inr (distinct_loop (mkDistinctPathExtractor key) docs [] [])
  end.

(** The same loop with what each document contributes on its own, for
    comparison with [distinct_loop]. *)
Fixpoint distinct_loop_per_document (path : string) (docs : list jsval)
    (seen ret : list jsval) : list jsval :=
  match docs with
  | [] => ret
  | doc :: rest =>
      let '(seen', ret') := collect_values (extracted_from path doc) seen ret in
      distinct_loop_per_document path rest seen' ret'
  end.

Definition Collection_distinct_per_document (key : string) (docs : list jsval)
    : string + list jsval :=
  match assertPathSafe4Distinct key with
  | Some message => inl message
  | None => inr (distinct_loop_per_document key docs [] [])
  end.

End Distinct.

(** The documents of the examples: [{items: [{tag: 'a'}, {tag: 'b'}]}] and
    [{a: [0, false, '', null]}]. *)
Definition doc_items : jsval :=
  VObj [("items"%string,
         VArr [VObj [("tag"%string, VStr "a")]; VObj [("tag"%string, VStr "b")]])].

Definition doc_falsy_elements : jsval :=
  VObj [("a"%string, VArr [VNum 0; VBool false; VStr ""; VNull])].

(* ===================================================================== *)
(** * Commands, responses and the command executor *)
(* ===================================================================== *)

(** The command objects sent to the Data API: the six that
    [buildBulkWriteCommands] builds, and the [insertMany] command of the
    chunked insertion. *)
Inductive Command : Type :=
| CmdInsertOne (document : jsval)
| CmdUpdateOne (filter update : jsval) (upsert : bool)
| CmdUpdateMany (filter update : jsval) (upsert : bool)
| CmdFindOneAndReplace (filter replacement : jsval) (upsert : bool)
| CmdDeleteOne (filter : jsval)
| CmdDeleteMany (filter : jsval)
| CmdInsertMany (documents : list jsval) (ordered : bool).

(** The [status] object of a response; an absent field is [None]. *)
Record Status : Type := {
  insertedIds : option (list jsval);
  matchedCount : option Z;
  modifiedCount : option Z;
  deletedCount : option Z;
  upsertedId : option jsval;
  moreData : option bool
}.

(** A response ([resp], [rawResponse]); only its [status] is read here. *)
Record Response : Type := {
  status : option Status
}.

(** An entry of [detailedErrorDescriptors]. *)
Record ErrorDescriptor : Type := {
  command : Command;
  rawResponse : Response
}.

(** [BulkWriteResult]: the counters, the upserted ids keyed by operation
    index and the raw statuses in the order they were merged. *)
Record BulkWriteResult : Type := {
  deletedCount_ : Z;
  insertedCount_ : Z;
  matchedCount_ : Z;
  modifiedCount_ : Z;
  upsertedCount_ : Z;
  upsertedIds : gmap nat jsval;
  getRawResponse : list Status
}.

(** [new BulkWriteResult()]. *)
Definition new_BulkWriteResult : BulkWriteResult :=
  {| deletedCount_ := 0; insertedCount_ := 0; matchedCount_ := 0;
     modifiedCount_ := 0; upsertedCount_ := 0; upsertedIds := ∅;
     getRawResponse := [] |}.

(** Modelled from the spec: the error classes of [src/client/errors], which
    is not among the sources.  A [DataAPIResponseError] is the operational
    (document-level) failure; it carries the descriptors of the failed
    commands, at least one (the executor builds it from the one command and
    its raw response).  [mkRespErrorFromResponse] and
    [mkRespErrorFromResponses] build the aggregated error of an operation
    from the failed commands, their raw responses and the partial result.
    [TypeError] is the runtime error of reading a property of [undefined];
    [Error] is [new Error(message)]; any other failure of the executor
    (timeout, 5xx, network) is a [TransportError]. *)
Inductive error : Type :=
| DataAPIResponseError (first : ErrorDescriptor) (others : list ErrorDescriptor)
| BulkWriteError (commands : list Command) (raw : list Response)
    (partialResult : BulkWriteResult)
| InsertManyError (commands : list Command) (raw : list Response)
    (insertedIds : list jsval) (insertedCount : nat)
| DeleteManyError (commands : list Command) (raw : list Response)
    (deletedCount : Z)
| Error (message : string)
| TypeError
| TransportError (description : string).

(** [e instanceof DataAPIResponseError]. *)
Definition is_DataAPIResponseError (e : error) : bool :=
  match e with DataAPIResponseError _ _ => true | _ => false end.

(** How an awaited call ends. *)
Inductive outcome (A : Type) : Type :=
| Returned (a : A)
| Thrown (e : error).
Arguments Returned {A} a.
Arguments Thrown {A} e.

(** The remote service, seen from [httpClient.executeCommand]: what the
    [k]-th command sent by the operation (counting from 0) is answered, when
    that command is [c]. *)
Definition Service : Type := nat -> Command -> outcome Response.

(** [await httpClient.executeCommand(c)], after the commands [sent]: the
    answer, and the commands sent so far. *)
Definition executeCommand (srv : Service) (c : Command) (sent : list Command)
    : outcome Response * list Command :=
  (srv (length sent) c, sent ++ [c]).

(* ===================================================================== *)
(** * Bulk write: commands, accumulation, ordered execution *)
(* ===================================================================== *)

(** [AnyBulkWriteOperation]: an object with one of six keys.  [upsert] is
    optional.  [OpOther] is an object whose first key is none of the six,
    which JavaScript callers can pass. *)
Inductive AnyBulkWriteOperation : Type :=
| OpInsertOne (document : jsval)
| OpReplaceOne (filter replacement : jsval) (upsert : option bool)
| OpUpdateOne (filter update : jsval) (upsert : option bool)
| OpUpdateMany (filter update : jsval) (upsert : option bool)
| OpDeleteOne (filter : jsval)
| OpDeleteMany (filter : jsval)
| OpOther (commandName : string).

Definition msg_unknown_operation (commandName : string) : string :=
  String.append "Unknown bulk write operation: " commandName.

(** [buildBulkWriteCommands]; [upsert ?? false] is [default false upsert]. *)
Definition buildBulkWriteCommands (operations : AnyBulkWriteOperation)
    : outcome Command :=
  match operations with
  | OpInsertOne document => Returned (CmdInsertOne document)
  | OpUpdateOne filter update upsert =>
      Returned (CmdUpdateOne filter update (default false upsert))
  | OpUpdateMany filter update upsert =>
      Returned (CmdUpdateMany filter update (default false upsert))
  | OpReplaceOne filter replacement upsert =>
      Returned (CmdFindOneAndReplace filter replacement (default false upsert))
  | OpDeleteOne filter => Returned (CmdDeleteOne filter)
  | OpDeleteMany filter => Returned (CmdDeleteMany filter)
  | OpOther commandName => Thrown (Error (msg_unknown_operation commandName))
  end.

(** [operations.map(buildBulkWriteCommands)]: the first throw ends the map. *)
Fixpoint map_buildBulkWriteCommands (operations : list AnyBulkWriteOperation)
    : outcome (list Command) :=
  match operations with
  | [] => Returned []
  | op :: rest =>
      match buildBulkWriteCommands op with
      | Thrown e => Thrown e
      | Returned c =>
          match map_buildBulkWriteCommands rest with
          | Thrown e => Thrown e
          | Returned cs => Returned (c :: cs)
          end
      end
  end.

(** [if (resp.upsertedId)]: present and truthy. *)
Definition has_upsertedId (resp : Status) : bool :=
  match upsertedId resp with
  | Some id => truthy id
  | None => false
  end.

(** [addToBulkWriteResult(result, resp, i)]. *)
Definition addToBulkWriteResult (result : BulkWriteResult) (resp : Status)
    (i : nat) : BulkWriteResult :=
  {| insertedCount_ :=
       (insertedCount_ result
        + Z.of_nat (default 0%nat (length <$> insertedIds resp)))%Z;
     modifiedCount_ :=
       (modifiedCount_ result + default 0%Z (modifiedCount resp))%Z;
     matchedCount_ :=
       (matchedCount_ result + default 0%Z (matchedCount resp))%Z;
     deletedCount_ :=
       (deletedCount_ result + default 0%Z (deletedCount resp))%Z;
     upsertedCount_ :=
       if has_upsertedId resp then (upsertedCount_ result + 1)%Z
       else upsertedCount_ result;
     upsertedIds :=
       match upsertedId resp with
       | Some id => if truthy id then <[i:=id]> (upsertedIds result)
                    else upsertedIds result
       | None => upsertedIds result
       end;
     getRawResponse := getRawResponse result ++ [resp] |}.

(** The [catch] block shared by the bulk-write paths, up to the point where
    they differ: [if (desc.rawResponse.status) addToBulkWriteResult(...)]. *)
Definition add_partial (results : BulkWriteResult) (desc : ErrorDescriptor)
    (i : nat) : BulkWriteResult :=
  match status (rawResponse desc) with
  | Some st => addToBulkWriteResult results st i
  | None => results
  end.

(** The loop of [bulkWriteOrdered] from index [i], over the operations
    [operations[i..]], with the [try]/[catch] around it.  A response without
    [status] makes [addToBulkWriteResult(results, resp.status!, i)] read a
    property of [undefined]: that [TypeError] is caught and, not being a
    [DataAPIResponseError], thrown again. *)
Fixpoint bulkWriteOrdered_from (srv : Service) (operations : list Command)
    (i : nat) (results : BulkWriteResult) (sent : list Command)
    : outcome BulkWriteResult * list Command :=
  match operations with
  | [] => (Returned results, sent)
  | op :: rest =>
      match executeCommand srv op sent with
      | (Returned resp, sent') =>
          match status resp with
          | Some st =>
              bulkWriteOrdered_from srv rest (i + 1)
                (addToBulkWriteResult results st i) sent'
          | None => (Thrown TypeError, sent')
          end
      | (Thrown (DataAPIResponseError desc _), sent') =>
          (Thrown (BulkWriteError [command desc] [rawResponse desc]
                     (add_partial results desc i)), sent')
      | (Thrown e, sent') => (Thrown e, sent')
      end
  end.

Definition bulkWriteOrdered (srv : Service) (operations : list Command)
    : outcome BulkWriteResult * list Command :=
  bulkWriteOrdered_from srv operations 0 new_BulkWriteResult [].

(* ===================================================================== *)
(** * insertMany: the command and the ordered path *)
(* ===================================================================== *)

(** The module-level [insertMany(httpClient, documents, ordered)]: one
    [insertMany] command; [resp.status?.insertedIds ?? []]. *)
Definition status_insertedIds (resp : Response) : list jsval :=
  match status resp with
  | Some st => default [] (insertedIds st)
  | None => []
  end.

Definition insertMany (documents : list jsval) (ordered : bool)
    (srv : Service) (sent : list Command)
    : outcome (list jsval) * list Command :=
  match executeCommand srv (CmdInsertMany documents ordered) sent with
  | (Returned resp, sent') => (Returned (status_insertedIds resp), sent')
  | (Thrown e, sent') => (Thrown e, sent')
  end.

(** [documents.slice(i, j)] for indexes within the naturals. *)
Definition slice {A} (l : list A) (i j : nat) : list A :=
  take (j - i) (drop i l).

(** The [for] loop of [insertManyOrdered] from [i].  The loop advances by
    [chunkSize], so it does not end when [chunkSize] is 0 and documents
    remain: [fuel] bounds the number of iterations and [None] is a run that
    has not ended within it. *)
Fixpoint insertManyOrdered_from (fuel : nat) (srv : Service)
    (documents : list jsval) (chunkSize : nat) (i : nat)
    (insertedIds : list jsval) (sent : list Command)
    : option (outcome (list jsval) * list Command) :=
  if length documents <=? i then Some (Returned insertedIds, sent)
  else
    match fuel with
    | O => None
    | S fuel' =>
        match insertMany (slice documents i (i + chunkSize)) true
                srv sent with
        | (Returned inserted, sent') =>
            insertManyOrdered_from fuel' srv documents chunkSize
              (i + chunkSize) (insertedIds ++ inserted) sent'
        | (Thrown (DataAPIResponseError desc _), sent') =>
            let insertedIds' :=
              insertedIds ++ status_insertedIds (rawResponse desc) in
            Some (Thrown (InsertManyError [command desc] [rawResponse desc]
                            insertedIds' (length insertedIds')), sent')
        | (Thrown e, sent') => Some (Thrown e, sent')
        end
    end.

Definition insertManyOrdered (fuel : nat) (srv : Service)
    (documents : list jsval) (chunkSize : nat)
    : option (outcome (list jsval) * list Command) :=
  insertManyOrdered_from fuel srv documents chunkSize 0 [] [].

(* ===================================================================== *)
(** * The worker pool of the unordered paths *)
(* ===================================================================== *)

(** [bulkWriteUnordered] and [insertManyUnordered] run the same pool:
    [parallel] async functions share [masterIndex], the accumulator and the
    two failure arrays, and each of them loops

      while (masterIndex < total) {
        localI = masterIndex; masterIndex += stride;
        if (stops_at localI) break;
        try { resp = await executeCommand(command_at localI); on_response }
        catch (e) { if (!(e instanceof DataAPIResponseError)) throw e;
                    on_failure; failCommands.push; failRaw.push } }

    An async function runs without interruption up to its next [await], so a
    run of the pool is a sequence of resumptions: the answer to the request of
    one worker arrives and that worker runs until it awaits again, returns or
    throws. *)

Inductive worker : Type :=
| Awaiting (localI : nat) (request : nat)
| Resolved
| Rejected (e : error).

Definition is_Awaiting (w : worker) : bool :=
  match w with Awaiting _ _ => true | _ => false end.

Definition is_Resolved (w : worker) : bool :=
  match w with Resolved => true | _ => false end.

(** The variables the workers share, the workers, the commands sent so far,
    and the rejection [Promise.all(workers)] has settled with, if any. *)
Record pool (A : Type) : Type := {
  masterIndex : nat;
  accumulated : A;
  failCommands : list Command;
  failRaw : list Response;
  workers : list worker;
  sent : list Command;
  rejection : option error
}.
Arguments masterIndex {A} _.
Arguments accumulated {A} _.
Arguments failCommands {A} _.
Arguments failRaw {A} _.
Arguments workers {A} _.
Arguments sent {A} _.
Arguments rejection {A} _.

Section WorkerPool.

Context {A : Type}.

(** [total] is [operations.length] or [documents.length]; [stride] is what
    [masterIndex] advances by (1, or [chunkSize]); [stops_at] is the
    condition of the [break]; [command_at localI] is the command the worker
    sends; [on_response] is the rest of the [try] block after the [await],
    [on_failure] the update of the accumulator in the [catch] block. *)
Variable srv : Service.
Variable total : nat.
Variable stride : nat.
Variable stops_at : nat -> bool.
Variable command_at : nat -> Command.
Variable on_response : A -> Response -> nat -> outcome A.
Variable on_failure : A -> ErrorDescriptor -> nat -> A.

Definition set_worker (w : nat) (wk : worker) (p : pool A) : pool A :=
  {| masterIndex := masterIndex p; accumulated := accumulated p;
     failCommands := failCommands p; failRaw := failRaw p;
     workers := <[w:=wk]> (workers p); sent := sent p;
     rejection := rejection p |}.

Definition push_worker (wk : worker) (p : pool A) : pool A :=
  {| masterIndex := masterIndex p; accumulated := accumulated p;
     failCommands := failCommands p; failRaw := failRaw p;
     workers := workers p ++ [wk]; sent := sent p;
     rejection := rejection p |}.

Definition set_accumulated (a : A) (p : pool A) : pool A :=
  {| masterIndex := masterIndex p; accumulated := a;
     failCommands := failCommands p; failRaw := failRaw p;
     workers := workers p; sent := sent p; rejection := rejection p |}.

(** [failCommands.push(desc.command); failRaw.push(desc.rawResponse)]. *)
Definition push_failure (desc : ErrorDescriptor) (p : pool A) : pool A :=
  {| masterIndex := masterIndex p; accumulated := accumulated p;
     failCommands := failCommands p ++ [command desc];
     failRaw := failRaw p ++ [rawResponse desc];
     workers := workers p; sent := sent p; rejection := rejection p |}.

(** The head of the [while] loop, run by a worker that starts or has
    finished an operation: it takes the next index and sends its command
    ([Awaiting]), or leaves the loop ([Resolved]). *)
Definition worker_loop (p : pool A) : worker * pool A :=
  if masterIndex p <? total then
    let localI := masterIndex p in
    if stops_at localI then
      (Resolved,
       {| masterIndex := masterIndex p + stride; accumulated := accumulated p;
          failCommands := failCommands p; failRaw := failRaw p;
          workers := workers p; sent := sent p; rejection := rejection p |})
    else
      (Awaiting localI (length (sent p)),
       {| masterIndex := masterIndex p + stride; accumulated := accumulated p;
          failCommands := failCommands p; failRaw := failRaw p;
          workers := workers p; sent := sent p ++ [command_at localI];
          rejection := rejection p |})
  else (Resolved, p).

(** [Array.from({ length: parallel }, async () => ...)]: the workers are
    created one after the other, each running up to its first [await]. *)
Fixpoint spawn (n : nat) (p : pool A) : pool A :=
  match n with
  | O => p
  | S n' => let '(wk, p') := worker_loop p in spawn n' (push_worker wk p')
  end.

Definition start (initial : A) (parallel : Z) : pool A :=
  spawn (Z.to_nat parallel)
    {| masterIndex := 0; accumulated := initial; failCommands := [];
       failRaw := []; workers := []; sent := []; rejection := None |}.

(** Worker [w] throws [e]: its promise rejects, and [Promise.all] rejects
    with the first such error. *)
Definition reject (w : nat) (e : error) (p : pool A) : pool A :=
  {| masterIndex := masterIndex p; accumulated := accumulated p;
     failCommands := failCommands p; failRaw := failRaw p;
     workers := <[w:=Rejected e]> (workers p); sent := sent p;
     rejection := match rejection p with
                  | Some e0 => Some e0
                  | None => Some e
                  end |}.

(** What the [try] block of a worker yields for the request [request] of the
    operation [localI], on the accumulator [a]. *)
Definition attempt (a : A) (localI request : nat) : outcome A :=
  match srv request (command_at localI) with
  | Returned resp => on_response a resp localI
  | Thrown e => Thrown e
  end.

(** The answer to the request of worker [w] arrives and the worker runs on.
    Nothing happens when worker [w] is not awaiting. *)
Definition resume (w : nat) (p : pool A) : pool A :=
  match workers p !! w with
  | Some (Awaiting localI request) =>
      match attempt (accumulated p) localI request with
      | Returned a =>
          let '(wk, p') := worker_loop (set_accumulated a p) in
          set_worker w wk p'
      | Thrown (DataAPIResponseError desc _) =>
          let p1 :=
            push_failure desc
              (set_accumulated (on_failure (accumulated p) desc localI) p) in
          let '(wk, p') := worker_loop p1 in
          set_worker w wk p'
      | Thrown e => reject w e p
      end
  | _ => p
  end.

(** The pool after the resumptions of [schedule], in that order. *)
Definition run (schedule : list nat) (p : pool A) : pool A :=
  foldl (fun p w => resume w p) p schedule.

(** [await Promise.all(workers)] and what follows it: the call has thrown
    the error of the first rejected worker; or every worker has returned and
    the call throws the aggregated error [mkError failCommands failRaw acc]
    when [failCommands.length > 0] and returns the accumulator otherwise; or
    the call is still waiting ([None]). *)
Definition settle (mkError : list Command -> list Response -> A -> error)
    (p : pool A) : option (outcome A) :=
  match rejection p with
  | Some e => Some (Thrown e)
  | None =>
      if forallb is_Resolved (workers p) then
        if 0 <? length (failCommands p) then
          Some (Thrown (mkError (failCommands p) (failRaw p) (accumulated p)))
        else Some (Returned (accumulated p))
      else None
  end.

(** The requests the workers are awaiting. *)
Definition awaited (ws : list worker) : list nat :=
  omap (fun w => match w with Awaiting _ request => Some request | _ => None end)
       ws.

(** What the completion of request [k], the one of the operation at
    [k * stride], does to the accumulator and the two failure arrays: the
    [try] block on success, the [catch] block on a [DataAPIResponseError];
    [None] when the worker throws. *)
Definition complete (k : nat)
    (s : A * list Command * list Response)
    : option (A * list Command * list Response) :=
  let '(a, fc, fr) := s in
  match attempt a (k * stride) k with
  | Returned a' => Some (a', fc, fr)
  | Thrown (DataAPIResponseError desc _) =>
      Some (on_failure a desc (k * stride),
            fc ++ [command desc], fr ++ [rawResponse desc])
  | Thrown _ => None
  end.

(** The completions of the requests [order], one after the other. *)
Fixpoint replay (order : list nat)
    (s : A * list Command * list Response)
    : option (A * list Command * list Response) :=
  match order with
  | [] => Some s
  | k :: rest =>
      match complete k s with
      | Some s' => replay rest s'
      | None => None
      end
  end.

(** What holds of a pool at every point of a run: [masterIndex] counts the
    commands sent, the commands sent are those of the operations in index
    order, a worker that has left the loop has seen [masterIndex] reach
    [total], and, as long as no worker has thrown, the shared variables are
    what the completed requests have made of them in their order of
    completion [order], every request sent being completed or awaited. *)
Definition pool_invariant (initial : A) (p : pool A) : Prop :=
  masterIndex p = length (sent p) * stride
  /\ sent p = map (fun k => command_at (k * stride)) (seq 0 (length (sent p)))
  /\ (forall k, k < length (sent p) -> k * stride < total)
  /\ Forall (fun w => match w with
                      | Awaiting localI request => localI = request * stride
                      | _ => True
                      end) (workers p)
  /\ (In Resolved (workers p) -> total <= masterIndex p)
  /\ (rejection p = None ->
      (forall e, ~ In (Rejected e) (workers p))
      /\ exists order,
           Permutation (order ++ awaited (workers p))
                       (seq 0 (length (sent p)))
           /\ replay order (initial, [], [])
              = Some (accumulated p, failCommands p, failRaw p)).

(** The number of requests in flight. *)
Definition in_flight (p : pool A) : nat :=
  length (filter (fun w => is_Awaiting w = true) (workers p)).

End WorkerPool.

(* ===================================================================== *)
(** * The unordered paths *)
(* ===================================================================== *)

(** [operations[localI]]; the index is below [operations.length] whenever a
    worker reads it. *)
Definition operation_at (operations : list Command) (localI : nat) : Command :=
  nth localI operations (CmdDeleteMany VUndefined).

(** [addToBulkWriteResult(results, resp.status!, localI)]: a response without
    [status] makes it throw a [TypeError]. *)
Definition bulkWrite_on_response (results : BulkWriteResult) (resp : Response)
    (localI : nat) : outcome BulkWriteResult :=
  match status resp with
  | Some st => Returned (addToBulkWriteResult results st localI)
  | None => Thrown TypeError
  end.

(** The pool of [bulkWriteUnordered] at its creation. *)
Definition bulkWriteUnordered_start (operations : list Command)
    (parallel : Z) : pool BulkWriteResult :=
  start (length operations) 1 (fun localI => length operations <=? localI)
    (operation_at operations) new_BulkWriteResult parallel.

(** A resumption of a worker of [bulkWriteUnordered]. *)
Definition bulkWriteUnordered_resume (srv : Service)
    (operations : list Command) (w : nat) (p : pool BulkWriteResult)
    : pool BulkWriteResult :=
  resume srv (length operations) 1 (fun localI => length operations <=? localI)
    (operation_at operations) bulkWrite_on_response add_partial w p.

Definition bulkWriteUnordered_run (srv : Service) (operations : list Command)
    (parallel : Z) (schedule : list nat) : pool BulkWriteResult :=
  run srv (length operations) 1 (fun localI => length operations <=? localI)
    (operation_at operations) bulkWrite_on_response add_partial schedule
    (bulkWriteUnordered_start operations parallel).

(** [bulkWriteUnordered(httpClient, operations, parallel)] when the answers
    arrive in the order [schedule]: how the call has ended by then ([None]
    while it is waiting), and the commands sent. *)
Definition bulkWriteUnordered (srv : Service) (operations : list Command)
    (parallel : Z) (schedule : list nat)
    : option (outcome BulkWriteResult) * list Command :=
  let p := bulkWriteUnordered_run srv operations parallel schedule in
  (settle BulkWriteError p, sent p).

(** [insertManyUnordered]: the chunk that starts at [localI]. *)
Definition chunk_command (documents : list jsval) (chunkSize : nat)
    (localI : nat) : Command :=
  CmdInsertMany
    (slice documents localI (Nat.min (localI + chunkSize) (length documents)))
    false.

Definition insertMany_stops_at (documents : list jsval) (chunkSize : nat)
    (localI : nat) : bool :=
  Nat.min (localI + chunkSize) (length documents) <=? localI.

Definition insertMany_on_response (insertedIds : list jsval)
    (resp : Response) (localI : nat) : outcome (list jsval) :=
  Returned (insertedIds ++ status_insertedIds resp).

Definition insertMany_on_failure (insertedIds : list jsval)
    (desc : ErrorDescriptor) (localI : nat) : list jsval :=
  insertedIds ++ status_insertedIds (rawResponse desc).

Definition insertManyUnordered_start (documents : list jsval)
    (parallel : Z) (chunkSize : nat) : pool (list jsval) :=
  start (length documents) chunkSize (insertMany_stops_at documents chunkSize)
    (chunk_command documents chunkSize) [] parallel.

Definition insertManyUnordered_resume (srv : Service)
    (documents : list jsval) (chunkSize : nat) (w : nat)
    (p : pool (list jsval)) : pool (list jsval) :=
  resume srv (length documents) chunkSize
    (insertMany_stops_at documents chunkSize)
    (chunk_command documents chunkSize)
    insertMany_on_response insertMany_on_failure w p.

Definition insertManyUnordered_run (srv : Service) (documents : list jsval)
    (parallel : Z) (chunkSize : nat) (schedule : list nat)
    : pool (list jsval) :=
  run srv (length documents) chunkSize
    (insertMany_stops_at documents chunkSize)
    (chunk_command documents chunkSize)
    insertMany_on_response insertMany_on_failure schedule
    (insertManyUnordered_start documents parallel chunkSize).

Definition mkInsertManyError (commands : list Command) (raw : list Response)
    (insertedIds : list jsval) : error :=
  InsertManyError commands raw insertedIds (length insertedIds).

Definition insertManyUnordered (srv : Service) (documents : list jsval)
    (parallel : Z) (chunkSize : nat) (schedule : list nat)
    : option (outcome (list jsval)) * list Command :=
  let p := insertManyUnordered_run srv documents parallel chunkSize schedule in
  (settle mkInsertManyError p, sent p).

(* ===================================================================== *)
(** * [Collection.bulkWrite] and [Collection.insertMany] *)
(* ===================================================================== *)

(** The options object that [bulkWrite] receives: the properties
    [options?.ordered] and [options?.parallel] that the method reads, and a
    property [concurrency], which the method never reads; the
    [BulkWriteOptions] that [collection.ts] imports declares [ordered] only,
    and [concurrency] is declared by [BulkWriteUnorderedOptions] of
    [data-api/types], which [collection.ts] does not import. *)
Record BulkWriteOptions : Type := {
  bw_ordered : option bool;
  bw_parallel : option Z;
  bw_concurrency : option Z
}.

(** [options?.parallel ?? 8]. *)
Definition bulkWrite_pool_size (options : option BulkWriteOptions) : Z :=
  default 8%Z (options ≫= bw_parallel).

(** [options?.ordered], as a condition. *)
Definition bulkWrite_ordered (options : option BulkWriteOptions) : bool :=
  default false (options ≫= bw_ordered).

(** [Collection.bulkWrite(operations, options)] when the answers of the
    unordered path arrive in the order [schedule]. *)
Definition Collection_bulkWrite (srv : Service)
    (operations : list AnyBulkWriteOperation)
    (options : option BulkWriteOptions) (schedule : list nat)
    : option (outcome BulkWriteResult) * list Command :=
  match map_buildBulkWriteCommands operations with
  | Thrown e => (Some (Thrown e), [])
  | Returned commands =>
      if bulkWrite_ordered options then
        let '(r, sent) := bulkWriteOrdered srv commands in (Some r, sent)
      else
        bulkWriteUnordered srv commands (bulkWrite_pool_size options) schedule
  end.

(** The options object of [insertMany]. *)
Record InsertManyOptions : Type := {
  im_ordered : option bool;
  im_parallel : option Z;
  im_chunkSize : option nat
}.

(** [InsertManyResult]. *)
Record InsertManyResult : Type := {
  im_insertedCount : nat;
  im_insertedIds : list jsval
}.

(** [options?.chunkSize ?? 20]. *)
Definition insertMany_chunkSize (options : option InsertManyOptions) : nat :=
  default 20 (options ≫= im_chunkSize).

Definition mkInsertManyResult (insertedIds : list jsval) : InsertManyResult :=
  {| im_insertedCount := length insertedIds; im_insertedIds := insertedIds |}.

Definition map_outcome {A B} (f : A -> B) (o : outcome A) : outcome B :=
  match o with
  | Returned a => Returned (f a)
  | Thrown e => Thrown e
  end.

Section InsertMany.

(** [setDefaultIdForInsert] of [./utils], which is not among the sources: it
    gives a document an [_id] when it has none. *)
Variable setDefaultIdForInsert : jsval -> jsval.

(** [Collection.insertMany(documents, options)]; [fuel] bounds the
    iterations of the ordered loop and [schedule] is the order in which the
    answers of the unordered path arrive. *)
Definition Collection_insertMany (srv : Service) (documents : list jsval)
    (options : option InsertManyOptions) (fuel : nat) (schedule : list nat)
    : option (outcome InsertManyResult) * list Command :=
  let chunkSize := insertMany_chunkSize options in
  let documents := map setDefaultIdForInsert documents in
  if default false (options ≫= im_ordered) then
    match insertManyOrdered fuel srv documents chunkSize with
    | Some (r, sent) => (Some (map_outcome mkInsertManyResult r), sent)
    | None => (None, [])
    end
  else
    let '(r, sent) :=
      insertManyUnordered srv documents
        (default 8%Z (options ≫= im_parallel)) chunkSize schedule in
    (map_outcome mkInsertManyResult <$> r, sent).

End InsertMany.

(* ===================================================================== *)
(** * What the service has answered, and what the answers add up to *)
(* ===================================================================== *)

(** The status with which request [k], the one of operation [k], has been
    answered, when it has been answered with a response that has one. *)
Definition answered_status (srv : Service) (operations : list Command)
    (k : nat) : option Status :=
  match srv k (operation_at operations k) with
  | Returned resp => status resp
  | Thrown _ => None
  end.

(** The accumulator after the answers to the requests [order] have been
    merged into [results], in that order. *)
Definition merge_order (srv : Service) (operations : list Command)
    (order : list nat) (results : BulkWriteResult) : BulkWriteResult :=
  foldl (fun r k => match answered_status srv operations k with
                    | Some st => addToBulkWriteResult r st k
                    | None => r
                    end) results order.

(** What one response adds to each counter. *)
Definition inserted_delta (st : Status) : Z :=
  Z.of_nat (default 0 (length <$> insertedIds st)).
Definition matched_delta (st : Status) : Z := default 0%Z (matchedCount st).
Definition modified_delta (st : Status) : Z := default 0%Z (modifiedCount st).
Definition deleted_delta (st : Status) : Z := default 0%Z (deletedCount st).
Definition upserted_delta (st : Status) : Z :=
  match upsertedId st with Some _ => 1%Z | None => 0%Z end.

(** What [addToBulkWriteResult] adds to [upsertedCount]: one when the
    upserted id passes the test [if (resp.upsertedId)]. *)
Definition counted_upsert (st : Status) : Z :=
  if has_upsertedId st then 1%Z else 0%Z.

Definition delta_of (d : Status -> Z) (srv : Service)
    (operations : list Command) (k : nat) : Z :=
  default 0%Z (d <$> answered_status srv operations k).

Definition sumZ (f : nat -> Z) (l : list nat) : Z :=
  foldr (fun k s => (f k + s)%Z) 0%Z l.

(** The first [m] answers carry no upserted id that is falsy (0 or the empty
    string). *)
Definition upserted_ids_truthy (srv : Service) (operations : list Command)
    (m : nat) : Prop :=
  forall k st id,
    k < m -> answered_status srv operations k = Some st ->
    upsertedId st = Some id -> truthy id = true.

(** The operations that can upsert: [replaceOne], [updateOne] and
    [updateMany] with [upsert: true]; and their commands. *)
Definition is_upsert_operation (op : AnyBulkWriteOperation) : bool :=
  match op with
  | OpReplaceOne _ _ (Some true) | OpUpdateOne _ _ (Some true)
  | OpUpdateMany _ _ (Some true) => true
  | _ => false
  end.

Definition is_upsert_command (c : Command) : bool :=
  match c with
  | CmdFindOneAndReplace _ _ true | CmdUpdateOne _ _ true
  | CmdUpdateMany _ _ true => true
  | _ => false
  end.

(** A service that reports an upserted id only in its answers to commands
    that ask for an upsert. *)
Definition upserted_ids_only_for_upserts (srv : Service) : Prop :=
  forall k c resp st id,
    srv k c = Returned resp -> status resp = Some st ->
    upsertedId st = Some id -> truthy id = true ->
    is_upsert_command c = true.

(** The chunks of [insertMany]: the [k]-th is
    [documents.slice(k * chunkSize, k * chunkSize + chunkSize)], for the [k]
    with [k * chunkSize < documents.length]. *)
Definition chunk_count (n chunkSize : nat) : nat :=
  (n + chunkSize - 1) / chunkSize.

Definition chunk (documents : list jsval) (chunkSize k : nat) : list jsval :=
  slice documents (k * chunkSize) (k * chunkSize + chunkSize).

Definition chunks (documents : list jsval) (chunkSize : nat)
    : list (list jsval) :=
  map (chunk documents chunkSize)
      (seq 0 (chunk_count (length documents) chunkSize)).

(** The ids with which the [k]-th [insertMany] command has been answered. *)
Definition answered_ids (srv : Service) (documents : list jsval)
    (chunkSize : nat) (ordered : bool) (k : nat) : list jsval :=
  match srv k (CmdInsertMany (chunk documents chunkSize k) ordered) with
  | Returned resp => status_insertedIds resp
  | Thrown _ => []
  end.

(** The descriptor with which request [k] of a bulk write has failed, when it
    has failed with a [DataAPIResponseError]. *)
Definition failure_of (srv : Service) (operations : list Command) (k : nat)
    : option ErrorDescriptor :=
  match srv k (operation_at operations k) with
  | Thrown (DataAPIResponseError desc _) => Some desc
  | _ => None
  end.

(** A request whose answer makes the worker throw: an error that is not a
    [DataAPIResponseError], or a response without [status]. *)
Definition is_fatal (srv : Service) (operations : list Command) (k : nat)
    : bool :=
  match srv k (operation_at operations k) with
  | Returned resp => match status resp with Some _ => false | None => true end
  | Thrown (DataAPIResponseError _ _) => false
  | Thrown _ => true
  end.

(** What the completion of request [k] merges into the accumulator: the
    status of the response, or the partial effect reported in the failing
    response. *)
Definition merge_completion (srv : Service) (operations : list Command)
    (r : BulkWriteResult) (k : nat) : BulkWriteResult :=
  match srv k (operation_at operations k) with
  | Returned resp =>
      match status resp with
      | Some st => addToBulkWriteResult r st k
      | None => r
      end
  | Thrown (DataAPIResponseError desc _) => add_partial r desc k
  | Thrown _ => r
  end.

Definition merge_completions (srv : Service) (operations : list Command)
    (order : list nat) (r : BulkWriteResult) : BulkWriteResult :=
  foldl (merge_completion srv operations) r order.

(** The same for the chunks of an unordered [insertMany]. *)
Definition chunk_failure_of (srv : Service) (documents : list jsval)
    (chunkSize : nat) (k : nat) : option ErrorDescriptor :=
  match srv k (CmdInsertMany (chunk documents chunkSize k) false) with
  | Thrown (DataAPIResponseError desc _) => Some desc
  | _ => None
  end.

Definition chunk_is_fatal (srv : Service) (documents : list jsval)
    (chunkSize : nat) (k : nat) : bool :=
  match srv k (CmdInsertMany (chunk documents chunkSize k) false) with
  | Returned _ | Thrown (DataAPIResponseError _ _) => false
  | Thrown _ => true
  end.

Definition chunk_completion_ids (srv : Service) (documents : list jsval)
    (chunkSize : nat) (k : nat) : list jsval :=
  match srv k (CmdInsertMany (chunk documents chunkSize k) false) with
  | Returned resp => status_insertedIds resp
  | Thrown (DataAPIResponseError desc _) =>
      status_insertedIds (rawResponse desc)
  | Thrown _ => []
  end.

(** The command of the [k]-th chunk on the ordered path. *)
Definition ordered_chunk_command (documents : list jsval) (chunkSize : nat)
    (k : nat) : Command :=
  CmdInsertMany (chunk documents chunkSize k) true.

(* ===================================================================== *)
(** * The scenario of the specification's examples *)
(* ===================================================================== *)

(** Three insertions, the second being a duplicate of the first, against a
    service that refuses the second request as a duplicate and answers any
    other insertion with the [_id] of its document. *)
Definition doc_A : jsval := VObj [("_id"%string, VStr "A")].
Definition doc_B : jsval := VObj [("_id"%string, VStr "B")].

Definition example_operations : list AnyBulkWriteOperation :=
  [OpInsertOne doc_A; OpInsertOne doc_A; OpInsertOne doc_B].

Definition example_commands : list Command :=
  [CmdInsertOne doc_A; CmdInsertOne doc_A; CmdInsertOne doc_B].

Definition status_of_ids (ids : list jsval) : Status :=
  {| insertedIds := Some ids; matchedCount := None; modifiedCount := None;
     deletedCount := None; upsertedId := None; moreData := None |}.

Definition ids_of_documents (documents : list jsval) : list jsval :=
  omap (fun d => match d with VObj props => get_prop "_id" props | _ => None end)
       documents.

Definition duplicate_error (c : Command) : error :=
  DataAPIResponseError {| command := c; rawResponse := {| status := None |} |} [].

Definition example_service : Service :=
  fun k c =>
    match k with
    | 1 => Thrown (duplicate_error c)
    | _ =>
        match c with
        | CmdInsertOne document =>
            Returned {| status := Some (status_of_ids (ids_of_documents [document])) |}
        | CmdInsertMany documents _ =>
            Returned {| status := Some (status_of_ids (ids_of_documents documents)) |}
        | _ => Returned {| status := Some (status_of_ids []) |}
        end
    end.

(** A service whose first answer is a transport failure. *)
Definition failing_transport : Service :=
  fun k c =>
    match k with
    | 0 => Thrown (TransportError "503")
    | _ => Returned {| status := Some (status_of_ids []) |}
    end.



(** A service that answers an upserting command with an upserted id and any
    other command without one. *)
Definition upserting_service : Service :=
  fun k c =>
    Returned {| status :=
      Some {| insertedIds := None; matchedCount := None;
              modifiedCount := None; deletedCount := None;
              upsertedId := if is_upsert_command c then Some (VStr "x")
                            else None;
              moreData := None |} |}.

Definition upsert_operation : AnyBulkWriteOperation :=
  OpUpdateOne (VObj [("_id"%string, VStr "x")])
              (VObj [("$set"%string, VObj [("n"%string, VNum 1)])])
              (Some true).

(* ===================================================================== *)
(** * Partial effects, and more scenarios *)
(* ===================================================================== *)










(** An upsert of the document whose [_id] is 0, against a service that
    answers an upserting command with the id of the document it has
    inserted, here 0, and any other command without an upserted id. *)
Definition upsert_of_id_0 : AnyBulkWriteOperation :=
  OpUpdateOne (VObj [("_id"%string, VNum 0)])
              (VObj [("$set"%string, VObj [("n"%string, VNum 1)])])
              (Some true).

Definition id_0_service : Service :=
  fun k c =>
    Returned {| status :=
      Some {| insertedIds := None; matchedCount := Some 0%Z;
              modifiedCount := Some 0%Z; deletedCount := None;
              upsertedId := if is_upsert_command c then Some (VNum 0)
                            else None;
              moreData := None |} |}.


(* ===================================================================== *)
(** * [Collection.deleteMany] *)
(* ===================================================================== *)

Definition msg_empty_filter : string :=
  "Can't pass an empty filter to deleteMany, use deleteAll instead if you really want to delete everything".

(** [resp.status?.moreData], as a condition. *)
Definition status_moreData (resp : Response) : bool :=
  default false (status resp ≫= moreData).

(** [resp.status?.deletedCount ?? 0]. *)
Definition status_deletedCount (resp : Response) : Z :=
  default 0%Z (status resp ≫= deletedCount).

(** The [while (!resp || resp.status?.moreData)] loop with its [try]/[catch];
    it is entered with [resp] undefined, so its body runs at least once.
    The service may answer [moreData] for ever: [fuel] bounds the number of
    requests and [None] is a run that has not ended within it. *)
Fixpoint deleteMany_loop (fuel : nat) (srv : Service) (command : Command)
    (numDeleted : Z) (sent : list Command)
    : option (outcome Z * list Command) :=
  match fuel with
  | O => None
  | S fuel' =>
      match executeCommand srv command sent with
      | (Returned resp, sent') =>
          let numDeleted' := (numDeleted + status_deletedCount resp)%Z in
          if status_moreData resp then
            deleteMany_loop fuel' srv command numDeleted' sent'
          else Some (Returned numDeleted', sent')
      | (Thrown (DataAPIResponseError desc _), sent') =>
          Some (Thrown (DeleteManyError [command] [rawResponse desc]
                          (numDeleted + status_deletedCount (rawResponse desc))%Z),
                sent')
      | (Thrown e, sent') => Some (Thrown e, sent')
      end
  end.

(** The body of the [async] method [Collection.deleteMany(filter = {})]:
    how it ends, with the [deletedCount] of its result, and the commands it
    has sent. *)
Definition Collection_deleteMany (fuel : nat) (srv : Service) (filter : jsval)
    : option (outcome Z * list Command) :=
  let filter := match filter with VUndefined => VObj [] | _ => filter end in
  match Object_keys_length filter with
  | None => Some (Thrown TypeError, [])
  | Some O => Some (Thrown (Error msg_empty_filter), [])
  | Some (S _) => deleteMany_loop fuel srv (CmdDeleteMany filter) 0%Z []
  end.

(* ===================================================================== *)
(** * Calls of [async] methods *)
(* ===================================================================== *)

(** A settled promise. *)
Inductive promise (A : Type) : Type :=
| Fulfilled (value : A)
| RejectedWith (reason : error).

Arguments Fulfilled {A} value.
Arguments RejectedWith {A} reason.

(** How a call ends for its caller: it throws, synchronously, or it returns
    a value. *)
Inductive completion (A : Type) : Type :=
| ThrowsSynchronously (e : error)
| ReturnsValue (value : A).

Arguments ThrowsSynchronously {A} e.
Arguments ReturnsValue {A} value.

(** The call of an [async] function whose body ends as [body]: the call
    returns a promise, always; a [throw] in the body, also one before its
    first [await], rejects that promise with what is thrown, and a [return]
    fulfils it. *)
Definition async {A} (body : outcome A) : completion (promise A) :=
  ReturnsValue match body with
               | Returned a => Fulfilled a
               | Thrown e => RejectedWith e
               end.

(** The call [collection.deleteMany(filter)], [deleteMany] being declared
    [async deleteMany(filter = {})]: how the call ends for its caller, and
    the commands sent. *)
Definition Collection_deleteMany_call (fuel : nat) (srv : Service)
    (filter : jsval)
    : option (completion (promise Z) * list Command) :=
  match Collection_deleteMany fuel srv filter with
  | Some (body, sent) => Some (async body, sent)
  | None => None
  end.

(* ===================================================================== *)
(** * The find cursor *)
(* ===================================================================== *)

Module Cursor.

(** Modelled from the spec: the three states of a cursor. *)
Inductive CursorState : Type := UNINITIALIZED | INITIALIZED | CLOSED.

Definition CursorState_eqb (a b : CursorState) : bool :=
  match a, b with
  | UNINITIALIZED, UNINITIALIZED | INITIALIZED, INITIALIZED
  | CLOSED, CLOSED => true
  | _, _ => false
  end.

(** Modelled from the spec: the query options of a cursor; [limit = 0] means
    unbounded. *)
Record FindOptions : Type := {
  limit : nat;
  skip : nat;
  sort : jsval;
  projection : jsval;
  includeSimilarity : bool
}.

(** Modelled from the spec: the cursor entity of the data model; the class
    [FindCursor] of [src/client/cursor] is not among the sources.  The page
    token is opaque to the cursor; here it is the number of the next page. *)
Record FindCursor : Type := {
  namespace : string;
  filter : jsval;
  options : FindOptions;
  state : CursorState;
  buffer : list jsval;
  pageState : option nat;
  consumed : nat;
  mapping : option (jsval -> jsval)
}.

(** Modelled from the spec: a cursor as its constructor leaves it. *)
Definition new_FindCursor (namespace : string) (filter : jsval)
    (options : FindOptions) : FindCursor :=
  {| namespace := namespace; filter := filter; options := options;
     state := UNINITIALIZED; buffer := []; pageState := None; consumed := 0;
     mapping := None |}.

(** Modelled from the spec: [close()] makes the cursor [CLOSED] and leaves
    whatever is buffered. *)
Definition close (c : FindCursor) : FindCursor :=
  {| namespace := namespace c; filter := filter c; options := options c;
     state := CLOSED; buffer := buffer c; pageState := pageState c;
     consumed := consumed c; mapping := mapping c |}.

(** Modelled from the spec: [rewind()] resets buffer, page state, consumed
    count and state, and keeps filter, options and mapping. *)
Definition rewind (c : FindCursor) : FindCursor :=
  {| namespace := namespace c; filter := filter c; options := options c;
     state := UNINITIALIZED; buffer := []; pageState := None; consumed := 0;
     mapping := mapping c |}.

(** Modelled from the spec: the [closed] flag and [bufferedCount()] that the
    tests of the cursor read. *)
Definition closed (c : FindCursor) : bool := CursorState_eqb (state c) CLOSED.

Definition bufferedCount (c : FindCursor) : nat := length (buffer c).

Section Service.

(** Modelled from the spec: the command executor for find-style commands.
    [find filter options] is the result of the query as the service pages
    it, the order being the service's; the command with page token [k]
    (absent: 0) is answered page [k] and, when a later page exists, the
    token [k + 1]. *)
Variable find : jsval -> FindOptions -> list (list jsval).

(** Modelled from the spec: the answer to the find-style command of the
    cursor, its documents and the continuation token. *)
Definition find_page (c : FindCursor) : list jsval * option nat :=
  let pages := find (filter c) (options c) in
  let k := default 0 (pageState c) in
  (nth k pages [], if S k <? length pages then Some (S k) else None).

(** Modelled from the spec: [fetchNextPage].  The buffer is replaced by the
    documents of the page and the new token is stored; when the limit is set
    and [consumed + len(buffer)] exceeds it, the buffer is truncated and no
    further page is requested. *)
Definition fetchNextPage (c : FindCursor) : FindCursor :=
  let '(documents, next) := find_page c in
  let lim := limit (options c) in
  if (0 <? lim) && (lim <? consumed c + length documents) then
    {| namespace := namespace c; filter := filter c; options := options c;
       state := INITIALIZED; buffer := take (lim - consumed c) documents;
       pageState := None; consumed := consumed c; mapping := mapping c |}
  else
    {| namespace := namespace c; filter := filter c; options := options c;
       state := INITIALIZED; buffer := documents;
       pageState := next; consumed := consumed c; mapping := mapping c |}.

(** Modelled from the spec: whether a page remains to be requested: none
    has been requested yet, or the last one came with a token. *)
Definition more_pages (c : FindCursor) : bool :=
  match state c with
  | UNINITIALIZED => true
  | INITIALIZED => match pageState c with Some _ => true | None => false end
  | CLOSED => false
  end.

(** Modelled from the spec: [hasNext()]: [true] if the buffer is not empty,
    else one fetch and the same test again; [false] once closed. *)
Definition hasNext (c : FindCursor) : bool * FindCursor :=
  match state c with
  | CLOSED => (false, c)
  | _ =>
      match buffer c with
      | _ :: _ => (true, c)
      | [] =>
          if more_pages c then
            let c' := fetchNextPage c in
            (match buffer c' with [] => false | _ :: _ => true end, c')
          else (false, c)
      end
  end.

(** Modelled from the spec: the fetches of [next()]: pages are fetched until
    a document is buffered or no page remains; a page may be empty, [fuel]
    bounds the number of fetches. *)
Fixpoint fill (fuel : nat) (c : FindCursor) : option FindCursor :=
  match buffer c with
  | _ :: _ => Some c
  | [] =>
      if more_pages c then
        match fuel with
        | O => None
        | S fuel' => fill fuel' (fetchNextPage c)
        end
      else Some c
  end.

(** Modelled from the spec: the mapping, applied when a document is
    consumed. *)
Definition apply_mapping (c : FindCursor) (doc : jsval) : jsval :=
  match mapping c with
  | Some f => f doc
  | None => doc
  end.

(** Modelled from the spec: [next()] pops one buffered raw document, applies
    the mapping and increments [consumed]; it returns [null] ([None]) and
    closes the cursor when no document is available and no page remains; a
    closed cursor returns [null] without contacting the service. *)
Definition next (fuel : nat) (c : FindCursor)
    : option (option jsval * FindCursor) :=
  match state c with
  | CLOSED => Some (None, c)
  | _ =>
      match fill fuel c with
      | None => None
      | Some c' =>
          match buffer c' with
          | [] => Some (None, close c')
          | doc :: rest =>
              Some (Some (apply_mapping c' doc),
                    {| namespace := namespace c'; filter := filter c';
                       options := options c'; state := state c';
                       buffer := rest; pageState := pageState c';
                       consumed := S (consumed c'); mapping := mapping c' |})
          end
      end
  end.

(** Modelled from the spec: [toArray()] collects the documents [next()]
    yields until it yields [null], and closes the cursor on completion.
    [fuel] bounds the number of calls of [next] and the fetches of each. *)
Fixpoint toArray_loop (n fuel : nat) (c : FindCursor) (acc : list jsval)
    : option (list jsval * FindCursor) :=
  match n with
  | O => None
  | S n' =>
      match next fuel c with
      | None => None
      | Some (None, c') => Some (acc, close c')
      | Some (Some doc, c') => toArray_loop n' fuel c' (acc ++ [doc])
      end
  end.

Definition toArray (fuel : nat) (c : FindCursor)
    : option (list jsval * FindCursor) :=
  toArray_loop fuel fuel c [].

(** The documents of the query in the order the service returns them, cut
    at the limit when one is set, and mapped: what a full traversal of the
    cursor is to yield. *)
Definition full_result (c : FindCursor) : list jsval :=
  let all := concat (find (filter c) (options c)) in
  let lim := limit (options c) in
  map (apply_mapping c) (if 0 <? lim then take lim all else all).

(** Enough fuel for a traversal from the start. *)
Definition enough_fuel (c : FindCursor) : nat :=
  length (find (filter c) (options c))
  + length (concat (find (filter c) (options c))) + 2.

(** The raw documents a full traversal is to yield. *)
Definition traversal (c : FindCursor) : list jsval :=
  let all := concat (find (filter c) (options c)) in
  let lim := limit (options c) in
  if 0 <? lim then take lim all else all.

(** The pages the service has yet to return to the cursor. *)
Definition upstream (c : FindCursor) : list (list jsval) :=
  match state c with
  | UNINITIALIZED => find (filter c) (options c)
  | _ =>
      match pageState c with
      | Some k => drop k (find (filter c) (options c))
      | None => []
      end
  end.

(** A cursor in the course of a traversal that has yielded the raw
    documents [yielded]: while pages remain, what has been yielded, what is
    buffered and what is upstream make up the result of the query, within the
    limit; once no page remains, what has been yielded and what is buffered
    make up the traversal. *)
Definition traversing (c : FindCursor) (yielded : list jsval) : Prop :=
  state c <> CLOSED
  /\ consumed c = length yielded
  /\ length yielded + length (buffer c) <= length (traversal c)
  /\ (state c = UNINITIALIZED ->
      pageState c = None /\ buffer c = [] /\ yielded = [])
  /\ (state c = INITIALIZED -> forall k, pageState c = Some k ->
        k < length (find (filter c) (options c)))
  /\ (more_pages c = true ->
      yielded ++ buffer c ++ concat (upstream c)
      = concat (find (filter c) (options c))
      /\ (0 < limit (options c) ->
          consumed c + length (buffer c) <= limit (options c)))
  /\ (more_pages c = false -> yielded ++ buffer c = traversal c).

(** The number of fetches that may still be needed to exhaust the pages. *)
Definition pages_left (c : FindCursor) : nat :=
  if more_pages c then S (length (upstream c)) else 0.

(** Two cursors of the same query with the same mapping. *)
Definition same_query (c c' : FindCursor) : Prop :=
  namespace c' = namespace c /\ filter c' = filter c
  /\ options c' = options c /\ mapping c' = mapping c.

End Service.

End Cursor.

(** A query whose result the service returns in three pages, the second
    being empty, and a cursor over it. *)
Definition example_find_options : Cursor.FindOptions :=
  {| Cursor.limit := 0; Cursor.skip := 0; Cursor.sort := VUndefined;
     Cursor.projection := VUndefined; Cursor.includeSimilarity := false |}.

Definition example_find (f : jsval) (o : Cursor.FindOptions)
    : list (list jsval) :=
  [[VObj [("_id"%string, VStr "0")]; VObj [("_id"%string, VStr "1")]];
   [];
   [VObj [("_id"%string, VStr "2")]]].

Definition example_cursor : Cursor.FindCursor :=
  Cursor.new_FindCursor "test_keyspace" (VObj []) example_find_options.

(* ===================================================================== *)
(** * The projection of [distinct]: [takeWhile], [split] and [join] *)
(* ===================================================================== *)

(** [takeWhile(arr, pred)] of [data-api/utils]: the loop pushes [arr[i]]
    while [i < n && pred(arr[i])]. *)
Fixpoint takeWhile {T} (arr : list T) (pred : T -> bool) : list T :=
  match arr with
  | [] => []
  | x :: rest => if pred x then x :: takeWhile rest pred else []
  end.

(** [segments.join('.')] on an array of strings; the empty array joins to
    the empty string. *)
Fixpoint join_dot (segments : list string) : string :=
  match segments with
  | [] => EmptyString
  | [s] => s
  | s :: rest => String.append s (String "."%char (join_dot rest))
  end.

(** Whether a string contains a dot. *)
Fixpoint contains_dot (s : string) : bool :=
  match s with
  | EmptyString => false
  | String c rest => Ascii.eqb c "."%char || contains_dot rest
  end.

Section Projection.

(** The global [isNaN] applied to a string: whether [Number(s)] is [NaN]. *)
Variable isNaN : string -> bool.

(** [pullSafeProjection4Distinct]. *)
Definition pullSafeProjection4Distinct (path : string) : string :=
  join_dot (takeWhile (split_dot path) isNaN).

End Projection.

(** [x] occurs in [v]: it is [v] itself, or it occurs in an element of the
    array [v] or in the value of a property of the object [v]. *)
Inductive occurs_in (x : jsval) : jsval -> Prop :=
| occurs_here : occurs_in x x
| occurs_in_element elems y :
    In y elems -> occurs_in x y -> occurs_in x (VArr elems)
| occurs_in_property props key y :
    In (key, y) props -> occurs_in x y -> occurs_in x (VObj props).

(* ===================================================================== *)
(** * More of the collection: upserted ids, [deleteAll] *)
(* ===================================================================== *)

(** An object whose first key is none of the six operation names. *)
Definition is_OpOther (op : AnyBulkWriteOperation) : bool :=
  match op with OpOther _ => true | _ => false end.

(** The upserted id that the answer to request [k] carries, when it passes
    the test [if (resp.upsertedId)]. *)
Definition reported_upsert (srv : Service) (operations : list Command)
    (k : nat) : option jsval :=
  match answered_status srv operations k with
  | Some st =>
      match upsertedId st with
      | Some id => if truthy id then Some id else None
      | None => None
      end
  | None => None
  end.

(** What the answer to the [k]-th request, for the command [c], adds to the
    number of deleted documents: [resp.status?.deletedCount ?? 0]. *)
Definition deleted_of (srv : Service) (c : Command) (k : nat) : Z :=
  match srv k c with
  | Returned resp => status_deletedCount resp
  | Thrown _ => 0%Z
  end.

(** [Collection.deleteAll()]: one [deleteMany] command with the empty
    filter; the response is not read. *)
Definition Collection_deleteAll (srv : Service)
    : outcome unit * list Command :=
  match executeCommand srv (CmdDeleteMany (VObj [])) [] with
  | (Returned _, sent) => (Returned tt, sent)
  | (Thrown e, sent) => (Thrown e, sent)
  end.

(* ===================================================================== *)
(** * [Collection.countDocuments] *)
(* ===================================================================== *)

(** The [countDocuments] command and the [status] of its answer. *)
Inductive CountCommand : Type :=
| CmdCountDocuments (filter : jsval).

Record CountStatus : Type := {
  count : option Z;
  count_moreData : option bool
}.

Record CountResponse : Type := {
  count_status : option CountStatus
}.

(** How [countDocuments] ends.  [TooManyDocsToCountError] is declared in
    [src/client/errors], which is not among the sources: its value is
    represented by the two arguments of the [new] expression that builds
    it.  [CountFailed] is an error of the kinds above: the [Error] of the
    missing limit, or whatever the executor throws. *)
Inductive count_outcome : Type :=
| CountReturned (n : option Z)
| TooManyDocsToCountError (limit : option Z) (hitServerLimit : bool)
| CountFailed (e : error).

Definition msg_limit_required : string := "options.limit is required".

(** [resp.status?.count], [undefined] being [None]. *)
Definition status_count (resp : CountResponse) : option Z :=
  count_status resp ≫= count.

(** [resp.status?.count > upperBound]: false when there is no count. *)
Definition count_exceeds (resp : CountResponse) (upperBound : Z) : bool :=
  match status_count resp with
  | Some n => (upperBound <? n)%Z
  | None => false
  end.

(** [Collection.countDocuments(filter, upperBound)]; an [upperBound] that is
    not passed is [None], and [!upperBound] holds of it and of 0.  The
    result comes with the commands sent. *)
Definition Collection_countDocuments
    (srv : CountCommand -> outcome CountResponse)
    (filter : jsval) (upperBound : option Z)
    : count_outcome * list CountCommand :=
  let command := CmdCountDocuments filter in
  match upperBound with
  | None | Some 0%Z => (CountFailed (Error msg_limit_required), [])
  | Some bound =>
      match srv command with
      | Thrown e => (CountFailed e, [command])
      | Returned resp =>
          if count_exceeds resp bound then
            (TooManyDocsToCountError (Some bound) false, [command])
          else if default false (count_status resp ≫= count_moreData) then
            (TooManyDocsToCountError (status_count resp) true, [command])
          else (CountReturned (status_count resp), [command])
      end
  end.

(* ===================================================================== *)
(** * [Collection.updateMany] *)
(* ===================================================================== *)

(** The [updateMany] command: [{ filter, update, options: { upsert,
    pagingState } }]; [upsert] is [options?.upsert] and [pagingState] is
    absent until an answer has been read. *)
Record UpdateManyCommand : Type := {
  um_filter : jsval;
  um_update : jsval;
  um_upsert : option bool;
  um_pagingState : option string
}.

(** The [status] of the answer to an [updateMany] command. *)
Record UpdateStatus : Type := {
  us_matchedCount : option Z;
  us_modifiedCount : option Z;
  us_upsertedId : option jsval;
  us_nextPageState : option string
}.

Record UpdateResponse : Type := {
  update_status : option UpdateStatus
}.

(** [{ modifiedCount, matchedCount }], and [UpdateManyResult]:
    [commonResult], with [upsertedId] and [upsertedCount: 1] when the last
    answer carries an upserted id. *)
Record UpdateCounts : Type := {
  uc_modifiedCount : Z;
  uc_matchedCount : Z
}.

Record UpdateManyResult : Type := {
  umr_counts : UpdateCounts;
  umr_upsertedId : option jsval;
  umr_upsertedCount : option Z
}.

(** How [updateMany] ends.  [UpdateManyError] is declared in
    [src/client/errors], which is not among the sources: its value is
    represented by the arguments that [mkRespErrorFromResponse] is given
    (the command, the raw response and the partial result). *)
Inductive updateMany_outcome : Type :=
| UpdateManyReturned (result : UpdateManyResult)
| UpdateManyError (command : UpdateManyCommand) (raw : Response)
    (partialResult : UpdateCounts)
| UpdateManyFailed (e : error).

(** The service, seen from [updateMany]: what its [k]-th command is
    answered, when that command is [c]. *)
Definition UpdateService : Type := nat -> UpdateManyCommand -> outcome UpdateResponse.

(** [resp.status?.nextPageState], and the same as a condition: a string
    that is not empty. *)
Definition status_nextPageState (resp : UpdateResponse) : option string :=
  update_status resp ≫= us_nextPageState.

Definition has_nextPageState (resp : UpdateResponse) : bool :=
  match status_nextPageState resp with
  | Some s => negb (String.eqb s "")
  | None => false
  end.

(** [command.updateMany.options.pagingState = resp.status?.nextPageState]. *)
Definition set_pagingState (pagingState : option string)
    (c : UpdateManyCommand) : UpdateManyCommand :=
  {| um_filter := um_filter c; um_update := um_update c;
     um_upsert := um_upsert c; um_pagingState := pagingState |}.

(** [commonResult.modifiedCount += resp.status?.modifiedCount ?? 0] and the
    same for [matchedCount]. *)
Definition add_counts (counts : UpdateCounts) (modified matched : option Z)
    : UpdateCounts :=
  {| uc_modifiedCount := (uc_modifiedCount counts + default 0%Z modified)%Z;
     uc_matchedCount := (uc_matchedCount counts + default 0%Z matched)%Z |}.

Definition add_response_counts (counts : UpdateCounts) (resp : UpdateResponse)
    : UpdateCounts :=
  add_counts counts (update_status resp ≫= us_modifiedCount)
             (update_status resp ≫= us_matchedCount).

(** The [return] of [updateMany]: [resp.status?.upsertedId], when truthy,
    is reported with [upsertedCount: 1]. *)
Definition updateMany_result (counts : UpdateCounts) (resp : UpdateResponse)
    : UpdateManyResult :=
  match update_status resp ≫= us_upsertedId with
  | Some id =>
      if truthy id then
        {| umr_counts := counts; umr_upsertedId := Some id;
           umr_upsertedCount := Some 1%Z |}
      else
        {| umr_counts := counts; umr_upsertedId := None;
           umr_upsertedCount := None |}
  | None =>
      {| umr_counts := counts; umr_upsertedId := None;
         umr_upsertedCount := None |}
  end.

(** The [while (!resp || resp.status?.nextPageState)] loop with its
    [try]/[catch]; the body runs at least once.  [command] is the command
    object, whose [pagingState] each iteration overwrites; [sent] holds the
    commands as they were when they were sent.  The service may hand out
    page states for ever: [fuel] bounds the number of requests and [None]
    is a run that has not ended within it. *)
Fixpoint updateMany_loop (fuel : nat) (srv : UpdateService)
    (command : UpdateManyCommand) (commonResult : UpdateCounts)
    (sent : list UpdateManyCommand)
    : option (updateMany_outcome * list UpdateManyCommand) :=
  match fuel with
  | O => None
  | S fuel' =>
      match srv (length sent) command with
      | Returned resp =>
          let command' := set_pagingState (status_nextPageState resp) command in
          let commonResult' := add_response_counts commonResult resp in
          if has_nextPageState resp then
            updateMany_loop fuel' srv command' commonResult' (sent ++ [command])
          else
            Some (UpdateManyReturned (updateMany_result commonResult' resp),
                  sent ++ [command])
      | Thrown (DataAPIResponseError desc _) =>
          Some (UpdateManyError command (rawResponse desc)
                  (add_counts commonResult
                     (status (rawResponse desc) ≫= modifiedCount)
                     (status (rawResponse desc) ≫= matchedCount)),
                sent ++ [command])
      | Thrown e => Some (UpdateManyFailed e, sent ++ [command])
      end
  end.

Section UpdateMany.

(** [setDefaultIdForUpsert] of [./utils], which is not among the sources:
    it works on the command object before the first request. *)
Variable setDefaultIdForUpsert : UpdateManyCommand -> UpdateManyCommand.

(** [Collection.updateMany(filter, update, options)]; [upsert] is
    [options?.upsert]. *)
Definition Collection_updateMany (fuel : nat) (srv : UpdateService)
    (filter update : jsval) (upsert : option bool)
    : option (updateMany_outcome * list UpdateManyCommand) :=
  let command :=
    setDefaultIdForUpsert
      {| um_filter := filter; um_update := update; um_upsert := upsert;
         um_pagingState := None |} in
  updateMany_loop fuel srv command
    {| uc_modifiedCount := 0; uc_matchedCount := 0 |} [].

End UpdateMany.

(** The command of the [k]-th request of [updateMany], when the requests
    before it have been answered: the first command with the page state of
    the answer to the one before. *)
Fixpoint page_command (srv : UpdateService) (first : UpdateManyCommand)
    (k : nat) : UpdateManyCommand :=
  match k with
  | O => first
  | S k' =>
      match srv k' (page_command srv first k') with
      | Returned resp =>
          set_pagingState (status_nextPageState resp)
                          (page_command srv first k')
      | Thrown _ => page_command srv first k'
      end
  end.

(** What the answer to the [k]-th request adds to the two counts. *)
Definition page_modified (srv : UpdateService) (first : UpdateManyCommand)
    (k : nat) : Z :=
  match srv k (page_command srv first k) with
  | Returned resp => default 0%Z (update_status resp ≫= us_modifiedCount)
  | Thrown _ => 0%Z
  end.

Definition page_matched (srv : UpdateService) (first : UpdateManyCommand)
    (k : nat) : Z :=
  match srv k (page_command srv first k) with
  | Returned resp => default 0%Z (update_status resp ≫= us_matchedCount)
  | Thrown _ => 0%Z
  end.

(** The sums of what the answers to the requests [0 .. n - 1] report. *)
Definition page_totals (srv : UpdateService) (first : UpdateManyCommand)
    (n : nat) : UpdateCounts :=
  {| uc_modifiedCount := sumZ (page_modified srv first) (seq 0 n);
     uc_matchedCount := sumZ (page_matched srv first) (seq 0 n) |}.

(* ===================================================================== *)
(** * Identifiers: the [UUID] class *)
(* ===================================================================== *)

(** Strings are sequences of ASCII characters here; the identifiers that
    pass the validation are. *)

(** [[0-9a-fA-F]]. *)
Definition is_hex_digit (c : ascii) : bool :=
  let n := nat_of_ascii c in
  ((48 <=? n) && (n <=? 57)) || ((97 <=? n) && (n <=? 102))
  || ((65 <=? n) && (n <=? 70)).

(** [[0-9a-fA-F]{n}] at the start of [s]: what follows the [n] digits. *)
Fixpoint hex_digits (n : nat) (s : string) : option string :=
  match n with
  | O => Some s
  | S n' =>
      match s with
      | String c rest => if is_hex_digit c then hex_digits n' rest else None
      | EmptyString => None
      end
  end.

(** [-] at the start of [s]: what follows it. *)
Definition dash (s : string) : option string :=
  match s with
  | String c rest => if Ascii.eqb c "-"%char then Some rest else None
  | EmptyString => None
  end.

(** [uuidRegex.test(s)], for
    [^[0-9a-fA-F]{8}-[0-9a-fA-F]{4}-[0-9a-fA-F]{4}-[0-9a-fA-F]{4}-[0-9a-fA-F]{12}$]. *)
Definition uuidRegex_test (s : string) : bool :=
  match ((((((((hex_digits 8 s ≫= dash) ≫= hex_digits 4) ≫= dash)
              ≫= hex_digits 4) ≫= dash) ≫= hex_digits 4) ≫= dash)
          ≫= hex_digits 12) with
  | Some EmptyString => true
  | _ => false
  end.

(** [s.toLowerCase()]. *)
Definition lower (c : ascii) : ascii :=
  let n := nat_of_ascii c in
  if (65 <=? n) && (n <=? 90) then ascii_of_nat (n + 32) else c.

Fixpoint toLowerCase (s : string) : string :=
  match s with
  | EmptyString => EmptyString
  | String c rest => String (lower c) (toLowerCase rest)
  end.

(** The value of a hexadecimal digit. *)
Definition hex_value (c : ascii) : option Z :=
  let n := nat_of_ascii c in
  if (48 <=? n) && (n <=? 57) then Some (Z.of_nat (n - 48))
  else if (97 <=? n) && (n <=? 102) then Some (Z.of_nat (n - 87))
  else if (65 <=? n) && (n <=? 70) then Some (Z.of_nat (n - 55))
  else None.

(** [parseInt(s[14], 16)]: [s[14]] is one character, whose value is its
    value as a hexadecimal digit, or [undefined]; [None] is [NaN]. *)
Definition version_of (s : string) : option Z :=
  match String.get 14 s with
  | Some c => hex_value c
  | None => None
  end.

(** An instance of [UUID]: its two fields. *)
Record UUID : Type := {
  _uuid : string;
  version : option Z
}.

Definition msg_uuid_not_a_string : string := "UUID must be a string".
Definition msg_uuid_not_hex : string := "UUID must be a 36-character hex string".

(** [new UUID(uuid, validate)]; [validate] is optional and the checks run
    unless it is [false].  Without them a value that is not a string makes
    [uuid.toLowerCase()] throw a [TypeError]. *)
Definition new_UUID (uuid : jsval) (validate : option bool) : outcome UUID :=
  let make (s : string) :=
    Returned {| _uuid := toLowerCase s; version := version_of (toLowerCase s) |} in
  match validate with
  | Some false =>
      match uuid with
      | VStr s => make s
      | _ => Thrown TypeError
      end
  | _ =>
      match uuid with
      | VStr s =>
          if negb (String.length s =? 36) || negb (uuidRegex_test s)
          then Thrown (Error msg_uuid_not_hex)
          else make s
      | _ => Thrown (Error msg_uuid_not_a_string)
      end
  end.

(** What [equals] can be given: an instance of [UUID], or any other
    value. *)
Inductive uuid_other : Type :=
| OtherUUID (other : UUID)
| OtherValue (other : jsval).

(** [UUID.equals(other)]. *)
Definition UUID_equals (this : UUID) (other : uuid_other) : bool :=
  match other with
  | OtherValue (VStr s) => String.eqb (_uuid this) s
  | OtherUUID o => String.eqb (_uuid this) (_uuid o)
  | OtherValue _ => false
  end.

(** [UUID.toString()]. *)
Definition UUID_toString (this : UUID) : string := _uuid this.

(** An [updateMany] over two pages: a service that answers the first
    request with the page state ["p1"] and every other one without a page
    state, 20 documents matched and modified each time; and a service whose
    second answer is an operational failure that reports 5 more. *)
Definition update_page (next : option string) : UpdateResponse :=
  {| update_status :=
       Some {| us_matchedCount := Some 20%Z; us_modifiedCount := Some 20%Z;
               us_upsertedId := None; us_nextPageState := next |} |}.

Definition two_page_service : UpdateService :=
  fun k _ => Returned (update_page (if k =? 0 then Some "p1"%string else None)).

Definition update_failure : error :=
  DataAPIResponseError
    {| command := CmdUpdateMany (VObj []) (VObj []) false;
       rawResponse :=
         {| status :=
              Some {| insertedIds := None; matchedCount := Some 5%Z;
                      modifiedCount := Some 5%Z; deletedCount := None;
                      upsertedId := None; moreData := None |} |} |} [].

Definition failing_second_page : UpdateService :=
  fun k _ =>
    if k =? 0 then Returned (update_page (Some "p1"%string))
    else Thrown update_failure.

Definition example_update_command (pagingState : option string)
    : UpdateManyCommand :=
  {| um_filter := VObj [("age"%string, VNum 3)];
     um_update := VObj [("$set"%string, VObj [("age"%string, VNum 4)])];
     um_upsert := None; um_pagingState := pagingState |}.

(* ===================================================================== *)
(** * Properties of the path extractor and of [distinct] *)
(* ===================================================================== *)

(** Induction on values, with the hypothesis for every element of an array
    and every property of an object. *)
Lemma jsval_nested_ind (P : jsval -> Prop) :
  P VUndefined -> P VNull -> (forall b, P (VBool b)) ->
  (forall n, P (VNum n)) -> (forall s, P (VStr s)) ->
  (forall elems, Forall P elems -> P (VArr elems)) ->
  (forall props, Forall (fun kv => P (snd kv)) props -> P (VObj props)) ->
  (forall b, P (VBuiltin b)) ->
  forall v, P v.
Proof.
  intros Hu Hn Hb Hz Hs Ha Ho Hf.
  fix IH 1. intros [ | | b | n | s | elems | props | b].
  - exact Hu.
  - exact Hn.
  - apply Hb.
  - apply Hz.
  - apply Hs.
  - apply Ha. induction elems as [|x l IHl]; constructor; [apply IH | exact IHl].
  - apply Ho. induction props as [|[k x] l IHl]; constructor;
      [apply IH | exact IHl].
  - apply Hf.
Qed.

Lemma extract_falsy path index value values :
  truthy value = false -> extract path index value values = values.
Proof. intros H. destruct value; simpl in *; rewrite ?H; try reflexivity; discriminate. Qed.

Lemma extract_each path index elems values :
  (fix each (l : list jsval) (values : list jsval) : list jsval :=
     match l with
     | [] => values
     | x :: rest => each rest (extract path index x values)
     end) elems values
  = foldl (fun values x => extract path index x values) values elems.
Proof. revert values. induction elems as [|x l IH]; intros; simpl; [reflexivity | apply IH]. Qed.

Lemma extract_at_index path index elems values k :
  (fix at_index (l : list jsval) (k : nat) : list jsval :=
     match l, k with
     | [], _ => values
     | x :: _, O => extract path (index + 1) x values
     | _ :: rest, S k' => at_index rest k'
     end) elems k
  = match elems !! k with
    | Some x => extract path (index + 1) x values
    | None => values
    end.
Proof.
  revert k. induction elems as [|x l IH]; intros [|k]; simpl; try reflexivity.
  apply IH.
Qed.

Lemma extract_get path index prop props values :
  (fix get (l : list (string * jsval)) : list jsval :=
     match l with
     | [] =>
         match inherited prop with
         | Some b => extract_builtin path (index + 1) b values
         | None => values
         end
     | (key, x) :: rest =>
         if String.eqb key prop then extract path (index + 1) x values
         else get rest
     end) props
  = match get_prop prop props with
    | Some x => extract path (index + 1) x values
    | None =>
        match inherited prop with
        | Some b => extract_builtin path (index + 1) b values
        | None => values
        end
    end.
Proof.
  induction props as [|[k x] l IH]; simpl; [reflexivity|].
  destruct (String.eqb k prop); [reflexivity | apply IH].
Qed.

(** The equations of [extract], case by case. *)
Lemma extract_terminal path value values :
  truthy value = true ->
  extract path (length path) value values
  = match value with
    | VArr elems => values ++ elems
    | _ => values ++ [value]
    end.
Proof.
  intros H. destruct value; simpl in *; rewrite ?H, ?Nat.eqb_refl; simpl;
    try reflexivity; discriminate.
Qed.

Lemma extract_array path index elems values :
  index <> length path ->
  extract path index (VArr elems) values
  = match parseInt (nth index path "undefined"%string) with
    | None => foldl (fun values x => extract path index x values) values elems
    | Some asInt =>
        if (asInt <? Z.of_nat (length elems))%Z then
          match asInt with
          | Zneg _ => values
          | _ => match elems !! Z.to_nat asInt with
                 | Some x => extract path (index + 1) x values
                 | None => values
                 end
          end
        else values
    end.
Proof.
  intros Hne. apply Nat.eqb_neq in Hne.
  cbn [extract truthy negb]. rewrite Hne.
  destruct (parseInt _) as [asInt|].
  - destruct (asInt <? _)%Z; [|reflexivity].
    destruct asInt; try reflexivity; apply extract_at_index.
  - apply extract_each.
Qed.

Lemma extract_object path index props values :
  index <> length path ->
  extract path index (VObj props) values
  = match get_prop (nth index path "undefined"%string) props with
    | Some x => extract path (index + 1) x values
    | None =>
        match inherited (nth index path "undefined"%string) with
        | Some b => extract_builtin path (index + 1) b values
        | None => values
        end
    end.
Proof.
  intros Hne. apply Nat.eqb_neq in Hne.
  cbn [extract truthy negb]. rewrite Hne. apply extract_get.
Qed.

Lemma extract_scalar path index value values :
  index <> length path ->
  match value with VArr _ | VObj _ | VBuiltin _ => False | _ => True end ->
  extract path index value values = values.
Proof.
  intros Hne Hty. apply Nat.eqb_neq in Hne.
  destruct value; try contradiction; cbn [extract];
    destruct (negb _); try reflexivity; rewrite Hne; reflexivity.
Qed.

(** The walk on [Object.prototype] and its functions. *)
Lemma extract_VBuiltin path index b values :
  extract path index (VBuiltin b) values
  = extract_builtin path index b values.
Proof.
  cbn [extract truthy negb]. unfold extract_builtin.
  destruct (index =? length path); reflexivity.
Qed.

Lemma extract_builtin_app path index b values :
  extract_builtin path index b values
  = values ++ extract_builtin path index b [].
Proof.
  unfold extract_builtin.
  destruct (index =? length path); [reflexivity|].
  destruct b as [|name]; [|symmetry; apply app_nil_r].
  destruct (prototype_member _); [|symmetry; apply app_nil_r].
  destruct (index + 1 =? length path);
    [reflexivity | symmetry; apply app_nil_r].
Qed.

Lemma extract_builtin_values path index b x :
  In x (extract_builtin path index b []) -> exists b', x = VBuiltin b'.
Proof.
  unfold extract_builtin.
  destruct (index =? length path); [intros [<-|[]]; eexists; reflexivity|].
  destruct b as [|name]; [|intros []].
  destruct (prototype_member _) as [f|]; [|intros []].
  destruct (index + 1 =? length path); [|intros []].
  intros [<-|[]]. eexists. reflexivity.
Qed.

(** The fan-out loop, given that the walk only appends on each element. *)
Lemma foldl_extract_app path index elems :
  Forall (fun x => forall index values,
            extract path index x values = values ++ contribution path index x)
         elems ->
  forall values,
    foldl (fun values x => extract path index x values) values elems
    = values ++ flat_map (contribution path index) elems.
Proof.
  induction 1 as [|x l Hx _ IHl]; intros values; simpl.
  - symmetry; apply app_nil_r.
  - rewrite IHl, Hx, <- app_assoc. reflexivity.
Qed.

(** The walk only appends to [values]. *)
Lemma extract_app path index value values :
  extract path index value values = values ++ contribution path index value.
Proof.
  revert index values.
  induction value as [ | | b | n | s | elems IH | props IH | b]
    using jsval_nested_ind;
    intros index values; unfold contribution.
  8: { rewrite !extract_VBuiltin. apply extract_builtin_app. }
  1-5: destruct (Nat.eq_dec index (length path)) as [->|Hne];
    [ match goal with
      | |- extract _ _ ?v _ = _ =>
          destruct (truthy v) eqn:Ht;
          [ rewrite !extract_terminal by exact Ht; reflexivity
          | rewrite !extract_falsy by exact Ht; symmetry; apply app_nil_r ]
      end
    | rewrite !extract_scalar by (assumption || exact I);
      symmetry; apply app_nil_r ].
  - destruct (Nat.eq_dec index (length path)) as [->|Hne].
    + rewrite !extract_terminal by reflexivity. reflexivity.
    + rewrite !extract_array by exact Hne.
      destruct (parseInt _) as [asInt|].
      * destruct (asInt <? _)%Z; [|symmetry; apply app_nil_r].
        destruct asInt as [|p|p]; try (symmetry; apply app_nil_r).
        -- destruct (elems !! Z.to_nat 0) as [x|] eqn:Hx;
             [|symmetry; apply app_nil_r].
           apply list_elem_of_lookup_2 in Hx.
           rewrite Forall_forall in IH. apply IH. exact Hx.
        -- destruct (elems !! Z.to_nat (Z.pos p)) as [x|] eqn:Hx;
             [|symmetry; apply app_nil_r].
           apply list_elem_of_lookup_2 in Hx.
           rewrite Forall_forall in IH. apply IH. exact Hx.
      * rewrite !foldl_extract_app by exact IH. reflexivity.
  - destruct (Nat.eq_dec index (length path)) as [->|Hne].
    + rewrite !extract_terminal by reflexivity. reflexivity.
    + rewrite !extract_object by exact Hne.
      destruct (get_prop _ props) as [x|] eqn:Hx;
        [|destruct (inherited _);
          [apply extract_builtin_app | symmetry; apply app_nil_r]].
      assert (Hin : exists k, (k, x) ∈ props).
      { clear -Hx. induction props as [|[k y] l IHl]; simpl in Hx; [discriminate|].
        destruct (String.eqb k _).
        - injection Hx as ->. exists k. left.
        - destruct (IHl Hx) as [k' Hk']. exists k'. right. exact Hk'. }
      destruct Hin as [k Hk]. rewrite Forall_forall in IH.
      apply (IH (k, x) Hk).
Qed.

(** Successive calls of one extractor return ever longer arrays. *)
Lemma call_extractor_on_spec path values docs :
  call_extractor_on {| ex_path := path; ex_values := values |} docs
  = map (fun k => values ++ flat_map (extracted_from path) (take (S k) docs))
        (seq 0 (length docs)).
Proof.
  revert values. induction docs as [|doc rest IH]; intros values; [reflexivity|].
  cbn [call_extractor_on call_extractor ex_path ex_values length seq map].
  rewrite IH. f_equal.
  - simpl. rewrite app_nil_r. apply extract_app.
  - rewrite <- seq_shift, map_map. apply map_ext. intros k.
    rewrite extract_app. cbn [take flat_map]. rewrite <- app_assoc. reflexivity.
Qed.

Section DistinctFacts.

Variable objectHash : jsval -> string.

Lemma SameValueZero_seen_key v :
  SameValueZero (seen_key objectHash v) (seen_key objectHash v) = true.
Proof.
  unfold seen_key. destruct v as [ | | b | n | s | elems | props | [|name]];
    simpl; auto using String.eqb_refl, Z.eqb_refl, Bool.eqb_reflx.
Qed.

Lemma seen_has_app seen more k :
  seen_has (seen ++ more) k = seen_has seen k || seen_has more k.
Proof. unfold seen_has. apply existsb_app. Qed.

Lemma collect_values_app l1 l2 seen ret :
  collect_values objectHash (l1 ++ l2) seen ret
  = let '(seen', ret') := collect_values objectHash l1 seen ret in
    collect_values objectHash l2 seen' ret'.
Proof.
  revert seen ret. induction l1 as [|v l IH]; intros seen ret; simpl;
    [reflexivity|].
  destruct (seen_has seen _); apply IH.
Qed.

(** Values whose key has been seen leave [seen] and [ret] as they are. *)
Lemma collect_values_seen l seen ret :
  (forall v, In v l -> seen_has seen (seen_key objectHash v) = true) ->
  collect_values objectHash l seen ret = (seen, ret).
Proof.
  induction l as [|v l IH]; intros H; simpl; [reflexivity|].
  rewrite (H v) by (left; reflexivity). apply IH. intros w Hw. apply H.
  right; exact Hw.
Qed.

(** After the loop every value of the array has its key in [seen], and
    [seen] has only grown. *)
Lemma collect_values_covers l seen ret seen' ret' :
  collect_values objectHash l seen ret = (seen', ret') ->
  (forall v, In v l -> seen_has seen' (seen_key objectHash v) = true)
  /\ (forall k, seen_has seen k = true -> seen_has seen' k = true).
Proof.
  revert seen ret. induction l as [|v l IH]; intros seen ret H; simpl in H.
  - injection H as <- <-. split; [intros v []| auto].
  - destruct (seen_has seen (seen_key objectHash v)) eqn:Hv.
    + destruct (IH _ _ H) as [H1 H2]. split; [|exact H2].
      intros w [<-|Hw]; [apply H2; exact Hv | apply H1; exact Hw].
    + destruct (IH _ _ H) as [H1 H2].
      assert (Hgrow : forall k, seen_has seen k = true ->
                seen_has (seen ++ [seen_key objectHash v]) k = true).
      { intros k Hk. rewrite seen_has_app, Hk. reflexivity. }
      split.
      * intros w [<-|Hw]; [|apply H1; exact Hw].
        apply H2. rewrite seen_has_app. unfold seen_has at 2. simpl.
        rewrite SameValueZero_seen_key. apply orb_true_iff. right. reflexivity.
      * intros k Hk. apply H2, Hgrow, Hk.
Qed.

(** Every value returned comes from [ret] or from the array. *)
Lemma collect_values_ret l seen ret seen' ret' :
  collect_values objectHash l seen ret = (seen', ret') ->
  forall x, In x ret' -> In x ret \/ In x l.
Proof.
  revert seen ret. induction l as [|v l IH]; intros seen ret H x Hx; simpl in H.
  - injection H as <- <-. left; exact Hx.
  - destruct (seen_has seen _).
    + destruct (IH _ _ H x Hx); [left | right; right]; assumption.
    + destruct (IH _ _ H x Hx) as [Hr|Hl]; [|right; right; exact Hl].
      apply in_app_or in Hr as [Hr|[<-|[]]]; [left; exact Hr | right; left; reflexivity].
Qed.

(** The loop of [distinct] with the shared array does what the loop over the
    contributions of the single documents does, as long as every value that
    is already in the array has been seen. *)
Lemma distinct_loop_per_document_eq path docs values seen ret :
  (forall v, In v values -> seen_has seen (seen_key objectHash v) = true) ->
  distinct_loop objectHash {| ex_path := path; ex_values := values |} docs seen ret
  = distinct_loop_per_document objectHash path docs seen ret.
Proof.
  revert values seen ret.
  induction docs as [|doc rest IH]; intros values seen ret Hseen; [reflexivity|].
  cbn [distinct_loop distinct_loop_per_document call_extractor ex_path ex_values].
  rewrite extract_app, collect_values_app.
  rewrite (collect_values_seen values seen ret Hseen).
  change (extracted_from path doc) with (contribution (split_dot path) 0 doc).
  destruct (collect_values objectHash (contribution (split_dot path) 0 doc)
              seen ret) as [seen' ret'] eqn:Hc.
  apply IH. intros v Hv. destruct (collect_values_covers _ _ _ _ _ Hc) as [H1 H2].
  apply in_app_or in Hv as [Hv|Hv]; [apply H2, Hseen, Hv | apply H1, Hv].
Qed.

Lemma distinct_loop_per_document_ret path docs seen ret x :
  In x (distinct_loop_per_document objectHash path docs seen ret) ->
  In x ret \/ exists doc, In doc docs /\ In x (extracted_from path doc).
Proof.
  revert seen ret. induction docs as [|doc rest IH]; intros seen ret Hx; simpl in Hx.
  - left; exact Hx.
  - destruct (collect_values objectHash (extracted_from path doc) seen ret)
      as [seen' ret'] eqn:Hc.
    destruct (IH _ _ Hx) as [Hr|(d & Hd & Hxd)].
    + destruct (collect_values_ret _ _ _ _ _ Hc x Hr) as [H|H];
        [left; exact H | right; exists doc; split; [left; reflexivity | exact H]].
    + right. exists d. split; [right; exact Hd | exact Hxd].
Qed.

End DistinctFacts.

(** A value that the walk emits is truthy or an element of an array of the
    document. *)
Lemma contribution_truthy_or_element path index value x :
  In x (contribution path index value) ->
  truthy x = true \/ element_of_array_in x value.
Proof.
  revert index.
  induction value as [ | | b | n | s | elems IH | props IH | b]
    using jsval_nested_ind;
    intros index; unfold contribution.
  8: { rewrite extract_VBuiltin. intros Hx.
       apply extract_builtin_values in Hx as [b' ->]. left. reflexivity. }
  1-5: destruct (Nat.eq_dec index (length path)) as [->|Hne];
    [ match goal with
      | |- In _ (extract _ _ ?v _) -> _ =>
          destruct (truthy v) eqn:Ht;
          [ rewrite extract_terminal by exact Ht; intros [<-|[]]; left; exact Ht
          | rewrite extract_falsy by exact Ht; intros [] ]
      end
    | rewrite extract_scalar by (assumption || exact I); intros [] ].
  - destruct (Nat.eq_dec index (length path)) as [->|Hne].
    + rewrite extract_terminal by reflexivity. intros Hx. right.
      apply element_here. exact Hx.
    + rewrite extract_array by exact Hne. rewrite Forall_forall in IH.
      destruct (parseInt _) as [asInt|].
      * destruct (asInt <? _)%Z; [|intros []].
        destruct asInt as [|p|p]; try (intros []).
        -- destruct (elems !! Z.to_nat 0) as [y|] eqn:Hy; [|intros []].
           apply list_elem_of_lookup_2 in Hy. intros Hx.
           destruct (IH y Hy _ Hx) as [H|H]; [left; exact H|].
           right. apply element_in_element with y; [apply list_elem_of_In, Hy | exact H].
        -- destruct (elems !! Z.to_nat (Z.pos p)) as [y|] eqn:Hy; [|intros []].
           apply list_elem_of_lookup_2 in Hy. intros Hx.
           destruct (IH y Hy _ Hx) as [H|H]; [left; exact H|].
           right. apply element_in_element with y; [apply list_elem_of_In, Hy | exact H].
      * rewrite foldl_extract_app
          by (apply Forall_forall; intros; apply extract_app).
        simpl. intros Hx. apply in_flat_map in Hx as (y & Hy & Hxy).
        destruct (IH y (proj2 (list_elem_of_In _ _) Hy) _ Hxy) as [H|H];
          [left; exact H|].
        right. apply element_in_element with y; assumption.
  - destruct (Nat.eq_dec index (length path)) as [->|Hne].
    + rewrite extract_terminal by reflexivity. intros [<-|[]]. left; reflexivity.
    + rewrite extract_object by exact Hne. rewrite Forall_forall in IH.
      destruct (get_prop _ props) as [y|] eqn:Hy;
        [|destruct (inherited _); [|intros []];
          intros Hx; apply extract_builtin_values in Hx as [b' ->];
          left; reflexivity].
      assert (Hin : exists k, In (k, y) props).
      { clear -Hy. induction props as [|[k z] l IHl]; simpl in Hy; [discriminate|].
        destruct (String.eqb k _).
        - injection Hy as ->. exists k. left. reflexivity.
        - destruct (IHl Hy) as [k' Hk']. exists k'. right. exact Hk'. }
      destruct Hin as [k Hk]. intros Hx.
      destruct (IH (k, y) (proj2 (list_elem_of_In _ _) Hk) _ Hx) as [H|H];
        [left; exact H|].
      right. apply element_in_property with k y; assumption.
Qed.

Lemma Collection_distinct_eq_per_document objectHash key docs :
  Collection_distinct objectHash key docs
  = Collection_distinct_per_document objectHash key docs.
Proof.
  unfold Collection_distinct, Collection_distinct_per_document.
  destruct (assertPathSafe4Distinct key); [reflexivity|].
  f_equal. apply distinct_loop_per_document_eq. intros v [].
Qed.

(** C6.  On an array, a path segment that [parseInt] reads as a non-negative
    integer selects the element at that index and the walk goes on with the
    next segment, an index past the end contributing nothing; a segment that
    [parseInt] does not read as a number is applied to every element of the
    array in turn, the contributions being concatenated in element order.
    At the end of the path an array contributes its elements (one level of
    flattening) and any other value that passes the guard contributes
    itself.  So [{items:[{tag:'a'},{tag:'b'}]}] yields ['a','b'] at
    [items.tag] and ['a'] at [items.0.tag]. *)
Theorem C6_path_extractor_index_and_fan_out :
  (forall path index prop asInt elems,
     path !! index = Some prop -> parseInt prop = Some asInt ->
     (0 <= asInt)%Z ->
     contribution path index (VArr elems)
     = match elems !! Z.to_nat asInt with
       | Some x => contribution path (index + 1) x
       | None => []
       end)
  /\ (forall path index prop elems,
        path !! index = Some prop -> parseInt prop = None ->
        contribution path index (VArr elems)
        = flat_map (contribution path index) elems)
  /\ (forall path elems, contribution path (length path) (VArr elems) = elems)
  /\ (forall path value,
        truthy value = true -> isArray value = false ->
        contribution path (length path) value = [value])
  /\ extracted_from "items.tag" doc_items = [VStr "a"; VStr "b"]
  /\ extracted_from "items.0.tag" doc_items = [VStr "a"].
Proof.
  repeat split.
  - intros path index prop asInt elems Hprop Hint Hpos.
    assert (Hne : index <> length path)
      by (apply lookup_lt_Some in Hprop; lia).
    unfold contribution. rewrite extract_array by exact Hne.
    rewrite nth_lookup, Hprop. simpl. rewrite Hint.
    destruct (asInt <? Z.of_nat (length elems))%Z eqn:Hlt.
    + destruct asInt; try reflexivity. lia.
    + apply Z.ltb_ge in Hlt.
      rewrite (lookup_ge_None_2 elems (Z.to_nat asInt)) by lia. reflexivity.
  - intros path index prop elems Hprop Hint.
    assert (Hne : index <> length path)
      by (apply lookup_lt_Some in Hprop; lia).
    unfold contribution at 1. rewrite extract_array by exact Hne.
    rewrite nth_lookup, Hprop. simpl. rewrite Hint.
    rewrite foldl_extract_app by (apply Forall_forall; intros; apply extract_app).
    reflexivity.
  - intros path elems. unfold contribution.
    rewrite extract_terminal by reflexivity. reflexivity.
  - intros path value Ht Harr. unfold contribution.
    rewrite extract_terminal by exact Ht.
    destruct value; try reflexivity; discriminate.
Qed.

Lemma C6_path_extractor_witness :
  contribution ["items"; "0"; "tag"]%string 1
    (VArr [VObj [("tag"%string, VStr "a")]; VObj [("tag"%string, VStr "b")]])
  = [VStr "a"]
  /\ contribution ["items"; "9"; "tag"]%string 1
       (VArr [VObj [("tag"%string, VStr "a")]]) = []
  /\ contribution ["items"; "tag"]%string 1
       (VArr [VObj [("tag"%string, VStr "a")]; VObj [("tag"%string, VStr "b")]])
     = [VStr "a"; VStr "b"]
  /\ contribution ["a"]%string 1 (VNum 7) = [VNum 7].
Proof.
  destruct C6_path_extractor_index_and_fan_out as (Hidx & Hfan & _ & Hterm & _).
  split; [|split; [|split]].
  - rewrite (Hidx _ 1 "0"%string 0%Z); [reflexivity | reflexivity | reflexivity | lia].
  - rewrite (Hidx _ 1 "9"%string 9%Z); [reflexivity | reflexivity | reflexivity | lia].
  - rewrite (Hfan _ 1 "tag"%string); reflexivity.
  - apply (Hterm ["a"%string] (VNum 7)); reflexivity.
Defined.

(** C9.  The function returned by [mkDistinctPathExtractor] returns its one
    shared array: the [k]-th call returns the values extracted from the
    first [k] documents, those of the earlier documents included, so it is
    not a function of the document alone; [distinct] returns what it would
    return with an extractor that yields each document's own values, because
    the values of the earlier documents have been seen. *)
Theorem C9_extractor_shares_its_result_array :
  (forall path docs,
     call_extractor_on (mkDistinctPathExtractor path) docs
     = map (fun k => flat_map (extracted_from path) (take (S k) docs))
           (seq 0 (length docs)))
  /\ call_extractor_on (mkDistinctPathExtractor "items.tag")
       [doc_items; doc_items]
     = [[VStr "a"; VStr "b"]; [VStr "a"; VStr "b"; VStr "a"; VStr "b"]]
  /\ (forall objectHash key docs,
        Collection_distinct objectHash key docs
        = Collection_distinct_per_document objectHash key docs).
Proof.
  split; [|split].
  - intros path docs. unfold mkDistinctPathExtractor.
    rewrite call_extractor_on_spec. reflexivity.
  - reflexivity.
  - apply Collection_distinct_eq_per_document.
Qed.

(** C10, as the code has it.  The guard [if (!value) return] drops every
    falsy value the walk arrives at, at the end of the path as well as on
    the way: 0, [false], the empty string, [null] and [undefined] contribute
    nothing.  The elements of an array found at the end of the path are
    pushed without that test.  So a value returned by [distinct] is truthy or
    is an element of an array of one of the documents. *)
Theorem C10_falsy_values_dropped_except_array_elements :
  (forall path index value values,
     truthy value = false -> extract path index value values = values)
  /\ (forall path elems values,
        extract path (length path) (VArr elems) values = values ++ elems)
  /\ (forall objectHash key docs ret x,
        Collection_distinct objectHash key docs = inr ret -> In x ret ->
        truthy x = true
        \/ exists doc, In doc docs /\ element_of_array_in x doc).
Proof.
  split; [|split].
  - intros. apply extract_falsy. assumption.
  - intros. apply extract_terminal. reflexivity.
  - intros objectHash key docs ret x Hd Hx.
    rewrite Collection_distinct_eq_per_document in Hd.
    unfold Collection_distinct_per_document in Hd.
    destruct (assertPathSafe4Distinct key); [discriminate|].
    injection Hd as <-.
    apply distinct_loop_per_document_ret in Hx as [[]|(doc & Hdoc & Hxd)].
    apply contribution_truthy_or_element in Hxd as [H|H]; [left; exact H|].
    right. exists doc. split; assumption.
Qed.

Lemma C10_falsy_values_witness :
  extract ["a"%string] 1 (VNum 0) [] = []
  /\ (truthy (VNum 1) = true
      \/ exists doc, In doc [VObj [("a"%string, VNum 1)]]
                     /\ element_of_array_in (VNum 1) doc).
Proof.
  destruct C10_falsy_values_dropped_except_array_elements as (Hfalsy & _ & Hret).
  split.
  - apply Hfalsy. reflexivity.
  - apply (Hret (fun _ => "h"%string) "a"%string
             [VObj [("a"%string, VNum 1)]] [VNum 1]).
    + reflexivity.
    + left. reflexivity.
Defined.

(** C10 as stated fails: [distinct] at path [a] over [{a: [0, false, '',
    null]}] returns the four falsy values. *)
Lemma C10_distinct_returns_falsy_array_elements :
  Collection_distinct (fun _ => "h"%string) "a" [doc_falsy_elements]
  = inr [VNum 0; VBool false; VStr ""; VNull]
  /\ ~ (forall objectHash key docs ret x,
          Collection_distinct objectHash key docs = inr ret -> In x ret ->
          truthy x = true).
Proof.
  split; [reflexivity|].
  intros H.
  specialize (H (fun _ => "h"%string) "a"%string [doc_falsy_elements]
                [VNum 0; VBool false; VStr ""; VNull] (VNum 0)
                eq_refl (or_introl eq_refl)).
  discriminate H.
Qed.


(* ===================================================================== *)
(** * Properties of the worker pool *)
(* ===================================================================== *)

Lemma awaited_app ws1 ws2 : awaited (ws1 ++ ws2) = awaited ws1 ++ awaited ws2.
Proof. apply omap_app. Qed.

(** Replacing a worker exchanges what it awaited for what it awaits now. *)
Lemma awaited_insert ws w old new :
  ws !! w = Some old ->
  Permutation (awaited [old] ++ awaited (<[w:=new]> ws))
              (awaited [new] ++ awaited ws).
Proof.
  intros Hw.
  assert (Hlt : w < length ws) by (eapply lookup_lt_Some; exact Hw).
  rewrite insert_take_drop by exact Hlt.
  rewrite <- (take_drop_middle ws w old Hw) at 3.
  rewrite !awaited_app.
  change (new :: drop (S w) ws) with ([new] ++ drop (S w) ws).
  change (old :: drop (S w) ws) with ([old] ++ drop (S w) ws).
  rewrite !awaited_app.
  generalize (awaited (take w ws)) (awaited (drop (S w) ws))
             (awaited [old]) (awaited [new]).
  intros a b o n. solve_Permutation.
Qed.

Lemma in_insert_worker (ws : list worker) w new x :
  In x (<[w:=new]> ws) -> x = new \/ In x ws.
Proof.
  intros Hx. apply list_elem_of_In in Hx.
  apply list_elem_of_lookup in Hx as [i Hi].
  destruct (decide (w = i)) as [->|Hne].
  - destruct (decide (i < length ws)) as [Hlt|Hge].
    + rewrite list_lookup_insert_eq in Hi by exact Hlt. left. congruence.
    + rewrite list_insert_ge in Hi by lia. right.
      apply list_elem_of_In, list_elem_of_lookup. eauto.
  - rewrite list_lookup_insert_ne in Hi by exact Hne. right.
    apply list_elem_of_In, list_elem_of_lookup. eauto.
Qed.

Section PoolFacts.

Context {A : Type}.
Variable srv : Service.
Variable total : nat.
Variable stride : nat.
Variable stops_at : nat -> bool.
Variable command_at : nat -> Command.
Variable on_response : A -> Response -> nat -> outcome A.
Variable on_failure : A -> ErrorDescriptor -> nat -> A.

Local Abbreviation worker_loop' := (worker_loop total stride stops_at command_at).
Local Abbreviation spawn' := (spawn total stride stops_at command_at).
Local Abbreviation start' := (start total stride stops_at command_at).
Local Abbreviation resume' :=
  (resume srv total stride stops_at command_at on_response on_failure).
Local Abbreviation run' :=
  (run srv total stride stops_at command_at on_response on_failure).
Local Abbreviation attempt' := (attempt srv command_at on_response).
Local Abbreviation complete' :=
  (complete srv stride command_at on_response on_failure).
Local Abbreviation replay' :=
  (replay srv stride command_at on_response on_failure).
Local Abbreviation invariant' :=
  (pool_invariant srv total stride command_at on_response on_failure).

Lemma replay_snoc order k s :
  replay' (order ++ [k]) s
  = match replay' order s with
    | Some s' => complete' k s'
    | None => None
    end.
Proof.
  revert s. induction order as [|j rest IH]; intros s; simpl.
  - destruct (complete' k s); reflexivity.
  - destruct (complete' j s); [apply IH | reflexivity].
Qed.

(** ** The size of the pool and the requests in flight *)

Lemma worker_loop_workers (p : pool A) :
  workers (snd (worker_loop' p)) = workers p.
Proof.
  unfold worker_loop. destruct (masterIndex p <? total); [|reflexivity].
  destruct (stops_at _); reflexivity.
Qed.

Lemma spawn_workers_length n (p : pool A) :
  length (workers (spawn' n p)) = length (workers p) + n.
Proof.
  revert p. induction n as [|n IH]; intros p; simpl; [lia|].
  pose proof (worker_loop_workers p) as Hw.
  destruct (worker_loop' p) as [wk p'] eqn:Hl. simpl in Hw.
  rewrite IH. simpl. rewrite length_app, Hw. simpl. lia.
Qed.

Lemma resume_workers_length w (p : pool A) :
  length (workers (resume' w p)) = length (workers p).
Proof.
  unfold resume. destruct (workers p !! w) as [[localI request| |e]|]; try reflexivity.
  destruct (attempt' _ _ _) as [a|e].
  - pose proof (worker_loop_workers (set_accumulated a p)) as Hw.
    destruct (worker_loop' _) as [wk p']. simpl in *.
    rewrite length_insert, Hw. reflexivity.
  - destruct e; try (simpl; apply length_insert).
    match goal with
    | |- context [worker_loop' ?q] =>
        pose proof (worker_loop_workers q) as Hw;
        destruct (worker_loop' q) as [wk p']
    end.
    simpl in *. rewrite length_insert, Hw. reflexivity.
Qed.

Lemma run_workers_length schedule (p : pool A) :
  length (workers (run' schedule p)) = length (workers p).
Proof.
  revert p. induction schedule as [|w rest IH]; intros p; simpl; [reflexivity|].
  unfold run in *. simpl. rewrite IH. apply resume_workers_length.
Qed.

Lemma in_flight_le_workers (p : pool A) : in_flight p <= length (workers p).
Proof. unfold in_flight. apply length_filter. Qed.

(** The pool has [parallel] workers throughout, and never more than that
    many requests in flight. *)
Lemma pool_size_and_in_flight initial parallel schedule :
  length (workers (run' schedule (start' initial parallel))) = Z.to_nat parallel
  /\ in_flight (run' schedule (start' initial parallel)) <= Z.to_nat parallel.
Proof.
  assert (H : length (workers (run' schedule (start' initial parallel)))
              = Z.to_nat parallel).
  { rewrite run_workers_length. unfold start. rewrite spawn_workers_length.
    reflexivity. }
  split; [exact H|]. rewrite <- H. apply in_flight_le_workers.
Qed.

(** ** A rejection is final *)





(** ** The invariant *)

Hypothesis stride_positive : 0 < stride.
Hypothesis no_break_below_total : forall i, i < total -> stops_at i = false.

Lemma worker_loop_spec (p : pool A) :
  (masterIndex p < total
   /\ worker_loop' p
      = (Awaiting (masterIndex p) (length (sent p)),
         {| masterIndex := masterIndex p + stride;
            accumulated := accumulated p;
            failCommands := failCommands p; failRaw := failRaw p;
            workers := workers p;
            sent := sent p ++ [command_at (masterIndex p)];
            rejection := rejection p |}))
  \/ (total <= masterIndex p /\ worker_loop' p = (Resolved, p)).
Proof.
  unfold worker_loop. destruct (masterIndex p <? total) eqn:Hlt.
  - apply Nat.ltb_lt in Hlt. left. split; [exact Hlt|].
    rewrite no_break_below_total by exact Hlt. reflexivity.
  - apply Nat.ltb_ge in Hlt. right. split; [exact Hlt | reflexivity].
Qed.

(** The step common to the creation of a worker and to its resumption: a
    worker runs the head of the loop in a pool [q] whose other workers are
    [ws], and the worker list becomes [ws'], which holds the new state of the
    worker and, apart from it, states of [ws]. *)
Lemma invariant_worker_loop initial (q : pool A) (ws : list worker)
    (place : worker -> list worker) :
  masterIndex q = length (sent q) * stride ->
  sent q = map (fun k => command_at (k * stride)) (seq 0 (length (sent q))) ->
  (forall k, k < length (sent q) -> k * stride < total) ->
  Forall (fun w => match w with
                   | Awaiting localI request => localI = request * stride
                   | _ => True
                   end) ws ->
  (In Resolved ws -> total <= masterIndex q) ->
  (forall wk x, In x (place wk) -> x = wk \/ In x ws) ->
  (forall wk, Forall (fun w => match w with
                   | Awaiting localI request => localI = request * stride
                   | _ => True
                   end) ws ->
              match wk with
              | Awaiting localI request => localI = request * stride
              | _ => True
              end ->
              Forall (fun w => match w with
                   | Awaiting localI request => localI = request * stride
                   | _ => True
                   end) (place wk)) ->
  (rejection q = None ->
   (forall e, ~ In (Rejected e) ws)
   /\ exists order,
        (forall wk, Permutation (order ++ awaited (place wk))
                                (awaited [wk] ++ seq 0 (length (sent q))))
        /\ replay' order (initial, [], [])
           = Some (accumulated q, failCommands q, failRaw q)) ->
  forall wk q',
    worker_loop' q = (wk, q') ->
    invariant' initial
      {| masterIndex := masterIndex q'; accumulated := accumulated q';
         failCommands := failCommands q'; failRaw := failRaw q';
         workers := place wk; sent := sent q'; rejection := rejection q' |}.
Proof.
  intros Hmi Hsent Hlt Hws Hres Hplace Hforall Hrej wk q' Hloop.
  destruct (worker_loop_spec q) as [[Hbelow Heq]|[Hreached Heq]];
    rewrite Heq in Hloop; injection Hloop as <- <-;
    unfold pool_invariant; cbn [masterIndex accumulated failCommands failRaw
                                 workers sent rejection].
  - (* the worker sends the command of the next operation *)
    rewrite length_app. cbn [length].
    replace (length (sent q) + 1) with (S (length (sent q))) by lia.
    split; [rewrite Hmi; lia|].
    split; [rewrite seq_S, map_app, <- Hsent; cbn [map]; rewrite Hmi; reflexivity|].
    split; [intros k Hk; destruct (decide (k = length (sent q))) as [->|Hne];
            [rewrite <- Hmi; exact Hbelow | apply Hlt; lia]|].
    split; [apply Hforall; [exact Hws | exact Hmi]|].
    split; [intros Hin; apply Hplace in Hin as [Hin|Hin];
            [discriminate | specialize (Hres Hin); lia]|].
    intros Hnone. destruct (Hrej Hnone) as (Hnorej & order & Hperm & Hreplay).
    split; [intros e Hin; apply Hplace in Hin as [Hin|Hin];
            [discriminate | exact (Hnorej e Hin)]|].
    exists order. split; [|exact Hreplay].
    rewrite Hperm. cbn [awaited omap]. rewrite seq_S. simpl.
    apply Permutation_cons_append.
  - (* the worker leaves the loop *)
    split; [exact Hmi|]. split; [exact Hsent|]. split; [exact Hlt|].
    split; [apply Hforall; [exact Hws | exact I]|].
    split; [intros _; exact Hreached|].
    intros Hnone. destruct (Hrej Hnone) as (Hnorej & order & Hperm & Hreplay).
    split; [intros e Hin; apply Hplace in Hin as [Hin|Hin];
            [discriminate | exact (Hnorej e Hin)]|].
    exists order. split; [|exact Hreplay].
    rewrite Hperm. reflexivity.
Qed.

Lemma invariant_spawn initial n (p : pool A) :
  invariant' initial p -> invariant' initial (spawn' n p).
Proof.
  revert p. induction n as [|n IH]; intros p Hinv; [exact Hinv|].
  cbn [spawn]. pose proof (worker_loop_workers p) as Hw.
  destruct (worker_loop' p) as [wk p'] eqn:Hloop. cbn [snd] in Hw.
  apply IH. unfold push_worker. rewrite Hw.
  destruct Hinv as (Hmi & Hsent & Hlt & Hws & Hres & Hrej).
  apply (invariant_worker_loop initial p (workers p)
           (fun wk => workers p ++ [wk])); try assumption.
  - intros wk0 x Hx. apply in_app_or in Hx as [Hx|[Hx|[]]]; auto.
  - intros wk0 Hall Hwk. apply Forall_app. split; [exact Hall|].
    constructor; [exact Hwk | constructor].
  - intros Hnone. destruct (Hrej Hnone) as (Hnorej & order & Hperm & Hreplay).
    split; [exact Hnorej|]. exists order. split; [|exact Hreplay].
    intros wk0. rewrite awaited_app, app_assoc, Hperm.
    apply Permutation_app_comm.
Qed.

Lemma invariant_start initial parallel :
  invariant' initial (start' initial parallel).
Proof.
  unfold start. apply invariant_spawn.
  unfold pool_invariant.
  cbn [masterIndex sent workers rejection accumulated failCommands failRaw
       length seq map].
  split; [reflexivity|]. split; [reflexivity|].
  split; [intros k Hk; lia|]. split; [constructor|].
  split; [intros []|]. intros _. split; [intros e []|].
  exists []. split; reflexivity.
Qed.

Lemma invariant_resume initial w (p : pool A) :
  invariant' initial p -> invariant' initial (resume' w p).
Proof.
  intros Hinv. unfold resume.
  destruct (workers p !! w) as [[localI request| |e]|] eqn:Hw; try exact Hinv.
  destruct Hinv as (Hmi & Hsent & Hlt & Hws & Hres & Hrej).
  assert (HlocalI : localI = request * stride).
  { rewrite Forall_forall in Hws.
    apply (Hws (Awaiting localI request)).
    apply list_elem_of_lookup. eauto. }
  assert (Hcontinue : forall q : pool A,
    masterIndex q = masterIndex p -> sent q = sent p ->
    workers q = workers p -> rejection q = rejection p ->
    complete' request (accumulated p, failCommands p, failRaw p)
    = Some (accumulated q, failCommands q, failRaw q) ->
    invariant' initial
      (let '(wk, p') := worker_loop' q in set_worker w wk p')).
  { intros q Hqmi Hqsent Hqws Hqrej Hcomplete.
    pose proof (worker_loop_workers q) as Hlw.
    destruct (worker_loop' q) as [wk p'] eqn:Hloop. cbn [snd] in Hlw.
    unfold set_worker. rewrite Hlw, Hqws.
    apply (invariant_worker_loop initial q (workers p)
             (fun wk => <[w:=wk]> (workers p)));
      rewrite ?Hqmi, ?Hqsent; try assumption.
    - intros wk0 x Hx. exact (in_insert_worker _ _ _ _ Hx).
    - intros wk0 Hall Hwk. apply Forall_insert; assumption.
    - rewrite Hqrej. intros Hnone.
      destruct (Hrej Hnone) as (Hnorej & order & Hperm & Hreplay).
      split; [exact Hnorej|]. exists (order ++ [request]). split.
      + intros wk0. rewrite <- Hperm, <- app_assoc.
        pose proof (awaited_insert (workers p) w _ wk0 Hw) as Hins.
        cbn [awaited omap] in Hins. simpl in Hins. simpl.
        rewrite Hins. generalize (awaited [wk0]). intros l.
        rewrite !app_assoc. apply Permutation_app_tail, Permutation_app_comm.
      + rewrite replay_snoc, Hreplay. exact Hcomplete. }
  destruct (attempt' (accumulated p) localI request) as [a|e] eqn:Hattempt.
  - apply Hcontinue; try reflexivity.
    unfold complete. rewrite <- HlocalI, Hattempt. reflexivity.
  - assert (Hreject : invariant' initial (reject w e p)).
    { unfold pool_invariant, reject. cbn.
      split; [exact Hmi|]. split; [exact Hsent|]. split; [exact Hlt|].
      split; [apply Forall_insert; [exact Hws | exact I]|].
      split; [intros Hin; apply in_insert_worker in Hin as [Hin|Hin];
              [discriminate | exact (Hres Hin)]|].
      destruct (rejection p); discriminate. }
    destruct e; try exact Hreject.
    apply Hcontinue; try reflexivity.
    unfold complete. rewrite <- HlocalI, Hattempt. reflexivity.
Qed.

Lemma invariant_run initial schedule (p : pool A) :
  invariant' initial p -> invariant' initial (run' schedule p).
Proof.
  revert p. induction schedule as [|w rest IH]; intros p Hinv; [exact Hinv|].
  unfold run in *. cbn [foldl]. apply IH, invariant_resume, Hinv.
Qed.

(** When a run has come to the point where every worker has returned, every
    request sent has been completed, in some order; the shared variables are
    what these completions have made of them; and, the pool having a worker,
    the commands of all the operations have been sent. *)
Lemma pool_all_resolved initial parallel schedule :
  let p := run' schedule (start' initial parallel) in
  rejection p = None ->
  forallb is_Resolved (workers p) = true ->
  sent p = map (fun k => command_at (k * stride)) (seq 0 (length (sent p)))
  /\ (forall k, k < length (sent p) -> k * stride < total)
  /\ ((0 < parallel)%Z -> total <= length (sent p) * stride)
  /\ exists order,
       Permutation order (seq 0 (length (sent p)))
       /\ replay' order (initial, [], [])
          = Some (accumulated p, failCommands p, failRaw p).
Proof.
  intros p Hnone Hall.
  pose proof (invariant_run initial schedule _ (invariant_start initial parallel))
    as (Hmi & Hsent & Hlt & Hws & Hres & Hrej).
  fold p in Hmi, Hsent, Hlt, Hws, Hres, Hrej.
  split; [exact Hsent|]. split; [exact Hlt|]. split.
  - intros Hpar. rewrite <- Hmi. apply Hres.
    pose proof (proj1 (pool_size_and_in_flight initial parallel schedule)) as Hlen.
    fold p in Hlen.
    destruct (workers p) as [|wk ws] eqn:Hwsp; [simpl in Hlen; lia|].
    simpl in Hall. apply andb_true_iff in Hall as [Hwk _].
    destruct wk; try discriminate. left. reflexivity.
  - destruct (Hrej Hnone) as (_ & order & Hperm & Hreplay).
    exists order. split; [|exact Hreplay].
    assert (Hnil : awaited (workers p) = []).
    { clear -Hall. induction (workers p) as [|wk ws IH]; [reflexivity|].
      simpl in Hall. apply andb_true_iff in Hall as [Hwk Hws].
      destruct wk; try discriminate. simpl. apply IH, Hws. }
    rewrite Hnil, app_nil_r in Hperm. exact Hperm.
Qed.

(** ** Every run can be brought to its end *)

Lemma awaited_nonempty (ws : list worker) :
  awaited ws <> [] ->
  exists w localI request, ws !! w = Some (Awaiting localI request).
Proof.
  induction ws as [|wk ws IH]; intros Hne; [contradiction|].
  destruct wk as [localI request| |e].
  - exists 0, localI, request. reflexivity.
  - destruct (IH Hne) as (w & l & r & Hw). exists (S w), l, r. exact Hw.
  - destruct (IH Hne) as (w & l & r & Hw). exists (S w), l, r. exact Hw.
Qed.

Lemma awaited_insert_length (ws : list worker) w localI request new :
  ws !! w = Some (Awaiting localI request) ->
  S (length (awaited (<[w:=new]> ws)))
  = length (awaited [new]) + length (awaited ws).
Proof.
  intros Hw. pose proof (awaited_insert ws w _ new Hw) as Hperm.
  apply Permutation_length in Hperm. rewrite !length_app in Hperm.
  exact Hperm.
Qed.

(** The number of operations not yet taken plus the number of requests in
    flight decreases at every resumption of a worker that awaits. *)
Lemma resume_decreases w (p : pool A) localI request :
  workers p !! w = Some (Awaiting localI request) ->
  (total - masterIndex (resume' w p))
  + length (awaited (workers (resume' w p)))
  < (total - masterIndex p) + length (awaited (workers p)).
Proof.
  intros Hw. unfold resume. rewrite Hw.
  assert (Hcontinue : forall q : pool A,
    masterIndex q = masterIndex p -> workers q = workers p ->
    (total - masterIndex (let '(wk, p') := worker_loop' q in set_worker w wk p'))
    + length (awaited (workers
               (let '(wk, p') := worker_loop' q in set_worker w wk p')))
    < (total - masterIndex p) + length (awaited (workers p))).
  { intros q Hqmi Hqws. unfold worker_loop.
    destruct (masterIndex q <? total) eqn:Hlt.
    - apply Nat.ltb_lt in Hlt. destruct (stops_at (masterIndex q));
        cbn [set_worker masterIndex workers]; rewrite Hqws;
        match goal with
        | |- context [<[w:=?new]> (workers p)] =>
            pose proof (awaited_insert_length (workers p) w _ _ new Hw) as Hlen
        end; simpl in Hlen; lia.
    - apply Nat.ltb_ge in Hlt. cbn [set_worker masterIndex workers].
      rewrite Hqws.
      pose proof (awaited_insert_length (workers p) w _ _ Resolved Hw) as Hlen.
      simpl in Hlen. lia. }
  assert (Hreject : forall e,
    (total - masterIndex (reject w e p))
    + length (awaited (workers (reject w e p)))
    < (total - masterIndex p) + length (awaited (workers p))).
  { intros e. cbn [reject masterIndex workers].
    pose proof (awaited_insert_length (workers p) w _ _ (Rejected e) Hw) as Hlen.
    simpl in Hlen. lia. }
  destruct (attempt' (accumulated p) localI request) as [a|e].
  - apply Hcontinue; reflexivity.
  - destruct e; try apply Hreject. apply Hcontinue; reflexivity.
Qed.

Lemma pool_can_finish (p : pool A) :
  exists schedule, awaited (workers (run' schedule p)) = [].
Proof.
  remember ((total - masterIndex p) + length (awaited (workers p))) as m eqn:Hm.
  revert p Hm. induction m as [m IH] using lt_wf_ind. intros p Hm.
  destruct (awaited (workers p)) as [|r rest] eqn:Haw.
  - exists []. exact Haw.
  - destruct (awaited_nonempty (workers p)) as (w & localI & request & Hw);
      [rewrite Haw; discriminate|].
    pose proof (resume_decreases w p localI request Hw) as Hdec.
    rewrite Haw in Hdec. rewrite <- Hm in Hdec.
    destruct (IH _ Hdec (resume' w p) eq_refl) as [schedule Hs].
    exists (w :: schedule). exact Hs.
Qed.

(** For every pool there is an order of arrival of the answers with which
    the call ends. *)
Lemma pool_settles initial parallel
    (mkError : list Command -> list Response -> A -> error) :
  exists schedule out,
    settle mkError (run' schedule (start' initial parallel)) = Some out.
Proof.
  destruct (pool_can_finish (start' initial parallel)) as [schedule Hs].
  exists schedule.
  pose proof (invariant_run initial schedule _ (invariant_start initial parallel))
    as (_ & _ & _ & _ & _ & Hrej).
  unfold settle.
  destruct (rejection (run' schedule (start' initial parallel))) as [e|];
    [eexists; reflexivity|].
  destruct (Hrej eq_refl) as (Hnorej & _).
  assert (Hall : forallb is_Resolved
                   (workers (run' schedule (start' initial parallel))) = true).
  { revert Hs Hnorej.
    generalize (workers (run' schedule (start' initial parallel))).
    intros ws. induction ws as [|wk ws IH]; intros Hs Hnorej; [reflexivity|].
    destruct wk as [l r| |e].
    - discriminate.
    - simpl. apply IH; [exact Hs|]. intros e Hin. apply (Hnorej e). right. exact Hin.
    - exfalso. apply (Hnorej e). left. reflexivity. }
  rewrite Hall. destruct (0 <? _); eexists; reflexivity.
Qed.

End PoolFacts.

(* ===================================================================== *)
(** * Properties of the ordered paths *)
(* ===================================================================== *)

Lemma operation_at_lookup operations k op :
  operations !! k = Some op -> operation_at operations k = op.
Proof. intros H. unfold operation_at. rewrite nth_lookup, H. reflexivity. Qed.

Lemma merge_order_snoc srv operations order k results :
  merge_order srv operations (order ++ [k]) results
  = match answered_status srv operations k with
    | Some st =>
        addToBulkWriteResult (merge_order srv operations order results) st k
    | None => merge_order srv operations order results
    end.
Proof. unfold merge_order. rewrite foldl_app. reflexivity. Qed.

Lemma merge_order_cons srv operations order k results :
  merge_order srv operations (k :: order) results
  = merge_order srv operations order
      (match answered_status srv operations k with
       | Some st => addToBulkWriteResult results st k
       | None => results
       end).
Proof. reflexivity. Qed.



(** The run of the ordered loop from index [i] when it returns: every
    request has been answered with a status, the statuses have been merged in
    index order and every command has been sent. *)
Lemma bulkWriteOrdered_from_returned srv operations d :
  forall i results r sent,
    length operations = i + d ->
    bulkWriteOrdered_from srv (drop i operations) i results (take i operations)
    = (Returned r, sent) ->
    sent = operations
    /\ r = merge_order srv operations (seq i d) results
    /\ (forall j, i <= j < length operations ->
                  answered_status srv operations j <> None).
Proof.
  induction d as [|d IH]; intros i results r sent Hlen Hrun.
  - rewrite drop_ge in Hrun by lia. rewrite take_ge in Hrun by lia.
    cbn in Hrun. injection Hrun as <- <-.
    split; [reflexivity|]. split; [reflexivity|]. intros j Hj. lia.
  - assert (Hi : i < length operations) by lia.
    destruct (lookup_lt_is_Some_2 operations i Hi) as [op Hopi].
    rewrite (drop_S _ _ _ Hopi) in Hrun.
    cbn [bulkWriteOrdered_from executeCommand] in Hrun.
    assert (Hleni : length (take i operations) = i)
      by (rewrite length_take; lia).
    rewrite Hleni in Hrun.
    destruct (srv i op) as [resp|e] eqn:Hsrv.
    + destruct (status resp) as [st|] eqn:Hst; [|discriminate].
      rewrite <- (take_S_r _ _ _ Hopi) in Hrun.
      replace (i + 1) with (S i) in Hrun by lia.
      destruct (IH (S i) _ r sent ltac:(lia) Hrun) as (Hsent & Hr & Hok).
      split; [exact Hsent|]. split.
      * rewrite Hr. cbn [seq]. rewrite merge_order_cons. unfold answered_status.
        rewrite (operation_at_lookup _ _ _ Hopi), Hsrv, Hst. reflexivity.
      * intros j Hj. destruct (decide (j = i)) as [->|Hne].
        -- unfold answered_status.
           rewrite (operation_at_lookup _ _ _ Hopi), Hsrv, Hst. discriminate.
        -- apply Hok. lia.
    + destruct e; discriminate.
Qed.

(** ** The chunks of [insertMany] *)

Lemma chunk_count_spec n chunkSize k :
  0 < chunkSize -> (k < chunk_count n chunkSize <-> k * chunkSize < n).
Proof.
  intros Hpos. unfold chunk_count.
  pose proof (Nat.div_mod_eq (n + chunkSize - 1) chunkSize) as Hdiv.
  pose proof (Nat.mod_upper_bound (n + chunkSize - 1) chunkSize ltac:(lia)) as Hmod.
  set (q := (n + chunkSize - 1) / chunkSize) in *.
  set (r := (n + chunkSize - 1) mod chunkSize) in *.
  split; intros H; nia.
Qed.

Lemma chunk_length documents chunkSize k :
  length (chunk documents chunkSize k)
  = Nat.min chunkSize (length documents - k * chunkSize).
Proof.
  unfold chunk, slice. rewrite length_take, length_drop. lia.
Qed.

(** The chunks, put end to end from the [k]-th on, are the documents from
    [k * chunkSize] on. *)
Lemma concat_chunks_from documents chunkSize d :
  0 < chunkSize ->
  forall k,
    length documents <= (k + d) * chunkSize ->
    concat (map (chunk documents chunkSize) (seq k d))
    = drop (k * chunkSize) documents.
Proof.
  intros Hpos. induction d as [|d IH]; intros k Hlen.
  - cbn. rewrite drop_ge by lia. reflexivity.
  - cbn [seq map concat]. rewrite IH by lia.
    unfold chunk, slice.
    replace (k * chunkSize + chunkSize - k * chunkSize) with chunkSize by lia.
    replace (S k * chunkSize) with (k * chunkSize + chunkSize) by lia.
    rewrite <- drop_drop.
    apply take_drop.
Qed.

Lemma chunks_spec documents chunkSize :
  0 < chunkSize ->
  concat (chunks documents chunkSize) = documents
  /\ Forall (fun c => 0 < length c <= chunkSize) (chunks documents chunkSize)
  /\ (forall k c, chunks documents chunkSize !! k = Some c ->
                  S k < length (chunks documents chunkSize) ->
                  length c = chunkSize).
Proof.
  intros Hpos. unfold chunks.
  pose proof (fun k => chunk_count_spec (length documents) chunkSize k Hpos)
    as Hcount.
  set (m := chunk_count (length documents) chunkSize) in *.
  split; [|split].
  - rewrite concat_chunks_from; [reflexivity | exact Hpos |].
    destruct (Nat.le_gt_cases (length documents) ((0 + m) * chunkSize))
      as [Hle|Hgt]; [exact Hle|].
    apply Hcount in Hgt. lia.
  - apply Forall_forall. intros c Hc.
    apply list_elem_of_In, in_map_iff in Hc as (k & <- & Hk).
    apply in_seq in Hk. cbv beta. rewrite chunk_length.
    assert (k * chunkSize < length documents) by (apply Hcount; lia). lia.
  - intros k c Hk Hlast. rewrite length_map, length_seq in Hlast.
    rewrite list_lookup_fmap in Hk.
    rewrite lookup_seq_lt in Hk by lia. cbn in Hk. injection Hk as Hc.
    subst c. change (length (chunk documents chunkSize k) = chunkSize).
    rewrite chunk_length.
    assert (S k * chunkSize < length documents) by (apply Hcount; lia). lia.
Qed.

Section InsertManyOrdered.

Variable srv : Service.
Variable documents : list jsval.
Variable chunkSize : nat.

Local Abbreviation chunk_cmd := (ordered_chunk_command documents chunkSize).

Lemma answered_ids_returned k resp :
  srv k (chunk_cmd k) = Returned resp ->
  answered_ids srv documents chunkSize true k = status_insertedIds resp.
Proof. intros H. unfold answered_ids. unfold ordered_chunk_command in H. rewrite H. reflexivity. Qed.

Lemma insertManyOrdered_step fuel k0 ids :
  k0 * chunkSize < length documents ->
  insertManyOrdered_from (S fuel) srv documents chunkSize (k0 * chunkSize) ids
    (map chunk_cmd (seq 0 k0))
  = match srv k0 (chunk_cmd k0) with
    | Returned resp =>
        insertManyOrdered_from fuel srv documents chunkSize
          (S k0 * chunkSize) (ids ++ status_insertedIds resp)
          (map chunk_cmd (seq 0 (S k0)))
    | Thrown (DataAPIResponseError desc _) =>
        let ids' := ids ++ status_insertedIds (rawResponse desc) in
        Some (Thrown (InsertManyError [command desc] [rawResponse desc]
                        ids' (length ids')),
              map chunk_cmd (seq 0 (S k0)))
    | Thrown e => Some (Thrown e, map chunk_cmd (seq 0 (S k0)))
    end.
Proof.
  intros Hlt. cbn [insertManyOrdered_from].
  destruct (length documents <=? k0 * chunkSize) eqn:Hle;
    [apply Nat.leb_le in Hle; lia|].
  unfold insertMany, executeCommand.
  rewrite length_map, length_seq.
  change (CmdInsertMany
            (slice documents (k0 * chunkSize) (k0 * chunkSize + chunkSize)) true)
    with (ordered_chunk_command documents chunkSize k0).
  rewrite seq_S, map_app. cbn [map Nat.add].
  replace (k0 * chunkSize + chunkSize) with (S k0 * chunkSize) by lia.
  destruct (srv k0 _) as [resp|e]; [reflexivity|].
  destruct e; reflexivity.
Qed.

(** The ordered loop from chunk [k0] on, when the chunks [k0] to [k - 1]
    are inserted and chunk [k] fails with a [DataAPIResponseError]. *)
Lemma insertManyOrdered_from_failure d :
  forall fuel k0 ids k desc others,
    k = k0 + d ->
    k * chunkSize < length documents ->
    (forall j, k0 <= j < k -> exists resp, srv j (chunk_cmd j) = Returned resp) ->
    srv k (chunk_cmd k) = Thrown (DataAPIResponseError desc others) ->
    d < fuel ->
    insertManyOrdered_from fuel srv documents chunkSize (k0 * chunkSize) ids
      (map chunk_cmd (seq 0 k0))
    = let ids' :=
        ids ++ flat_map (answered_ids srv documents chunkSize true) (seq k0 d)
            ++ status_insertedIds (rawResponse desc) in
      Some (Thrown (InsertManyError [command desc] [rawResponse desc]
                      ids' (length ids')),
            map chunk_cmd (seq 0 (S k))).
Proof.
  induction d as [|d IH]; intros fuel k0 ids k desc others Hk Hlt Hok Hfail Hfuel;
    (destruct fuel as [|fuel]; [lia|]).
  - replace k0 with k in * by lia.
    rewrite insertManyOrdered_step by exact Hlt. rewrite Hfail. reflexivity.
  - rewrite insertManyOrdered_step by nia.
    destruct (Hok k0 ltac:(lia)) as [resp Hresp]. rewrite Hresp.
    rewrite (IH fuel (S k0) _ k desc others); try assumption; try lia.
    + cbn [seq flat_map]. rewrite (answered_ids_returned _ _ Hresp).
      cbv zeta. rewrite <- !app_assoc. reflexivity.
    + intros j Hj. apply Hok. lia.
Qed.

(** The ordered loop from chunk [k0] on, when every chunk is inserted. *)
Lemma insertManyOrdered_from_success d :
  0 < chunkSize ->
  forall fuel k0 ids,
    chunk_count (length documents) chunkSize = k0 + d ->
    (forall j, k0 <= j < k0 + d ->
               exists resp, srv j (chunk_cmd j) = Returned resp) ->
    d <= fuel ->
    insertManyOrdered_from fuel srv documents chunkSize (k0 * chunkSize) ids
      (map chunk_cmd (seq 0 k0))
    = Some (Returned
              (ids ++ flat_map (answered_ids srv documents chunkSize true)
                               (seq k0 d)),
            map chunk_cmd (seq 0 (k0 + d))).
Proof.
  intros Hpos.
  pose proof (fun k => chunk_count_spec (length documents) chunkSize k Hpos)
    as Hcount.
  induction d as [|d IH]; intros fuel k0 ids Hm Hok Hfuel.
  - assert (Hge : length documents <= k0 * chunkSize).
    { destruct (Nat.le_gt_cases (length documents) (k0 * chunkSize)) as [H|H];
        [exact H|]. apply Hcount in H. lia. }
    apply Nat.leb_le in Hge.
    destruct fuel; cbn [insertManyOrdered_from]; rewrite Hge;
      cbn [seq flat_map]; rewrite app_nil_r, Nat.add_0_r; reflexivity.
  - destruct fuel as [|fuel]; [lia|].
    rewrite insertManyOrdered_step by (apply Hcount; lia).
    destruct (Hok k0 ltac:(lia)) as [resp Hresp]. rewrite Hresp.
    rewrite (IH fuel (S k0)); try lia.
    + cbn [seq flat_map]. rewrite (answered_ids_returned _ _ Hresp).
      rewrite <- app_assoc. replace (S k0 + d) with (k0 + S d) by lia.
      reflexivity.
    + intros j Hj. apply Hok. lia.
Qed.

(** The ordered loop when it returns: what it has sent and collected. *)
Lemma insertManyOrdered_from_returned fuel :
  forall k0 ids r sent,
    insertManyOrdered_from fuel srv documents chunkSize (k0 * chunkSize) ids
      (map chunk_cmd (seq 0 k0)) = Some (Returned r, sent) ->
    exists d,
      sent = map chunk_cmd (seq 0 (k0 + d))
      /\ r = ids ++ flat_map (answered_ids srv documents chunkSize true)
                             (seq k0 d).
Proof.
  induction fuel as [|fuel IH]; intros k0 ids r sent H.
  - cbn [insertManyOrdered_from] in H.
    destruct (length documents <=? k0 * chunkSize); [|discriminate].
    injection H as <- <-. exists 0.
    cbn. rewrite app_nil_r, Nat.add_0_r. split; reflexivity.
  - destruct (Nat.le_gt_cases (length documents) (k0 * chunkSize)) as [Hge|Hlt].
    + cbn [insertManyOrdered_from] in H. apply Nat.leb_le in Hge.
      rewrite Hge in H. injection H as <- <-. exists 0.
      cbn. rewrite app_nil_r, Nat.add_0_r. split; reflexivity.
    + rewrite insertManyOrdered_step in H by exact Hlt.
      destruct (srv k0 (chunk_cmd k0)) as [resp|e] eqn:Hresp.
      * destruct (IH (S k0) _ r sent H) as (d & Hsent & Hr).
        exists (S d). replace (k0 + S d) with (S k0 + d) by lia.
        split; [exact Hsent|].
        rewrite Hr. cbn [seq flat_map].
        rewrite (answered_ids_returned _ _ Hresp), <- app_assoc. reflexivity.
      * destruct e; discriminate.
Qed.

End InsertManyOrdered.

(** ** [deleteMany] *)

Lemma deleteMany_loop_sent fuel srv c :
  forall numDeleted sent0 out sent,
    deleteMany_loop fuel srv c numDeleted sent0 = Some (out, sent) ->
    exists more, sent = sent0 ++ c :: more.
Proof.
  induction fuel as [|fuel IH]; intros numDeleted sent0 out sent H;
    [discriminate|].
  cbn [deleteMany_loop executeCommand] in H.
  destruct (srv (length sent0) c) as [resp|e].
  - destruct (status_moreData resp).
    + destruct (IH _ _ _ _ H) as [more Hmore]. exists (c :: more).
      rewrite Hmore, <- app_assoc. reflexivity.
    + injection H as <- <-. exists []. reflexivity.
  - exists []. destruct e; injection H as <- <-; reflexivity.
Qed.

(* ===================================================================== *)
(** * The completions of the unordered paths *)
(* ===================================================================== *)

Lemma sumZ_Permutation f l l' : Permutation l l' -> sumZ f l = sumZ f l'.
Proof.
  induction 1 as [|x l l' _ IH|x y l|l l' l'' _ IH1 _ IH2]; simpl;
    [reflexivity | rewrite IH; reflexivity | lia | congruence].
Qed.

Lemma sumZ_ext_in f g l :
  (forall k, In k l -> f k = g k) -> sumZ f l = sumZ g l.
Proof.
  induction l as [|x l IH]; intros H; [reflexivity|].
  change (f x + sumZ f l = g x + sumZ g l)%Z.
  rewrite (H x (or_introl eq_refl)), IH; [reflexivity|].
  intros k Hk. apply H. right. exact Hk.
Qed.

Lemma sumZ_app f l l' : sumZ f (l ++ l') = (sumZ f l + sumZ f l')%Z.
Proof. induction l as [|x l IH]; simpl; [reflexivity | rewrite IH; lia]. Qed.

Section BulkCompletions.

Variable srv : Service.
Variable operations : list Command.

Local Abbreviation replay_bulk :=
  (replay srv 1 (operation_at operations) bulkWrite_on_response add_partial).
Local Abbreviation complete_bulk :=
  (complete srv 1 (operation_at operations) bulkWrite_on_response add_partial).

Lemma complete_bulk_spec k a fc fr :
  complete_bulk k (a, fc, fr)
  = if is_fatal srv operations k then None
    else Some (merge_completion srv operations a k,
               fc ++ map command (option_list (failure_of srv operations k)),
               fr ++ map rawResponse (option_list (failure_of srv operations k))).
Proof.
  unfold complete, attempt, is_fatal, merge_completion, failure_of,
    bulkWrite_on_response.
  rewrite Nat.mul_1_r.
  destruct (srv k (operation_at operations k)) as [resp|e].
  - destruct (status resp); [|reflexivity]. simpl. rewrite !app_nil_r. reflexivity.
  - destruct e; reflexivity.
Qed.

(** The shared variables after the completions [order]: no completion was
    fatal, the accumulator has every answer merged, and the failure arrays
    list the failed operations in their order of completion. *)
Lemma replay_bulk_spec order a fc fr a' fc' fr' :
  replay_bulk order (a, fc, fr) = Some (a', fc', fr') ->
  (forall k, In k order -> is_fatal srv operations k = false)
  /\ a' = merge_completions srv operations order a
  /\ fc' = fc ++ map command (omap (failure_of srv operations) order)
  /\ fr' = fr ++ map rawResponse (omap (failure_of srv operations) order).
Proof.
  revert a fc fr. induction order as [|k rest IH]; intros a fc fr H.
  - cbn in H. injection H as <- <- <-. cbn. rewrite !app_nil_r.
    repeat split; try reflexivity. intros k [].
  - cbn [replay] in H. rewrite complete_bulk_spec in H.
    destruct (is_fatal srv operations k) eqn:Hfatal; [discriminate|].
    destruct (IH _ _ _ H) as (Hnf & Ha & Hfc & Hfr).
    split; [intros j [<-|Hj]; [exact Hfatal | exact (Hnf j Hj)]|].
    split; [exact Ha|].
    cbn [omap list_omap]. unfold option_list in *.
    destruct (failure_of srv operations k) as [desc|].
    all: cbn [map option_rect] in *.
    all: rewrite <- ?app_assoc in Hfc, Hfr.
    all: rewrite ?app_nil_r in Hfc, Hfr.
    all: split; assumption.
Qed.

(** Without failures the completions merge the statuses of the answers. *)
Lemma merge_completions_no_failure order a :
  (forall k, In k order -> is_fatal srv operations k = false) ->
  omap (failure_of srv operations) order = [] ->
  merge_completions srv operations order a = merge_order srv operations order a
  /\ (forall k, In k order -> answered_status srv operations k <> None).
Proof.
  revert a. induction order as [|k rest IH]; intros a Hnf Hfail.
  - split; [reflexivity | intros k []].
  - cbn [omap list_omap] in Hfail.
    pose proof (Hnf k (or_introl eq_refl)) as Hk.
    unfold failure_of in Hfail. unfold is_fatal in Hk.
    unfold merge_completions, merge_order. cbn [foldl].
    unfold merge_completion at 2. unfold answered_status at 2.
    destruct (srv k (operation_at operations k)) as [resp|e] eqn:Hsrv.
    + destruct (status resp) as [st|] eqn:Hst; [|discriminate].
      destruct (IH (addToBulkWriteResult a st k)
                  (fun j Hj => Hnf j (or_intror Hj)) Hfail) as [Hm Hans].
      split; [exact Hm|].
      intros j [<-|Hj]; [|exact (Hans j Hj)].
      unfold answered_status. rewrite Hsrv, Hst. discriminate.
    + destruct e; try discriminate.
Qed.

(** The counters of the accumulator are the sums of what the answers add. *)
Lemma merge_order_counters order r :
  insertedCount_ (merge_order srv operations order r)
  = (insertedCount_ r + sumZ (delta_of inserted_delta srv operations) order)%Z
  /\ matchedCount_ (merge_order srv operations order r)
     = (matchedCount_ r + sumZ (delta_of matched_delta srv operations) order)%Z
  /\ modifiedCount_ (merge_order srv operations order r)
     = (modifiedCount_ r + sumZ (delta_of modified_delta srv operations) order)%Z
  /\ deletedCount_ (merge_order srv operations order r)
     = (deletedCount_ r + sumZ (delta_of deleted_delta srv operations) order)%Z
  /\ upsertedCount_ (merge_order srv operations order r)
     = (upsertedCount_ r + sumZ (delta_of counted_upsert srv operations) order)%Z.
Proof.
  revert r. induction order as [|k rest IH]; intros r.
  - cbn. repeat split; lia.
  - rewrite merge_order_cons.
    destruct (IH (match answered_status srv operations k with
                  | Some st => addToBulkWriteResult r st k
                  | None => r
                  end)) as (H1 & H2 & H3 & H4 & H5).
    rewrite H1, H2, H3, H4, H5.
    assert (Hcons : forall f, sumZ f (k :: rest) = (f k + sumZ f rest)%Z)
      by reflexivity.
    rewrite !Hcons.
    generalize (sumZ (delta_of inserted_delta srv operations) rest)
               (sumZ (delta_of matched_delta srv operations) rest)
               (sumZ (delta_of modified_delta srv operations) rest)
               (sumZ (delta_of deleted_delta srv operations) rest)
               (sumZ (delta_of counted_upsert srv operations) rest).
    intros s1 s2 s3 s4 s5. unfold delta_of.
    destruct (answered_status srv operations k) as [st|];
      [|cbn; repeat split; lia].
    unfold inserted_delta, matched_delta, modified_delta, deleted_delta,
      counted_upsert.
    cbn. destruct (has_upsertedId st); repeat split; lia.
Qed.

(** An index of the upserted-id mapping is that of a request whose answer
    carried the id. *)
Lemma merge_order_upsertedIds order r i id :
  upsertedIds (merge_order srv operations order r) !! i = Some id ->
  upsertedIds r !! i = Some id
  \/ (In i order
      /\ exists st, answered_status srv operations i = Some st
                    /\ upsertedId st = Some id /\ truthy id = true).
Proof.
  revert r. induction order as [|k rest IH]; intros r H.
  - left. exact H.
  - rewrite merge_order_cons in H. apply IH in H as [H|(Hin & st & Hst)].
    + destruct (answered_status srv operations k) as [st|] eqn:Hans;
        [|left; exact H].
      cbn [addToBulkWriteResult upsertedIds] in H.
      destruct (upsertedId st) as [id'|] eqn:Hid; [|left; exact H].
      destruct (truthy id') eqn:Ht; [|left; exact H].
      destruct (decide (k = i)) as [->|Hne].
      * rewrite lookup_insert_eq in H. injection H as ->.
        right. split; [left; reflexivity|]. exists st. auto.
      * rewrite lookup_insert_ne in H by exact Hne. left. exact H.
    + right. split; [right; exact Hin|]. exists st. exact Hst.
Qed.

End BulkCompletions.

Section ChunkCompletions.

Variable srv : Service.
Variable documents : list jsval.
Variable chunkSize : nat.

Local Abbreviation replay_chunks :=
  (replay srv chunkSize (chunk_command documents chunkSize)
     insertMany_on_response insertMany_on_failure).

Lemma slice_min {X} (l : list X) i j :
  slice l i (Nat.min j (length l)) = slice l i j.
Proof.
  unfold slice.
  destruct (Nat.le_gt_cases j (length l)) as [Hle|Hgt].
  - rewrite Nat.min_l by exact Hle. reflexivity.
  - rewrite Nat.min_r by lia.
    rewrite !take_ge; [reflexivity | |]; rewrite length_drop; lia.
Qed.

Lemma chunk_command_chunk k :
  chunk_command documents chunkSize (k * chunkSize)
  = CmdInsertMany (chunk documents chunkSize k) false.
Proof. unfold chunk_command, chunk. rewrite slice_min. reflexivity. Qed.

Lemma replay_chunks_spec order ids fc fr ids' fc' fr' :
  replay_chunks order (ids, fc, fr) = Some (ids', fc', fr') ->
  (forall k, In k order -> chunk_is_fatal srv documents chunkSize k = false)
  /\ ids' = ids ++ flat_map (chunk_completion_ids srv documents chunkSize) order
  /\ fc' = fc ++ map command
                   (omap (chunk_failure_of srv documents chunkSize) order)
  /\ fr' = fr ++ map rawResponse
                   (omap (chunk_failure_of srv documents chunkSize) order).
Proof.
  revert ids fc fr. induction order as [|k rest IH]; intros ids fc fr H.
  - cbn in H. injection H as <- <- <-. cbn. rewrite !app_nil_r.
    repeat split; try reflexivity. intros k [].
  - cbn [replay] in H. unfold complete, attempt in H.
    rewrite chunk_command_chunk in H.
    unfold chunk_is_fatal, chunk_completion_ids, chunk_failure_of.
    cbn [flat_map omap list_omap].
    unfold insertMany_on_response, insertMany_on_failure in H.
    destruct (srv k (CmdInsertMany (chunk documents chunkSize k) false))
      as [resp|e] eqn:Hsrv.
    + destruct (IH _ _ _ H) as (Hnf & Hids & Hfc & Hfr).
      split; [intros j [<-|Hj]; [rewrite Hsrv; reflexivity | exact (Hnf j Hj)]|].
      rewrite ?Hsrv. rewrite app_assoc. repeat split; assumption.
    + destruct e; try discriminate.
      destruct (IH _ _ _ H) as (Hnf & Hids & Hfc & Hfr).
      split; [intros j [<-|Hj]; [rewrite Hsrv; reflexivity | exact (Hnf j Hj)]|].
      rewrite ?Hsrv. cbn [map]. rewrite app_assoc.
      rewrite <- !app_assoc in Hfc, Hfr.
      repeat split; assumption.
Qed.

End ChunkCompletions.

(* ===================================================================== *)
(** * The two unordered paths *)
(* ===================================================================== *)

Lemma map_operation_at operations m :
  m <= length operations ->
  map (fun k => operation_at operations (k * 1)) (seq 0 m) = take m operations.
Proof.
  intros Hm. apply list_eq. intros i.
  rewrite list_lookup_fmap.
  destruct (decide (i < m)) as [Hi|Hi].
  - rewrite lookup_seq_lt by exact Hi. cbn.
    rewrite lookup_take_lt by exact Hi.
    destruct (lookup_lt_is_Some_2 operations i ltac:(lia)) as [op Hop].
    rewrite Hop, Nat.mul_1_r. f_equal. apply operation_at_lookup. exact Hop.
  - rewrite lookup_seq_ge by lia. cbn.
    symmetry. apply lookup_ge_None_2. rewrite length_take. lia.
Qed.

(** [bulkWriteUnordered] at a point where every worker has returned. *)
Lemma bulkWriteUnordered_all_resolved srv operations parallel schedule :
  let p := bulkWriteUnordered_run srv operations parallel schedule in
  rejection p = None ->
  forallb is_Resolved (workers p) = true ->
  exists order,
    Permutation order (seq 0 (length (sent p)))
    /\ sent p = take (length (sent p)) operations
    /\ ((0 < parallel)%Z -> sent p = operations)
    /\ (forall k, In k order -> is_fatal srv operations k = false)
    /\ accumulated p
       = merge_completions srv operations order new_BulkWriteResult
    /\ failCommands p = map command (omap (failure_of srv operations) order)
    /\ failRaw p = map rawResponse (omap (failure_of srv operations) order).
Proof.
  intros p Hnone Hall.
  assert (Hbreak : forall i, i < length operations ->
                             (length operations <=? i) = false)
    by (intros i Hi; apply Nat.leb_gt; exact Hi).
  destruct (pool_all_resolved srv (length operations) 1
              (fun localI => length operations <=? localI)
              (operation_at operations) bulkWrite_on_response add_partial
              Nat.lt_0_1 Hbreak new_BulkWriteResult parallel schedule
              Hnone Hall) as (Hsent & Hlt & Hfull & order & Hperm & Hreplay).
  fold (bulkWriteUnordered_start operations parallel) in Hsent, Hlt, Hfull, Hperm, Hreplay.
  fold (bulkWriteUnordered_run srv operations parallel schedule) in Hsent, Hlt, Hfull, Hperm, Hreplay.
  fold p in Hsent, Hlt, Hfull, Hperm, Hreplay.
  assert (Hlen : length (sent p) <= length operations).
  { destruct (length (sent p)) as [|m] eqn:Hm; [lia|].
    specialize (Hlt m ltac:(lia)). lia. }
  assert (Htake : sent p = take (length (sent p)) operations).
  { rewrite Hsent at 1. apply map_operation_at. exact Hlen. }
  apply replay_bulk_spec in Hreplay as (Hnf & Hacc & Hfc & Hfr).
  exists order. split; [exact Hperm|]. split; [exact Htake|].
  split; [|split; [exact Hnf | split; [exact Hacc | split; assumption]]].
  intros Hpar. specialize (Hfull Hpar). rewrite Htake.
  apply take_ge. lia.
Qed.

Lemma insertManyUnordered_all_resolved srv documents parallel chunkSize schedule :
  0 < chunkSize ->
  let p := insertManyUnordered_run srv documents parallel chunkSize schedule in
  rejection p = None ->
  forallb is_Resolved (workers p) = true ->
  exists order,
    Permutation order (seq 0 (length (sent p)))
    /\ sent p = map (fun k => CmdInsertMany (chunk documents chunkSize k) false)
                    (seq 0 (length (sent p)))
    /\ length (sent p) <= chunk_count (length documents) chunkSize
    /\ ((0 < parallel)%Z ->
        length (sent p) = chunk_count (length documents) chunkSize)
    /\ (forall k, In k order -> chunk_is_fatal srv documents chunkSize k = false)
    /\ accumulated p
       = flat_map (chunk_completion_ids srv documents chunkSize) order
    /\ failCommands p
       = map command (omap (chunk_failure_of srv documents chunkSize) order)
    /\ failRaw p
       = map rawResponse (omap (chunk_failure_of srv documents chunkSize) order).
Proof.
  intros Hpos p Hnone Hall.
  assert (Hbreak : forall i, i < length documents ->
                             insertMany_stops_at documents chunkSize i = false).
  { intros i Hi. unfold insertMany_stops_at. apply Nat.leb_gt. lia. }
  destruct (pool_all_resolved srv (length documents) chunkSize
              (insertMany_stops_at documents chunkSize)
              (chunk_command documents chunkSize)
              insertMany_on_response insertMany_on_failure
              Hpos Hbreak [] parallel schedule
              Hnone Hall) as (Hsent & Hlt & Hfull & order & Hperm & Hreplay).
  fold (insertManyUnordered_start documents parallel chunkSize)
    in Hsent, Hlt, Hfull, Hperm, Hreplay.
  fold (insertManyUnordered_run srv documents parallel chunkSize schedule)
    in Hsent, Hlt, Hfull, Hperm, Hreplay.
  fold p in Hsent, Hlt, Hfull, Hperm, Hreplay.
  pose proof (fun k => chunk_count_spec (length documents) chunkSize k Hpos)
    as Hcount.
  apply replay_chunks_spec in Hreplay as (Hnf & Hacc & Hfc & Hfr).
  exists order. split; [exact Hperm|]. split.
  { rewrite Hsent at 1. apply map_ext. intros k. apply chunk_command_chunk. }
  assert (Hle : length (sent p) <= chunk_count (length documents) chunkSize).
  { destruct (length (sent p)) as [|m] eqn:Hm; [lia|].
    specialize (Hlt m ltac:(lia)). apply Hcount in Hlt. lia. }
  split; [exact Hle|]. split.
  { intros Hpar. specialize (Hfull Hpar).
    destruct (Nat.lt_ge_cases (length (sent p))
                (chunk_count (length documents) chunkSize)) as [H|H]; [|lia].
    apply Hcount in H. lia. }
  split; [exact Hnf|]. split; [exact Hacc|]. split; assumption.
Qed.


(* ===================================================================== *)
(** * Totals of completed runs *)
(* ===================================================================== *)

Lemma map_buildBulkWriteCommands_lookup operations commands :
  map_buildBulkWriteCommands operations = Returned commands ->
  forall i c, commands !! i = Some c ->
    exists op, operations !! i = Some op
               /\ buildBulkWriteCommands op = Returned c.
Proof.
  revert commands. induction operations as [|op rest IH]; intros commands H i c Hc.
  - cbn in H. injection H as <-. rewrite lookup_nil in Hc. discriminate.
  - cbn [map_buildBulkWriteCommands] in H.
    destruct (buildBulkWriteCommands op) as [c0|e] eqn:Hop; [|discriminate].
    destruct (map_buildBulkWriteCommands rest) as [cs|e]; [|discriminate].
    injection H as <-. destruct i as [|i].
    + cbn in Hc. injection Hc as <-. exists op. split; [reflexivity | exact Hop].
    + cbn in Hc. destruct (IH cs eq_refl i c Hc) as (op' & Hop' & Hb).
      exists op'. split; [exact Hop' | exact Hb].
Qed.

Lemma buildBulkWriteCommands_upsert op c :
  buildBulkWriteCommands op = Returned c ->
  is_upsert_command c = true -> is_upsert_operation op = true.
Proof.
  destruct op as [d|f r [[|]|]|f u [[|]|]|f u [[|]|]|f|f|n]; cbn;
    intros H; try discriminate; injection H as <-; cbn; congruence.
Qed.

Lemma length_flat_map_sumZ (f : nat -> list jsval) l :
  Z.of_nat (length (flat_map f l))
  = sumZ (fun k => Z.of_nat (length (f k))) l.
Proof.
  induction l as [|k l IH]; [reflexivity|].
  cbn [flat_map]. rewrite length_app, Nat2Z.inj_add, IH. reflexivity.
Qed.

(** What holds of an accumulator into which the answers to the requests 0
    to [m - 1] have been merged, in any order. *)
Lemma merged_totals srv commands order m results :
  Permutation order (seq 0 m) ->
  results = merge_order srv commands order new_BulkWriteResult ->
  insertedCount_ results = sumZ (delta_of inserted_delta srv commands) (seq 0 m)
  /\ matchedCount_ results = sumZ (delta_of matched_delta srv commands) (seq 0 m)
  /\ modifiedCount_ results
     = sumZ (delta_of modified_delta srv commands) (seq 0 m)
  /\ deletedCount_ results = sumZ (delta_of deleted_delta srv commands) (seq 0 m)
  /\ (upserted_ids_truthy srv commands m ->
      upsertedCount_ results
      = sumZ (delta_of upserted_delta srv commands) (seq 0 m))
  /\ (forall i id,
        upsertedIds results !! i = Some id ->
        i < m
        /\ exists st, answered_status srv commands i = Some st
                      /\ upsertedId st = Some id /\ truthy id = true).
Proof.
  intros Hperm ->.
  destruct (merge_order_counters srv commands order new_BulkWriteResult)
    as (H1 & H2 & H3 & H4 & H5).
  rewrite H1, H2, H3, H4, H5.
  rewrite !(sumZ_Permutation _ _ _ Hperm). cbn [new_BulkWriteResult
    insertedCount_ matchedCount_ modifiedCount_ deletedCount_ upsertedCount_].
  repeat (split; [lia|]).
  split.
  { intros Htruthy. rewrite Z.add_0_l. apply sumZ_ext_in.
    intros k Hk. apply in_seq in Hk. unfold delta_of.
    destruct (answered_status srv commands k) as [st|] eqn:Hans;
      [|reflexivity].
    cbn. unfold counted_upsert, upserted_delta, has_upsertedId.
    destruct (upsertedId st) as [id|] eqn:Hid; [|reflexivity].
    rewrite (Htruthy k st id ltac:(lia) Hans Hid). reflexivity. }
  intros i id Hi.
  apply merge_order_upsertedIds in Hi as [Hi|(Hin & st & Hst)].
  - cbn in Hi. rewrite lookup_empty in Hi. discriminate.
  - split; [|exists st; exact Hst].
    apply (Permutation_in _ Hperm), in_seq in Hin. lia.
Qed.

(** A pool none of whose workers awaits does not move. *)
Section IdlePool.

Context {A : Type}.
Variable srv : Service.
Variable total stride : nat.
Variable stops_at : nat -> bool.
Variable command_at : nat -> Command.
Variable on_response : A -> Response -> nat -> outcome A.
Variable on_failure : A -> ErrorDescriptor -> nat -> A.

Lemma resume_idle w (p : pool A) :
  awaited (workers p) = [] ->
  resume srv total stride stops_at command_at on_response on_failure w p = p.
Proof.
  intros Hidle. unfold resume.
  destruct (workers p !! w) as [[localI request| |e]|] eqn:Hw; try reflexivity.
  exfalso. apply take_drop_middle in Hw. rewrite <- Hw in Hidle.
  rewrite awaited_app in Hidle. cbn in Hidle.
  destruct (awaited (take w (workers p))); discriminate.
Qed.

Lemma run_idle schedule (p : pool A) :
  awaited (workers p) = [] ->
  run srv total stride stops_at command_at on_response on_failure schedule p = p.
Proof.
  intros Hidle. induction schedule as [|w rest IH]; [reflexivity|].
  unfold run in *. cbn [foldl]. rewrite resume_idle by exact Hidle. exact IH.
Qed.

(** With a stride of 0 and the [break] taken at once, no worker sends
    anything. *)
Lemma spawn_breaks n (p : pool A) :
  stride = 0 -> (forall i, i < total -> stops_at i = true) ->
  awaited (workers p) = [] ->
  awaited (workers (spawn total stride stops_at command_at n p)) = []
  /\ sent (spawn total stride stops_at command_at n p) = sent p
  /\ accumulated (spawn total stride stops_at command_at n p) = accumulated p
  /\ failCommands (spawn total stride stops_at command_at n p) = failCommands p
  /\ rejection (spawn total stride stops_at command_at n p) = rejection p.
Proof.
  intros Hstride Hbreak. revert p. induction n as [|n IH]; intros p Hidle.
  - cbn. repeat split; try reflexivity. exact Hidle.
  - assert (Hloop : exists q,
              worker_loop total stride stops_at command_at p = (Resolved, q)
              /\ workers q = workers p /\ sent q = sent p
              /\ accumulated q = accumulated p
              /\ failCommands q = failCommands p
              /\ rejection q = rejection p).
    { unfold worker_loop. destruct (masterIndex p <? total) eqn:Hlt.
      + apply Nat.ltb_lt in Hlt. rewrite (Hbreak _ Hlt).
        eexists. split; [reflexivity|]. cbn. repeat split; reflexivity.
      + exists p. repeat split; reflexivity. }
    destruct Hloop as (q & Hq & Hw & Hs & Ha & Hf & Hr).
    cbn [spawn]. rewrite Hq.
    destruct (IH (push_worker Resolved q)) as (H1 & H2 & H3 & H4 & H5).
    { cbn. rewrite awaited_app, Hw, Hidle. reflexivity. }
    rewrite H1, H2, H3, H4, H5. cbn. repeat split; congruence.
Qed.

End IdlePool.

Lemma omap_nil_inv {X Y} (f : X -> option Y) l :
  omap f l = [] -> forall x, In x l -> f x = None.
Proof.
  induction l as [|y l IH]; intros H x Hx; [destruct Hx|].
  cbn [omap list_omap] in H. destruct (f y) eqn:Hy; [discriminate|].
  destruct Hx as [<-|Hx]; [exact Hy | apply IH; assumption].
Qed.

Lemma chunk_completion_ids_answered srv documents chunkSize order :
  omap (chunk_failure_of srv documents chunkSize) order = [] ->
  flat_map (chunk_completion_ids srv documents chunkSize) order
  = flat_map (answered_ids srv documents chunkSize false) order.
Proof.
  intros H. pose proof (omap_nil_inv _ _ H) as Hnone. clear H.
  induction order as [|k rest IH]; [reflexivity|].
  cbn [flat_map]. rewrite IH by (intros x Hx; apply Hnone; right; exact Hx).
  f_equal. specialize (Hnone k (or_introl eq_refl)).
  unfold chunk_failure_of in Hnone.
  unfold chunk_completion_ids, answered_ids.
  destruct (srv k _) as [resp|e]; [reflexivity|].
  destruct e; try reflexivity. discriminate.
Qed.

(** A completed bulk write, on either path. *)
Lemma bulkWrite_completed srv commands options schedule results sent :
  (if bulkWrite_ordered options
   then let '(r, sent) := bulkWriteOrdered srv commands in (Some r, sent)
   else bulkWriteUnordered srv commands (bulkWrite_pool_size options) schedule)
  = (Some (Returned results), sent) ->
  exists order,
    Permutation order (seq 0 (length sent))
    /\ sent = take (length sent) commands
    /\ (bulkWrite_ordered options = true
        \/ (0 < bulkWrite_pool_size options)%Z -> sent = commands)
    /\ results = merge_order srv commands order new_BulkWriteResult.
Proof.
  destruct (bulkWrite_ordered options) eqn:Hord.
  - unfold bulkWriteOrdered.
    destruct (bulkWriteOrdered_from srv commands 0 new_BulkWriteResult [])
      as [r sent0] eqn:Hrun.
    intros H. injection H as -> ->.
    pose proof (bulkWriteOrdered_from_returned srv commands (length commands)
                  0 new_BulkWriteResult results sent eq_refl) as Hret.
    rewrite drop_0, take_0 in Hret.
    destruct (Hret Hrun) as (-> & Hr & _).
    exists (seq 0 (length commands)).
    split; [reflexivity|]. split; [rewrite take_ge; [reflexivity | lia]|].
    split; [reflexivity | exact Hr].
  - unfold bulkWriteUnordered.
    set (p := bulkWriteUnordered_run srv commands (bulkWrite_pool_size options)
                schedule).
    intros H. injection H as Hsettle Hsent. unfold settle in Hsettle.
    destruct (rejection p) eqn:Hrej; [discriminate|].
    destruct (forallb is_Resolved (workers p)) eqn:Hall; [|discriminate].
    destruct (0 <? length (failCommands p)) eqn:Hfail; [discriminate|].
    injection Hsettle as Hres.
    destruct (bulkWriteUnordered_all_resolved srv commands
                (bulkWrite_pool_size options) schedule Hrej Hall)
      as (order & Hperm & Htake & Hfull & Hnf & Hacc & Hfc & _).
    fold p in Hperm, Htake, Hfull, Hacc, Hfc.
    apply Nat.ltb_ge in Hfail.
    assert (Hnofail : omap (failure_of srv commands) order = []).
    { destruct (omap (failure_of srv commands) order) eqn:Ho; [reflexivity|].
      rewrite Hfc in Hfail. cbn in Hfail. lia. }
    destruct (merge_completions_no_failure srv commands order
                new_BulkWriteResult Hnf Hnofail) as [Hmerge _].
    exists order. rewrite <- Hsent.
    split; [exact Hperm|]. split; [exact Htake|]. split.
    + intros [Habs|Hpar]; [discriminate | exact (Hfull Hpar)].
    + rewrite <- Hres, Hacc. exact Hmerge.
Qed.

(* ===================================================================== *)
(** * Properties of the cursor *)
(* ===================================================================== *)

Module CursorFacts.

Import Cursor.

Section Traversal.

Variable find : jsval -> FindOptions -> list (list jsval).

Lemma same_query_refl c : same_query c c.
Proof. repeat split. Qed.

Lemma same_query_trans c1 c2 c3 :
  same_query c1 c2 -> same_query c2 c3 -> same_query c1 c3.
Proof.
  intros (H1 & H2 & H3 & H4) (H5 & H6 & H7 & H8).
  repeat split; congruence.
Qed.

Lemma same_query_traversal c c' :
  same_query c c' -> traversal find c' = traversal find c.
Proof. intros (_ & Hf & Ho & _). unfold traversal. rewrite Hf, Ho. reflexivity. Qed.

Lemma same_query_full_result c c' :
  same_query c c' -> full_result find c' = full_result find c.
Proof.
  intros (_ & Hf & Ho & Hm). unfold full_result, apply_mapping.
  rewrite Hf, Ho, Hm. reflexivity.
Qed.

Lemma full_result_traversal c :
  full_result find c = map (apply_mapping c) (traversal find c).
Proof. reflexivity. Qed.

Lemma close_closed c : state c = CLOSED -> close c = c.
Proof. destruct c; cbn. intros ->. reflexivity. Qed.

Lemma same_query_close c : same_query c (close c).
Proof. repeat split. Qed.

Lemma same_query_rewind c : same_query c (rewind c).
Proof. repeat split. Qed.

Lemma rewind_same_query c c' : same_query c c' -> rewind c' = rewind c.
Proof.
  intros (H1 & H2 & H3 & H4). unfold rewind. rewrite H1, H2, H3, H4.
  reflexivity.
Qed.

(** A rewound cursor is at the start of a traversal. *)
Lemma traversing_rewind c : traversing find (rewind c) [].
Proof.
  unfold traversing. cbn.
  split; [discriminate|]. split; [reflexivity|]. split; [lia|].
  split; [auto|]. split; [discriminate|]. split; [|discriminate].
  intros _. split; [reflexivity | lia].
Qed.

Ltac cursor_simpl :=
  cbn [namespace filter options state buffer pageState consumed mapping
       more_pages].

Lemma concat_drop_nth (pages : list (list jsval)) k :
  concat (drop k pages) = nth k pages [] ++ concat (drop (S k) pages).
Proof.
  revert k. induction pages as [|pg pages IH]; intros k.
  - rewrite !drop_nil. destruct k; reflexivity.
  - destruct k as [|k]; [reflexivity|]. cbn. apply IH.
Qed.

Lemma pages_left_bound c :
  pages_left find c <= S (length (find (filter c) (options c))).
Proof.
  unfold pages_left, upstream. destruct (more_pages c); [|lia].
  destruct (state c); [lia| |];
    (destruct (pageState c); [rewrite length_drop|cbn]; lia).
Qed.

(** A fetch on an empty buffer keeps the cursor in its traversal and brings
    it nearer to the last page. *)
Lemma traversing_fetchNextPage c yielded :
  traversing find c yielded -> buffer c = [] -> more_pages c = true ->
  traversing find (fetchNextPage find c) yielded
  /\ same_query c (fetchNextPage find c)
  /\ pages_left find (fetchNextPage find c) < pages_left find c.
Proof.
  intros (Hstate & Hcons & Hlen & Hun & Htok & Hmore & _) Hbuf Hmp.
  destruct (Hmore Hmp) as [Hall Hlim].
  destruct c as [ns f o st buf tok cons mp].
  cbn in Hstate, Hcons, Hlen, Hun, Htok, Hmore, Hbuf, Hmp, Hall, Hlim.
  subst buf.
  set (pages := find f o) in *.
  assert (Hup : upstream find {| namespace := ns; filter := f; options := o;
                   state := st; buffer := []; pageState := tok;
                   consumed := cons; mapping := mp |}
                = drop (default 0 tok) pages
                  /\ (default 0 tok < length pages \/ st = UNINITIALIZED)).
  { unfold upstream. cbn. fold pages. destruct st; cbn in Hmp.
    - destruct (Hun eq_refl) as (-> & _). cbn. rewrite drop_0. auto.
    - destruct tok as [k|]; [|discriminate]. cbn. split; [reflexivity|].
      left. apply Htok; reflexivity.
    - discriminate. }
  destruct Hup as [Hup Hvalid]. rewrite Hup in Hall.
  rewrite concat_drop_nth in Hall. cbn [app] in Hall.
  set (k := default 0 tok) in *.
  set (docs := nth k pages []) in *.
  assert (Hsize : length (concat pages)
                  = length yielded + length docs
                    + length (concat (drop (S k) pages))).
  { rewrite <- Hall, !length_app. lia. }
  unfold pages_left at 2. cbn [more_pages state pageState]. rewrite Hmp, Hup.
  assert (Hfetch :
    fetchNextPage find {| namespace := ns; filter := f; options := o;
                          state := st; buffer := []; pageState := tok;
                          consumed := cons; mapping := mp |}
    = if (0 <? limit o) && (limit o <? cons + length docs) then
        {| namespace := ns; filter := f; options := o;
           state := INITIALIZED; buffer := take (limit o - cons) docs;
           pageState := None; consumed := cons; mapping := mp |}
      else
        {| namespace := ns; filter := f; options := o;
           state := INITIALIZED; buffer := docs;
           pageState := if S k <? length pages then Some (S k) else None;
           consumed := cons; mapping := mp |}) by reflexivity.
  rewrite Hfetch. clear Hfetch.
  assert (Htrav : traversal find {| namespace := ns; filter := f; options := o;
                    state := INITIALIZED; buffer := [];
                    pageState := None; consumed := cons; mapping := mp |}
                  = if 0 <? limit o then take (limit o) (concat pages)
                    else concat pages) by reflexivity.
  unfold traversal in Hlen. cbn [filter options] in Hlen. fold pages in Hlen.
  destruct ((0 <? limit o) && (limit o <? cons + length docs)) eqn:Htrunc.
  - (* the page goes past the limit *)
    apply andb_true_iff in Htrunc as [Hpos Hover].
    apply Nat.ltb_lt in Hpos, Hover. specialize (Hlim Hpos).
    split; [|split; [repeat split | unfold pages_left; cbn; lia]].
    unfold traversing, traversal. cursor_simpl. fold pages.
    assert (Hposb : (0 <? limit o) = true) by (apply Nat.ltb_lt; exact Hpos).
    rewrite Hposb.
    split; [discriminate|]. split; [exact Hcons|].
    split; [rewrite !length_take; lia|].
    split; [discriminate|]. split; [discriminate|]. split; [discriminate|].
    intros _. rewrite <- Hall.
    rewrite take_app_ge by lia. f_equal.
    rewrite take_app_le by lia. f_equal. lia.
  - (* the whole page is buffered *)
    assert (Hfit : 0 < limit o -> cons + length docs <= limit o).
    { intros Hpos. apply andb_false_iff in Htrunc as [H|H].
      - apply Nat.ltb_ge in H. lia.
      - apply Nat.ltb_ge in H. exact H. }
    destruct (S k <? length pages) eqn:Hnext.
    + apply Nat.ltb_lt in Hnext.
      split; [|split; [repeat split|]].
      * unfold traversing, traversal, upstream. cursor_simpl. fold pages.
        split; [discriminate|]. split; [exact Hcons|].
        split.
        { destruct (0 <? limit o) eqn:Hpos.
          - apply Nat.ltb_lt in Hpos. rewrite length_take. specialize (Hfit Hpos). lia.
          - lia. }
        split; [discriminate|].
        split; [intros _ k' Hk'; injection Hk' as <-; exact Hnext|].
        split; [intros _; split; [exact Hall | exact Hfit]|discriminate].
      * unfold pages_left, upstream. cursor_simpl. fold pages.
        rewrite !length_drop. lia.
    + apply Nat.ltb_ge in Hnext.
      rewrite (drop_ge pages (S k)) in Hall, Hsize by lia.
      cbn in Hall, Hsize. rewrite app_nil_r in Hall.
      split; [|split; [repeat split | unfold pages_left; cbn; lia]].
      unfold traversing, traversal. cursor_simpl. fold pages.
      split; [discriminate|]. split; [exact Hcons|].
      assert (Heq : (if 0 <? limit o then take (limit o) (concat pages)
                     else concat pages) = concat pages).
      { destruct (0 <? limit o) eqn:Hpos; [|reflexivity].
        apply Nat.ltb_lt in Hpos. specialize (Hfit Hpos).
        apply take_ge. lia. }
      rewrite Heq.
      split; [lia|]. split; [discriminate|]. split; [discriminate|].
      split; [discriminate|]. intros _. exact Hall.
Qed.

(** [fill] brings a document into the buffer or exhausts the pages. *)
Lemma fill_traversing fuel :
  forall c yielded,
    traversing find c yielded -> pages_left find c <= fuel ->
    exists c',
      fill find fuel c = Some c'
      /\ traversing find c' yielded /\ same_query c c'
      /\ (buffer c' = [] -> more_pages c' = false).
Proof.
  induction fuel as [|fuel IH]; intros c yielded Htr Hfuel.
  - unfold pages_left in Hfuel.
    destruct (more_pages c) eqn:Hmp; [lia|].
    exists c. cbn [fill]. rewrite Hmp.
    destruct (buffer c) eqn:Hbuf;
      (split; [reflexivity|]; split; [exact Htr|];
       split; [apply same_query_refl|]); [auto | discriminate].
  - cbn [fill]. destruct (buffer c) as [|doc rest] eqn:Hbuf.
    + destruct (more_pages c) eqn:Hmp.
      * destruct (traversing_fetchNextPage c yielded Htr Hbuf Hmp)
          as (Htr' & Hsame & Hless).
        destruct (IH _ yielded Htr' ltac:(lia)) as (c' & Hfill & Htr'' & Hsame' & Hend).
        exists c'. split; [exact Hfill|]. split; [exact Htr''|].
        split; [exact (same_query_trans _ _ _ Hsame Hsame') | exact Hend].
      * exists c. split; [reflexivity|]. split; [exact Htr|].
        split; [apply same_query_refl | auto].
    + exists c. split; [reflexivity|]. split; [exact Htr|].
      split; [apply same_query_refl|]. rewrite Hbuf. discriminate.
Qed.

(** Popping the first buffered document goes on with the traversal. *)
Lemma traversing_pop c yielded doc rest :
  traversing find c yielded -> buffer c = doc :: rest ->
  traversing find
    {| namespace := namespace c; filter := filter c; options := options c;
       state := state c; buffer := rest; pageState := pageState c;
       consumed := S (consumed c); mapping := mapping c |}
    (yielded ++ [doc]).
Proof.
  intros (Hstate & Hcons & Hlen & Hun & Htok & Hmore & Hlast) Hbuf.
  destruct c as [ns f o st buf tok cons mp].
  cbn in Hstate, Hcons, Hun, Htok, Hbuf. subst buf.
  unfold traversing, traversal, upstream in *. cursor_simpl.
  cbn [namespace filter options state buffer pageState consumed mapping
       more_pages] in Hlen, Hmore, Hlast.
  rewrite length_app. cbn [length] in *.
  split; [exact Hstate|]. split; [lia|]. split; [lia|].
  split; [intros Hst; destruct (Hun Hst) as (_ & Habs & _); discriminate|].
  split; [exact Htok|]. split.
  - intros Hmp. destruct (Hmore Hmp) as [Hall Hlim]. split.
    + rewrite <- Hall, <- !app_assoc. reflexivity.
    + intros Hpos. specialize (Hlim Hpos). lia.
  - intros Hmp. rewrite <- (Hlast Hmp), <- app_assoc. reflexivity.
Qed.

(** [next] in the course of a traversal: it ends the traversal, everything
    having been yielded, or yields the next document. *)
Lemma next_traversing fuel c yielded :
  traversing find c yielded ->
  S (length (find (filter c) (options c))) <= fuel ->
  (exists c',
     next find fuel c = Some (None, c')
     /\ state c' = CLOSED /\ same_query c c'
     /\ yielded = traversal find c)
  \/ (exists doc c',
        next find fuel c = Some (Some (apply_mapping c doc), c')
        /\ traversing find c' (yielded ++ [doc]) /\ same_query c c').
Proof.
  intros Htr Hfuel. pose proof Htr as (Hstate & _).
  destruct (fill_traversing fuel c yielded Htr
              ltac:(pose proof (pages_left_bound c); lia))
    as (c' & Hfill & Htr' & Hsame & Hend).
  assert (Hnext : next find fuel c
                  = match buffer c' with
                    | [] => Some (None, close c')
                    | doc :: rest =>
                        Some (Some (apply_mapping c' doc),
                              {| namespace := namespace c'; filter := filter c';
                                 options := options c'; state := state c';
                                 buffer := rest; pageState := pageState c';
                                 consumed := S (consumed c');
                                 mapping := mapping c' |})
                    end).
  { unfold next. destruct (state c); [| |contradiction]; rewrite Hfill;
      reflexivity. }
  rewrite Hnext. destruct (buffer c') as [|doc rest] eqn:Hbuf.
  - left. exists (close c'). split; [reflexivity|]. split; [reflexivity|].
    split; [exact (same_query_trans _ _ _ Hsame (same_query_close c'))|].
    destruct Htr' as (_ & _ & _ & _ & _ & _ & Hlast).
    specialize (Hlast (Hend eq_refl)). rewrite Hbuf, app_nil_r in Hlast.
    rewrite Hlast. apply same_query_traversal. exact Hsame.
  - right. exists doc. eexists. split; [|split].
    + assert (Hmap : apply_mapping c' doc = apply_mapping c doc).
      { destruct Hsame as (_ & _ & _ & Hm). unfold apply_mapping.
        rewrite Hm. reflexivity. }
      rewrite Hmap. reflexivity.
    + apply traversing_pop; assumption.
    + destruct Hsame as (H1 & H2 & H3 & H4). repeat split; assumption.
Qed.

(** The loop of [toArray], from any point of a traversal. *)
Lemma toArray_loop_traversing n :
  forall fuel c yielded,
    traversing find c yielded ->
    length (traversal find c) - length yielded < n ->
    S (length (find (filter c) (options c))) <= fuel ->
    exists c',
      toArray_loop find n fuel c (map (apply_mapping c) yielded)
      = Some (full_result find c, c')
      /\ state c' = CLOSED /\ same_query c c'.
Proof.
  induction n as [|n IH]; intros fuel c yielded Htr Hn Hfuel; [lia|].
  cbn [toArray_loop].
  destruct (next_traversing fuel c yielded Htr Hfuel)
    as [(c' & Hnext & Hclosed & Hsame & Hall)
       |(doc & c' & Hnext & Htr' & Hsame)]; rewrite Hnext.
  - exists (close c'). split; [|split; [reflexivity|]].
    + rewrite full_result_traversal, <- Hall. reflexivity.
    + exact (same_query_trans _ _ _ Hsame (same_query_close c')).
  - pose proof Htr' as (_ & _ & Hlen & _).
    rewrite length_app in Hlen. cbn [length] in Hlen.
    rewrite (same_query_traversal c c' Hsame) in Hlen.
    destruct Hsame as (S1 & S2 & S3 & S4).
    destruct (IH fuel c' (yielded ++ [doc]) Htr') as (cf & Hloop & Hcf & Hsamef).
    + rewrite (same_query_traversal c c' (conj S1 (conj S2 (conj S3 S4)))).
      rewrite length_app. cbn [length]. lia.
    + rewrite S2, S3. exact Hfuel.
    + exists cf. split; [|split; [exact Hcf|]].
      * rewrite <- (same_query_full_result c c'
                      (conj S1 (conj S2 (conj S3 S4)))).
        rewrite <- Hloop, map_app. cbn [map]. unfold apply_mapping.
        rewrite S4. reflexivity.
      * exact (same_query_trans _ _ _ (conj S1 (conj S2 (conj S3 S4))) Hsamef).
Qed.

(** [toArray] on a closed cursor yields nothing and leaves it as it is. *)
Lemma toArray_closed fuel c :
  0 < fuel -> state c = CLOSED -> toArray find fuel c = Some ([], c).
Proof.
  intros Hfuel Hc. destruct fuel as [|fuel]; [lia|].
  unfold toArray. cbn [toArray_loop]. unfold next. rewrite Hc.
  rewrite (close_closed c Hc). reflexivity.
Qed.

(** [toArray] on a rewound cursor yields the full result and closes it. *)
Lemma toArray_rewind fuel c :
  enough_fuel find c <= fuel ->
  exists c',
    toArray find fuel (rewind c) = Some (full_result find c, c')
    /\ state c' = CLOSED /\ same_query c c'.
Proof.
  intros Hfuel. unfold enough_fuel in Hfuel.
  destruct (toArray_loop_traversing fuel fuel (rewind c) []
              (traversing_rewind c)) as (c' & Hloop & Hc & Hsame).
  - cbn [length]. rewrite (same_query_traversal c _ (same_query_rewind c)).
    unfold traversal. destruct (0 <? _); [rewrite length_take|]; lia.
  - cbn. lia.
  - exists c'. split; [|split; [exact Hc|]].
    + rewrite <- (same_query_full_result c _ (same_query_rewind c)).
      exact Hloop.
    + exact (same_query_trans _ _ _ (same_query_rewind c) Hsame).
Qed.

End Traversal.

End CursorFacts.

(* ===================================================================== *)
(** * What an accumulator holds, counter by counter *)
(* ===================================================================== *)

(** The upserted ids after the answers to distinct requests have been
    merged: one entry for every answer that carries an upserted id, and as
    many entries as [upsertedCount] says. *)
Lemma merge_order_upserted srv operations order :
  NoDup order ->
  forall r,
    (forall k, In k order -> upsertedIds r !! k = None) ->
    upsertedCount_ r = Z.of_nat (size (upsertedIds r)) ->
    upsertedCount_ (merge_order srv operations order r)
    = Z.of_nat (size (upsertedIds (merge_order srv operations order r)))
    /\ forall i,
         upsertedIds (merge_order srv operations order r) !! i
         = match upsertedIds r !! i with
           | Some id => Some id
           | None => if bool_decide (i ∈ order)
                     then reported_upsert srv operations i
                     else None
           end.
Proof.
  induction 1 as [|k rest Hk Hnd IH]; intros r Hfresh Hcount.
  - cbn. split; [exact Hcount|]. intros i.
    rewrite bool_decide_eq_false_2 by (apply not_elem_of_nil).
    destruct (upsertedIds r !! i); reflexivity.
  - rewrite merge_order_cons.
    set (r1 := match answered_status srv operations k with
               | Some st => addToBulkWriteResult r st k
               | None => r
               end).
    assert (Hr1 : upsertedCount_ r1 = Z.of_nat (size (upsertedIds r1))
                  /\ forall i, upsertedIds r1 !! i
                               = if decide (i = k)
                                 then reported_upsert srv operations k
                                 else upsertedIds r !! i).
    { unfold r1, reported_upsert, addToBulkWriteResult, has_upsertedId.
      pose proof (Hfresh k (or_introl eq_refl)) as Hnone.
      destruct (answered_status srv operations k) as [st|]; cbn.
      - destruct (upsertedId st) as [id|]; cbn.
        + destruct (truthy id).
          * split.
            -- rewrite map_size_insert_None by exact Hnone. lia.
            -- intros i. destruct (decide (i = k)) as [->|Hne].
               ++ apply lookup_insert_eq.
               ++ apply lookup_insert_ne. congruence.
          * split; [exact Hcount|]. intros i.
            destruct (decide (i = k)) as [->|Hne]; [exact Hnone | reflexivity].
        + split; [exact Hcount|]. intros i.
          destruct (decide (i = k)) as [->|Hne]; [exact Hnone | reflexivity].
      - split; [exact Hcount|]. intros i.
        destruct (decide (i = k)) as [->|Hne]; [exact Hnone | reflexivity]. }
    destruct Hr1 as [Hc1 Hl1].
    destruct (IH r1) as [Hc2 Hl2].
    { intros j Hj. rewrite Hl1.
      destruct (decide (j = k)) as [->|Hne];
        [exfalso; apply Hk, list_elem_of_In, Hj|].
      apply Hfresh. right. exact Hj. }
    { exact Hc1. }
    split; [exact Hc2|]. intros i. rewrite Hl2, Hl1.
    destruct (decide (i = k)) as [->|Hne].
    + rewrite (Hfresh k (or_introl eq_refl)).
      rewrite (bool_decide_eq_true_2 (k ∈ k :: rest))
        by (apply list_elem_of_here).
      rewrite bool_decide_eq_false_2 by exact Hk.
      destruct (reported_upsert srv operations k); reflexivity.
    + destruct (upsertedIds r !! i); [reflexivity|].
      destruct (bool_decide (i ∈ rest)) eqn:Hin.
      * apply bool_decide_eq_true_1 in Hin.
        rewrite bool_decide_eq_true_2
          by (apply list_elem_of_further; exact Hin).
        reflexivity.
      * apply bool_decide_eq_false_1 in Hin.
        rewrite bool_decide_eq_false_2; [reflexivity|].
        intros Hin'. apply elem_of_cons in Hin' as [Heq|Hin'];
          [congruence | contradiction].
Qed.

Lemma merge_order_raw srv operations order :
  forall r,
    getRawResponse (merge_order srv operations order r)
    = getRawResponse r ++ omap (answered_status srv operations) order.
Proof.
  induction order as [|k rest IH]; intros r.
  - cbn. rewrite app_nil_r. reflexivity.
  - rewrite merge_order_cons, IH. cbn [omap list_omap].
    destruct (answered_status srv operations k) as [st|].
    + cbn [addToBulkWriteResult getRawResponse]. rewrite <- app_assoc.
      reflexivity.
    + reflexivity.
Qed.








Section PoolProgress.

Context {A : Type}.
Variable srv : Service.
Variable total stride : nat.
Variable stops_at : nat -> bool.
Variable command_at : nat -> Command.
Variable on_response : A -> Response -> nat -> outcome A.
Variable on_failure : A -> ErrorDescriptor -> nat -> A.




End PoolProgress.


(** The same for the chunks of an unordered [insertMany]. *)
Lemma insertManyUnordered_sent_prefix srv documents parallel chunkSize
    schedule :
  0 < chunkSize ->
  let p := insertManyUnordered_run srv documents parallel chunkSize schedule in
  sent p = map (fun k => CmdInsertMany (chunk documents chunkSize k) false)
               (seq 0 (length (sent p)))
  /\ masterIndex p = length (sent p) * chunkSize.
Proof.
  intros Hpos p.
  assert (Hbreak : forall i, i < length documents ->
                     insertMany_stops_at documents chunkSize i = false).
  { intros i Hi. unfold insertMany_stops_at. apply Nat.leb_gt. lia. }
  pose proof (invariant_run srv (length documents) chunkSize
                (insertMany_stops_at documents chunkSize)
                (chunk_command documents chunkSize)
                insertMany_on_response insertMany_on_failure
                Hpos Hbreak [] schedule _
                (invariant_start srv (length documents) chunkSize
                   (insertMany_stops_at documents chunkSize)
                   (chunk_command documents chunkSize)
                   insertMany_on_response insertMany_on_failure
                   Hpos Hbreak [] parallel))
    as (Hmi & Hsent & _).
  fold (insertManyUnordered_start documents parallel chunkSize) in Hmi, Hsent.
  fold (insertManyUnordered_run srv documents parallel chunkSize schedule)
    in Hmi, Hsent.
  fold p in Hmi, Hsent.
  split; [|exact Hmi].
  rewrite Hsent at 1. apply map_ext. intros k. apply chunk_command_chunk.
Qed.

(** ** What [insertMany] has sent, at any point and whatever the outcome *)

Lemma take_chunks documents chunkSize n :
  n <= chunk_count (length documents) chunkSize ->
  take n (chunks documents chunkSize)
  = map (chunk documents chunkSize) (seq 0 n).
Proof.
  intros Hn. unfold chunks. rewrite firstn_map, take_seq.
  rewrite Nat.min_l by exact Hn. reflexivity.
Qed.

Lemma insertManyOrdered_from_sent srv documents chunkSize :
  0 < chunkSize ->
  forall fuel k0 ids out sent,
    k0 <= chunk_count (length documents) chunkSize ->
    insertManyOrdered_from fuel srv documents chunkSize (k0 * chunkSize) ids
      (map (ordered_chunk_command documents chunkSize) (seq 0 k0))
    = Some (out, sent) ->
    exists n,
      k0 <= n <= chunk_count (length documents) chunkSize
      /\ sent = map (ordered_chunk_command documents chunkSize) (seq 0 n).
Proof.
  intros Hpos. induction fuel as [|fuel IH]; intros k0 ids out sent Hk0 H.
  - cbn [insertManyOrdered_from] in H.
    destruct (length documents <=? k0 * chunkSize); [|discriminate].
    injection H as <- <-. exists k0. split; [lia | reflexivity].
  - destruct (Nat.le_gt_cases (length documents) (k0 * chunkSize)) as [Hge|Hlt].
    + cbn [insertManyOrdered_from] in H. apply Nat.leb_le in Hge.
      rewrite Hge in H. injection H as <- <-. exists k0.
      split; [lia | reflexivity].
    + rewrite insertManyOrdered_step in H by exact Hlt.
      assert (Hk : k0 < chunk_count (length documents) chunkSize)
        by (apply chunk_count_spec; assumption).
      destruct (srv k0 (ordered_chunk_command documents chunkSize k0))
        as [resp|e].
      * destruct (IH (S k0) _ out sent Hk H) as (n & Hn & Hs).
        exists n. split; [lia | exact Hs].
      * exists (S k0). split; [lia|].
        destruct e; cbv zeta in H; injection H as _ <-; reflexivity.
Qed.

(** The commands that the ordered path has sent when it stops are those of
    the first chunks, in order. *)
Lemma insertManyOrdered_sent_chunks srv documents chunkSize fuel out sent :
  0 < chunkSize ->
  insertManyOrdered fuel srv documents chunkSize = Some (out, sent) ->
  sent = map (fun c => CmdInsertMany c true)
             (take (length sent) (chunks documents chunkSize)).
Proof.
  intros Hpos H. unfold insertManyOrdered in H.
  destruct (insertManyOrdered_from_sent srv documents chunkSize Hpos fuel 0 []
              out sent ltac:(lia) H) as (n & Hn & Hs).
  assert (Hlen : length sent = n) by (rewrite Hs, length_map, length_seq; lia).
  rewrite Hlen, take_chunks by lia. rewrite map_map. exact Hs.
Qed.

(** The commands that the unordered path has sent, at any point of a run,
    are those of the first chunks, in order. *)
Lemma insertManyUnordered_sent_chunks srv documents parallel chunkSize
    schedule :
  0 < chunkSize ->
  let p := insertManyUnordered_run srv documents parallel chunkSize schedule in
  sent p = map (fun c => CmdInsertMany c false)
               (take (length (sent p)) (chunks documents chunkSize)).
Proof.
  intros Hpos p.
  assert (Hbreak : forall i, i < length documents ->
                     insertMany_stops_at documents chunkSize i = false).
  { intros i Hi. unfold insertMany_stops_at. apply Nat.leb_gt. lia. }
  pose proof (invariant_run srv (length documents) chunkSize
                (insertMany_stops_at documents chunkSize)
                (chunk_command documents chunkSize)
                insertMany_on_response insertMany_on_failure
                Hpos Hbreak [] schedule _
                (invariant_start srv (length documents) chunkSize
                   (insertMany_stops_at documents chunkSize)
                   (chunk_command documents chunkSize)
                   insertMany_on_response insertMany_on_failure
                   Hpos Hbreak [] parallel))
    as (_ & _ & Hbound & _).
  fold (insertManyUnordered_start documents parallel chunkSize) in Hbound.
  fold (insertManyUnordered_run srv documents parallel chunkSize schedule)
    in Hbound.
  fold p in Hbound.
  assert (Hle : length (sent p) <= chunk_count (length documents) chunkSize).
  { destruct (length (sent p)) as [|n] eqn:Hn; [lia|].
    assert (n < chunk_count (length documents) chunkSize); [|lia].
    apply chunk_count_spec; [exact Hpos|]. apply Hbound. lia. }
  rewrite take_chunks by exact Hle. rewrite map_map.
  apply (insertManyUnordered_sent_prefix srv documents parallel chunkSize
           schedule Hpos).
Qed.
(* ===================================================================== *)
(** * The bulk-mutation orchestrator *)
(* ===================================================================== *)









(** C3.  When [bulkWrite] returns, the counters [insertedCount],
    [matchedCount], [modifiedCount] and [deletedCount] of the result are the
    sums, over the requests sent, of what each response adds, and so is
    [upsertedCount], one for each response that carries an upserted id, as
    long as the upserted ids that the service reports are truthy.  On the
    ordered path, and on the unordered path with at least one worker, the
    requests sent are those of all the operations.  An index of the
    upserted-id mapping is that of an operation whose response carried that
    id, and that operation is a [replaceOne], [updateOne] or [updateMany]
    with [upsert: true] when the service reports an upserted id only in its
    answers to upserting commands.  When [insertMany] returns,
    [insertedCount] is the number of inserted ids and the sum of the numbers
    of ids in the responses.  An upserted id that is falsy is lost: the
    upsert of the document whose [_id] is 0, answered with the upserted id 0,
    gives a result whose [upsertedCount] is 0 and whose mapping is empty,
    where the response carried an upserted id and the sum of the deltas is
    1. *)
Theorem C3_totals_are_sums_of_response_deltas :
  (forall srv operations options schedule results sent,
     Collection_bulkWrite srv operations options schedule
     = (Some (Returned results), sent) ->
     exists commands,
       map_buildBulkWriteCommands operations = Returned commands
       /\ sent = take (length sent) commands
       /\ (bulkWrite_ordered options = true
           \/ (0 < bulkWrite_pool_size options)%Z -> sent = commands)
       /\ insertedCount_ results
          = sumZ (delta_of inserted_delta srv commands) (seq 0 (length sent))
       /\ matchedCount_ results
          = sumZ (delta_of matched_delta srv commands) (seq 0 (length sent))
       /\ modifiedCount_ results
          = sumZ (delta_of modified_delta srv commands) (seq 0 (length sent))
       /\ deletedCount_ results
          = sumZ (delta_of deleted_delta srv commands) (seq 0 (length sent))
       /\ (upserted_ids_truthy srv commands (length sent) ->
           upsertedCount_ results
           = sumZ (delta_of upserted_delta srv commands) (seq 0 (length sent)))
       /\ (forall i id,
             upsertedIds results !! i = Some id ->
             i < length sent
             /\ exists st, answered_status srv commands i = Some st
                           /\ upsertedId st = Some id /\ truthy id = true)
       /\ (upserted_ids_only_for_upserts srv ->
           forall i id,
             upsertedIds results !! i = Some id ->
             exists op, operations !! i = Some op
                        /\ is_upsert_operation op = true))
  /\ (forall setDefaultIdForInsert srv documents options fuel schedule r sent,
        Collection_insertMany setDefaultIdForInsert srv documents options
          fuel schedule = (Some (Returned r), sent) ->
        im_insertedCount r = length (im_insertedIds r)
        /\ Z.of_nat (im_insertedCount r)
           = sumZ (fun k =>
                     Z.of_nat (length
                       (answered_ids srv (map setDefaultIdForInsert documents)
                          (insertMany_chunkSize options)
                          (default false (options ≫= im_ordered)) k)))
                  (seq 0 (length sent)))
  /\ ((forall k c resp st id,
         id_0_service k c = Returned resp -> status resp = Some st ->
         upsertedId st = Some id -> is_upsert_command c = true)
      /\ exists results command st,
           Collection_bulkWrite id_0_service [upsert_of_id_0]
             (Some {| bw_ordered := Some true; bw_parallel := None;
                      bw_concurrency := None |}) []
           = (Some (Returned results), [command])
           /\ buildBulkWriteCommands upsert_of_id_0 = Returned command
           /\ is_upsert_operation upsert_of_id_0 = true
           /\ answered_status id_0_service [command] 0 = Some st
           /\ upsertedId st = Some (VNum 0)
           /\ sumZ (delta_of upserted_delta id_0_service [command]) (seq 0 1)
              = 1%Z
           /\ upsertedCount_ results = 0%Z
           /\ upsertedIds results = ∅).
Proof.
  split; [|split].
  - intros srv operations options schedule results sent H.
    unfold Collection_bulkWrite in H.
    destruct (map_buildBulkWriteCommands operations) as [commands|e] eqn:Hbuild;
      [|discriminate].
    exists commands. split; [reflexivity|].
    destruct (bulkWrite_completed srv commands options schedule results sent H)
      as (order & Hperm & Htake & Hfull & Hres).
    destruct (merged_totals srv commands order (length sent) results Hperm Hres)
      as (H1 & H2 & H3 & H4 & H5 & Hups).
    repeat (split; [assumption|]).
    intros Hcontract i id Hi.
    destruct (Hups i id Hi) as (Hlt & st & Hans & Hid & Ht).
    assert (Hlen : length sent <= length commands).
    { rewrite Htake, length_take. lia. }
    destruct (lookup_lt_is_Some_2 commands i ltac:(lia)) as [c Hc].
    unfold answered_status in Hans.
    rewrite (operation_at_lookup _ _ _ Hc) in Hans.
    destruct (srv i c) as [resp|e] eqn:Hsrv; [|discriminate].
    pose proof (Hcontract i c resp st id Hsrv Hans Hid Ht) as Hcmd.
    destruct (map_buildBulkWriteCommands_lookup _ _ Hbuild i c Hc)
      as (op & Hop & Hb).
    exists op. split; [exact Hop|].
    exact (buildBulkWriteCommands_upsert op c Hb Hcmd).
  - intros setDefaultIdForInsert srv documents options fuel schedule r sent H.
    unfold Collection_insertMany in H.
    set (docs := map setDefaultIdForInsert documents) in *.
    set (cs := insertMany_chunkSize options) in *.
    destruct (default false (options ≫= im_ordered)) eqn:Hord.
    + destruct (insertManyOrdered fuel srv docs cs) as [[o sent0]|] eqn:Hrun;
        [|discriminate].
      injection H as Ho ->. destruct o as [ids|e]; [|discriminate].
      injection Ho as <-. cbn [mkInsertManyResult im_insertedCount im_insertedIds].
      split; [reflexivity|].
      destruct (insertManyOrdered_from_returned srv docs cs fuel 0 [] ids sent
                  Hrun) as (d & -> & ->).
      rewrite length_map, length_seq. cbn [Nat.add app].
      apply length_flat_map_sumZ.
    + unfold insertManyUnordered in H.
      set (p := insertManyUnordered_run srv docs
                  (default 8%Z (options ≫= im_parallel)) cs schedule) in *.
      injection H as Hsettle Hsent.
      destruct (settle mkInsertManyError p) as [[ids|e]|] eqn:Hs;
        try discriminate.
      injection Hsettle as <-.
      cbn [mkInsertManyResult im_insertedCount im_insertedIds].
      split; [reflexivity|]. rewrite <- Hsent.
      unfold settle in Hs.
      destruct (rejection p) eqn:Hrej; [discriminate|].
      destruct (forallb is_Resolved (workers p)) eqn:Hall; [|discriminate].
      destruct (0 <? length (failCommands p)) eqn:Hfail; [discriminate|].
      injection Hs as Hids. apply Nat.ltb_ge in Hfail.
      destruct (Nat.eq_0_gt_0_cases cs) as [Hzero|Hpos].
      * (* a chunk size of 0: every worker leaves the loop at once *)
        assert (Hbreak : forall i, i < length docs ->
                  insertMany_stops_at docs cs i = true).
        { intros i _. unfold insertMany_stops_at. apply Nat.leb_le. lia. }
        pose proof (spawn_breaks (length docs) cs
                      (insertMany_stops_at docs cs) (chunk_command docs cs)
                      (Z.to_nat (default 8%Z (options ≫= im_parallel)))
                      {| masterIndex := 0; accumulated := @nil jsval;
                         failCommands := [];
                         failRaw := []; workers := []; sent := [];
                         rejection := None |}
                      Hzero Hbreak eq_refl) as (Hidle & Hsent0 & Hacc0 & _).
        assert (Hp : p = insertManyUnordered_start docs
                           (default 8%Z (options ≫= im_parallel)) cs).
        { unfold p, insertManyUnordered_run. apply run_idle. exact Hidle. }
        rewrite <- Hids, Hp.
        unfold insertManyUnordered_start, start. rewrite Hsent0, Hacc0.
        reflexivity.
      * destruct (insertManyUnordered_all_resolved srv docs
                    (default 8%Z (options ≫= im_parallel)) cs schedule
                    Hpos Hrej Hall)
          as (order & Hperm & _ & _ & _ & _ & Hacc & Hfc & _).
        fold p in Hperm, Hacc, Hfc.
        assert (Hnofail : omap (chunk_failure_of srv docs cs) order = []).
        { destruct (omap (chunk_failure_of srv docs cs) order) eqn:Ho;
            [reflexivity|].
          rewrite Hfc in Hfail. cbn in Hfail. lia. }
        rewrite <- Hids, Hacc, (chunk_completion_ids_answered _ _ _ _ Hnofail).
        rewrite length_flat_map_sumZ.
        apply sumZ_Permutation. exact Hperm.
  - split.
    + intros k c resp st id Hsrv Hst Hid. unfold id_0_service in Hsrv.
      injection Hsrv as <-. cbn in Hst. injection Hst as <-. cbn in Hid.
      destruct (is_upsert_command c); [reflexivity | discriminate].
    + eexists. eexists. eexists.
      split; [reflexivity|]. split; [reflexivity|]. split; [reflexivity|].
      split; [reflexivity|]. split; [reflexivity|]. split; [reflexivity|].
      split; reflexivity.
Qed.

Lemma C3_totals_witness :
  (exists op, [upsert_operation] !! 0 = Some op
              /\ is_upsert_operation op = true)
  /\ (2 = length [VStr "A"; VStr "B"]
      /\ 2%Z
         = sumZ (fun k =>
                   Z.of_nat (length
                     (answered_ids example_service
                        (map (fun d => d) [doc_A; doc_B])
                        (insertMany_chunkSize None)
                        (default false (None ≫= im_ordered)) k)))
                (seq 0 1)).
Proof.
  destruct C3_totals_are_sums_of_response_deltas as (Hbulk & Hmany & _).
  split.
  - destruct (Hbulk upserting_service [upsert_operation] None [0]
                _ _ eq_refl)
      as (commands & _ & _ & _ & _ & _ & _ & _ & _ & _ & Hcontract).
    apply (Hcontract
             ltac:(intros k c resp st id Hsrv Hst Hid _;
                   unfold upserting_service in Hsrv;
                   injection Hsrv as <-; cbn in Hst; injection Hst as <-;
                   cbn in Hid; destruct (is_upsert_command c);
                   [reflexivity | discriminate])
             0 (VStr "x")).
    reflexivity.
  - exact (Hmany (fun d => d) example_service [doc_A; doc_B] None 5 [0]
             _ _ eq_refl).
Defined.

(** C5.  [insertMany] cuts the documents, each with its default [_id], into
    chunks of [options?.chunkSize ?? 20] documents: the chunks, put end to
    end, are the documents, each has between one and [chunkSize] documents
    and all but the last have [chunkSize].  It hands them to the ordered
    path when [options?.ordered] is true and to the unordered path, with
    [options?.parallel ?? 8] workers, when it is not, and whatever the
    outcome the commands it has sent are the [insertMany] of the first
    chunks, one command for each chunk, in the order of the chunks and with
    that [ordered] flag.  On the ordered path every chunk is sent when none
    fails, and when chunk [k] fails the chunks after it are not sent.  On the
    unordered path, when every worker has returned, every chunk has been
    sent, whether or not some have failed, and a run can always reach its
    end. *)
Theorem C5_insertMany_chunks :
  insertMany_chunkSize None = 20
  /\ (forall o, im_chunkSize o = None -> insertMany_chunkSize (Some o) = 20)
  /\ (forall o n, im_chunkSize o = Some n -> insertMany_chunkSize (Some o) = n)
  /\ forall setDefaultIdForInsert srv documents options,
       let docs := map setDefaultIdForInsert documents in
       let chunkSize := insertMany_chunkSize options in
       let ordered := default false (options ≫= im_ordered) in
       let parallel := default 8%Z (options ≫= im_parallel) in
       let all := chunks docs chunkSize in
       let call := Collection_insertMany setDefaultIdForInsert srv documents
                     options in
       0 < chunkSize ->
       (concat all = docs
        /\ Forall (fun c => 0 < length c <= chunkSize) all
        /\ (forall k c, all !! k = Some c -> S k < length all ->
                        length c = chunkSize))
       /\ (forall fuel schedule,
             snd (call fuel schedule)
             = map (fun c => CmdInsertMany c ordered)
                   (take (length (snd (call fuel schedule))) all))
       /\ (ordered = true ->
           forall fuel schedule,
             (forall j, j < length all ->
                exists resp,
                  srv j (ordered_chunk_command docs chunkSize j)
                  = Returned resp) ->
             length all <= fuel ->
             exists ids,
               call fuel schedule
               = (Some (Returned {| im_insertedCount := length ids;
                                    im_insertedIds := ids |}),
                  map (fun c => CmdInsertMany c true) all))
       /\ (ordered = true ->
           forall fuel schedule k desc others,
             k < length all ->
             (forall j, j < k ->
                exists resp,
                  srv j (ordered_chunk_command docs chunkSize j)
                  = Returned resp) ->
             srv k (ordered_chunk_command docs chunkSize k)
             = Thrown (DataAPIResponseError desc others) ->
             k < fuel ->
             exists ids,
               call fuel schedule
               = (Some (Thrown (InsertManyError [command desc]
                                  [rawResponse desc] ids (length ids))),
                  map (fun c => CmdInsertMany c true) (take (S k) all)))
       /\ (ordered = false ->
           forall fuel schedule,
             let p := insertManyUnordered_run srv docs parallel chunkSize
                        schedule in
             snd (call fuel schedule) = sent p
             /\ length (workers p) = Z.to_nat parallel
             /\ ((0 < parallel)%Z ->
                 rejection p = None ->
                 forallb is_Resolved (workers p) = true ->
                 snd (call fuel schedule)
                 = map (fun c => CmdInsertMany c false) all
                 /\ exists order,
                      Permutation order (seq 0 (length all))
                      /\ failCommands p
                         = map command
                             (omap (chunk_failure_of srv docs chunkSize)
                                   order)))
       /\ (ordered = false ->
           forall fuel, exists schedule out,
             fst (call fuel schedule) = Some out).
Proof.
  split; [reflexivity|]. split; [intros o Ho; cbn; rewrite Ho; reflexivity|].
  split; [intros o n Ho; cbn; rewrite Ho; reflexivity|].
  intros setDefaultIdForInsert srv documents options docs chunkSize ordered
    parallel all call Hpos.
  assert (Hlen : length all = chunk_count (length docs) chunkSize).
  { unfold all, chunks. rewrite length_map, length_seq. reflexivity. }
  assert (Hmap : forall b m,
            map (fun c => CmdInsertMany c b)
                (map (chunk docs chunkSize) (seq 0 m))
            = map (fun k => CmdInsertMany (chunk docs chunkSize k) b)
                  (seq 0 m)).
  { intros b m. apply map_map. }
  assert (Hcall : forall fuel schedule,
            call fuel schedule
            = if ordered then
                match insertManyOrdered fuel srv docs chunkSize with
                | Some (r, sent) =>
                    (Some (map_outcome mkInsertManyResult r), sent)
                | None => (None, [])
                end
              else
                (map_outcome mkInsertManyResult
                   <$> settle mkInsertManyError
                         (insertManyUnordered_run srv docs parallel chunkSize
                            schedule),
                 sent (insertManyUnordered_run srv docs parallel chunkSize
                         schedule))).
  { intros fuel schedule. reflexivity. }
  split; [apply chunks_spec; exact Hpos|].
  split; [|split; [|split; [|split]]].
  - intros fuel schedule. rewrite Hcall. destruct ordered.
    + destruct (insertManyOrdered fuel srv docs chunkSize) as [[r sent0]|]
        eqn:Hrun; [|reflexivity].
      cbn [snd].
      exact (insertManyOrdered_sent_chunks srv docs chunkSize fuel r sent0
               Hpos Hrun).
    + cbn [snd].
      exact (insertManyUnordered_sent_chunks srv docs parallel chunkSize
               schedule Hpos).
  - intros Hord fuel schedule Hok Hfuel. rewrite Hcall, Hord.
    rewrite Hlen in Hok, Hfuel.
    pose proof (insertManyOrdered_from_success srv docs chunkSize
                  (chunk_count (length docs) chunkSize) Hpos fuel 0 []
                  eq_refl) as H.
    cbn [Nat.mul Nat.add seq map app] in H. unfold insertManyOrdered.
    rewrite H.
    + eexists. cbn [map_outcome]. unfold mkInsertManyResult, all, chunks.
      rewrite Hmap. reflexivity.
    + intros j Hj. apply Hok. lia.
    + exact Hfuel.
  - intros Hord fuel schedule k desc others Hk Hok Hfail Hfuel.
    rewrite Hcall, Hord. rewrite Hlen in Hk.
    pose proof (insertManyOrdered_from_failure srv docs chunkSize k fuel 0
                  [] k desc others eq_refl) as H.
    cbn [Nat.mul seq map app] in H. unfold insertManyOrdered. rewrite H.
    + cbv zeta. eexists. cbn [map_outcome]. unfold all, chunks.
      rewrite firstn_map, take_seq.
      rewrite Nat.min_l by lia. rewrite Hmap. reflexivity.
    + apply chunk_count_spec; assumption.
    + intros j Hj. apply Hok. lia.
    + exact Hfail.
    + exact Hfuel.
  - intros Hord fuel schedule p. rewrite Hcall, Hord. cbn [snd]. fold p.
    split; [reflexivity|]. split.
    + apply pool_size_and_in_flight.
    + intros Hpar Hnone Hall.
      destruct (insertManyUnordered_all_resolved srv docs parallel chunkSize
                  schedule Hpos Hnone Hall)
        as (order & Hperm & Hsent & _ & Hfull & _ & _ & Hfc & _).
      fold p in Hperm, Hsent, Hfull, Hfc. specialize (Hfull Hpar).
      rewrite Hfull in Hsent, Hperm. split.
      * rewrite Hsent. unfold all, chunks. rewrite Hmap. reflexivity.
      * exists order. rewrite Hlen. split; assumption.
  - intros Hord fuel.
    assert (Hbreak : forall i, i < length docs ->
                       insertMany_stops_at docs chunkSize i = false).
    { intros i Hi. unfold insertMany_stops_at. apply Nat.leb_gt. lia. }
    destruct (pool_settles srv (length docs) chunkSize
                (insertMany_stops_at docs chunkSize)
                (chunk_command docs chunkSize)
                insertMany_on_response insertMany_on_failure Hpos Hbreak
                [] parallel mkInsertManyError) as (schedule & out & Hout).
    exists schedule. rewrite Hcall, Hord. cbn [fst].
    unfold insertManyUnordered_run, insertManyUnordered_start.
    rewrite Hout. eexists. reflexivity.
Qed.

Lemma C5_insertMany_chunks_witness :
  (exists ids,
     Collection_insertMany (fun d => d) example_service [doc_A; doc_A; doc_B]
       (Some {| im_ordered := Some true; im_parallel := None;
                im_chunkSize := Some 1 |}) 5 []
     = (Some (Thrown (InsertManyError [CmdInsertMany [doc_A] true]
                        [{| status := None |}] ids (length ids))),
        [CmdInsertMany [doc_A] true; CmdInsertMany [doc_A] true]))
  /\ snd (Collection_insertMany (fun d => d) example_service
            [doc_A; doc_A; doc_B]
            (Some {| im_ordered := None; im_parallel := Some 2%Z;
                     im_chunkSize := Some 1 |}) 0 [0; 1; 0])
     = [CmdInsertMany [doc_A] false; CmdInsertMany [doc_A] false;
        CmdInsertMany [doc_B] false].
Proof.
  destruct C5_insertMany_chunks as (_ & _ & _ & H).
  split.
  - destruct (H (fun d => d) example_service [doc_A; doc_A; doc_B]
                (Some {| im_ordered := Some true; im_parallel := None;
                         im_chunkSize := Some 1 |}) ltac:(cbn; lia))
      as (_ & _ & _ & Hfail & _).
    apply (Hfail eq_refl 5 [] 1
             {| command := CmdInsertMany [doc_A] true;
                rawResponse := {| status := None |} |} []).
    + cbn. lia.
    + intros j Hj. assert (j = 0) as -> by lia. eexists. reflexivity.
    + reflexivity.
    + lia.
  - destruct (H (fun d => d) example_service [doc_A; doc_A; doc_B]
                (Some {| im_ordered := None; im_parallel := Some 2%Z;
                         im_chunkSize := Some 1 |}) ltac:(cbn; lia))
      as (_ & _ & _ & _ & Hun & _).
    destruct (Hun eq_refl 0 [0; 1; 0]) as (_ & _ & Hall).
    destruct (Hall ltac:(cbn; lia) eq_refl eq_refl) as [Hsent _].
    exact Hsent.
Defined.

(* ===================================================================== *)
(** * [deleteMany] and the cursor *)
(* ===================================================================== *)

(** C7, as the code has it.  [deleteMany] is an [async] method: called with
    the empty filter, or without a filter, it returns a promise that is
    rejected with the error that tells the caller to use [deleteAll],
    whatever the service, and no command has been sent.  No call of
    [deleteMany] throws synchronously.  With a filter that has a key the
    first command sent is the [deleteMany] of that filter. *)
Theorem C7_deleteMany_refuses_empty_filter :
  forall fuel srv,
    Collection_deleteMany_call fuel srv (VObj [])
    = Some (ReturnsValue
              (RejectedWith
                 (Error "Can't pass an empty filter to deleteMany, use deleteAll instead if you really want to delete everything")),
            [])
    /\ Collection_deleteMany_call fuel srv VUndefined
       = Some (ReturnsValue
                 (RejectedWith
                    (Error "Can't pass an empty filter to deleteMany, use deleteAll instead if you really want to delete everything")),
               [])
    /\ (forall filter c sent,
          Collection_deleteMany_call fuel srv filter = Some (c, sent) ->
          exists settled, c = ReturnsValue settled)
    /\ (forall key value rest c sent,
          Collection_deleteMany_call fuel srv (VObj ((key, value) :: rest))
          = Some (c, sent) ->
          exists more,
            sent = CmdDeleteMany (VObj ((key, value) :: rest)) :: more).
Proof.
  intros fuel srv. split; [reflexivity|]. split; [reflexivity|]. split.
  - intros filter c sent H. unfold Collection_deleteMany_call in H.
    destruct (Collection_deleteMany fuel srv filter) as [[body sent0]|];
      [|discriminate].
    injection H as <- _. unfold async. eexists. reflexivity.
  - intros key value rest c sent H.
    unfold Collection_deleteMany_call in H.
    destruct (Collection_deleteMany fuel srv (VObj ((key, value) :: rest)))
      as [[body sent0]|] eqn:Hbody; [|discriminate].
    injection H as _ <-.
    unfold Collection_deleteMany in Hbody.
    cbn [Object_keys_length length] in Hbody.
    destruct (deleteMany_loop_sent _ _ _ _ _ _ _ Hbody) as [more Hmore].
    exists more. exact Hmore.
Qed.

Lemma C7_deleteMany_witness :
  (exists settled,
     ReturnsValue (Fulfilled 0%Z) = ReturnsValue (A:=promise Z) settled)
  /\ exists more,
       [CmdDeleteMany (VObj [("name"%string, VStr "John Doe")])]
       = CmdDeleteMany (VObj [("name"%string, VStr "John Doe")]) :: more.
Proof.
  destruct (C7_deleteMany_refuses_empty_filter 3
              (fun _ _ => Returned {| status := Some (status_of_ids []) |}))
    as (_ & _ & Hasync & Hsent).
  split.
  - exact (Hasync (VObj [("name"%string, VStr "John Doe")]) _ _ eq_refl).
  - exact (Hsent "name"%string (VStr "John Doe") [] _ _ eq_refl).
Defined.

(** C7 as stated fails: the call of [deleteMany] with the empty filter does
    not throw synchronously; it returns a promise, which is rejected. *)
Lemma C7_deleteMany_does_not_throw_synchronously :
  Collection_deleteMany_call 1 (fun _ _ => Returned {| status := None |})
    (VObj [])
  = Some (ReturnsValue
            (RejectedWith
               (Error "Can't pass an empty filter to deleteMany, use deleteAll instead if you really want to delete everything")),
          [])
  /\ ~ (exists e sent,
          Collection_deleteMany_call 1
            (fun _ _ => Returned {| status := None |}) (VObj [])
          = Some (ThrowsSynchronously e, sent)).
Proof.
  split; [reflexivity|]. intros (e & sent & H). discriminate H.
Qed.

(** C8.  When [toArray] has returned, the cursor is closed and a second
    [toArray] yields the empty array and leaves the cursor as it is.
    [rewind] makes the cursor uninitialized again, with an empty buffer, no
    page token and nothing consumed, and keeps its filter, options and
    mapping.  [toArray] on a rewound cursor yields the full result of the
    query: all its documents in the order of the service, up to the limit
    if one is set, each mapped; it ends with the cursor closed. *)
Theorem C8_toArray_twice_then_rewind :
  (forall find c fuel r c1,
     Cursor.toArray find fuel c = Some (r, c1) ->
     Cursor.state c1 = Cursor.CLOSED
     /\ Cursor.toArray find fuel c1 = Some ([], c1))
  /\ (forall c,
        Cursor.state (Cursor.rewind c) = Cursor.UNINITIALIZED
        /\ Cursor.buffer (Cursor.rewind c) = []
        /\ Cursor.pageState (Cursor.rewind c) = None
        /\ Cursor.consumed (Cursor.rewind c) = 0
        /\ Cursor.filter (Cursor.rewind c) = Cursor.filter c
        /\ Cursor.options (Cursor.rewind c) = Cursor.options c
        /\ Cursor.mapping (Cursor.rewind c) = Cursor.mapping c)
  /\ (forall find c fuel,
        Cursor.enough_fuel find c <= fuel ->
        exists c',
          Cursor.toArray find fuel (Cursor.rewind c)
          = Some (Cursor.full_result find c, c')
          /\ Cursor.state c' = Cursor.CLOSED)
  /\ (forall find c,
        Cursor.limit (Cursor.options c) = 0 ->
        Cursor.full_result find c
        = map (Cursor.apply_mapping c)
              (concat (find (Cursor.filter c) (Cursor.options c)))).
Proof.
  split; [|split; [|split]].
  - intros find c fuel r c1 H.
    assert (Hclosed : Cursor.state c1 = Cursor.CLOSED).
    { unfold Cursor.toArray in H. revert H.
      generalize (@nil jsval) as acc. generalize fuel at 1 as n. revert c.
      intros c0 n. revert c0.
      induction n as [|n IH]; intros c acc H; [discriminate|].
      cbn [Cursor.toArray_loop] in H.
      destruct (Cursor.next find fuel c) as [[[doc|] c']|]; try discriminate.
      - exact (IH _ _ H).
      - injection H as _ <-. reflexivity. }
    split; [exact Hclosed|].
    apply CursorFacts.toArray_closed; [|exact Hclosed].
    destruct fuel; [discriminate | lia].
  - intros c. repeat split.
  - intros find c fuel Hfuel.
    destruct (CursorFacts.toArray_rewind find fuel c Hfuel)
      as (c' & H & Hc & _).
    exists c'. split; assumption.
  - intros find c Hlim. unfold Cursor.full_result. rewrite Hlim. reflexivity.
Qed.

Lemma C8_toArray_witness :
  exists c1 c2,
    Cursor.toArray example_find 9 (Cursor.rewind example_cursor)
    = Some ([VObj [("_id"%string, VStr "0")]; VObj [("_id"%string, VStr "1")];
             VObj [("_id"%string, VStr "2")]], c1)
    /\ Cursor.toArray example_find 9 c1 = Some ([], c1)
    /\ Cursor.toArray example_find 9 (Cursor.rewind c1)
       = Some ([VObj [("_id"%string, VStr "0")];
                VObj [("_id"%string, VStr "1")];
                VObj [("_id"%string, VStr "2")]], c2).
Proof.
  destruct C8_toArray_twice_then_rewind as (Htwice & _ & Hrewind & _).
  destruct (Hrewind example_find example_cursor 9 ltac:(cbn; lia))
    as (c1 & H1 & _).
  destruct (Htwice example_find _ 9 _ c1 H1) as (_ & H2).
  destruct (Hrewind example_find c1 9) as (c2 & H3 & _).
  { vm_compute in H1. injection H1 as <-. cbn. lia. }
  exists c1, c2. split; [exact H1|]. split; [exact H2|].
  vm_compute in H1. injection H1 as <-. exact H3.
Defined.

(* ===================================================================== *)
(** * More on [distinct]: its result, its paths, its projection *)
(* ===================================================================== *)

Lemma SameValueZero_eq a b : SameValueZero a b = true -> a = b.
Proof.
  destruct a, b; cbn; try discriminate; intros H; try reflexivity.
  - apply Bool.eqb_prop in H. congruence.
  - apply Z.eqb_eq in H. congruence.
  - apply String.eqb_eq in H. congruence.
  - f_equal. destruct b0 as [|x], b as [|y]; cbn in H; try discriminate;
      [reflexivity|]. apply String.eqb_eq in H. congruence.
Qed.

Lemma seen_has_In seen k : seen_has seen k = true -> In k seen.
Proof.
  unfold seen_has. rewrite existsb_exists. intros (x & Hin & H).
  apply SameValueZero_eq in H. subst x. exact Hin.
Qed.

Section DistinctResult.

Variable objectHash : jsval -> string.

Local Abbreviation key_of := (seen_key objectHash).

Lemma In_seen_has seen v : In (key_of v) seen -> seen_has seen (key_of v) = true.
Proof.
  intros Hin. unfold seen_has. rewrite existsb_exists.
  exists (key_of v). split; [exact Hin | apply SameValueZero_seen_key].
Qed.

(** The inner loop keeps [seen] the list of the keys of [ret], without
    repetition, and appends to [ret] some of the values, in their order. *)
Lemma collect_values_distinct l :
  forall seen ret seen' ret',
    collect_values objectHash l seen ret = (seen', ret') ->
    seen = map key_of ret -> NoDup seen ->
    seen' = map key_of ret' /\ NoDup seen'
    /\ exists new, ret' = ret ++ new /\ sublist new l.
Proof.
  induction l as [|v rest IH]; intros seen ret seen' ret' Hc Hseen Hnd;
    simpl in Hc.
  - injection Hc as <- <-. split; [exact Hseen|]. split; [exact Hnd|].
    exists []. split; [symmetry; apply app_nil_r | constructor].
  - destruct (seen_has seen (key_of v)) eqn:Hhas.
    + destruct (IH _ _ _ _ Hc Hseen Hnd) as (H1 & H2 & new & H3 & H4).
      split; [exact H1|]. split; [exact H2|].
      exists new. split; [exact H3 | apply sublist_cons; exact H4].
    + assert (Hnew : ~ In (key_of v) seen).
      { intros Hin. apply In_seen_has in Hin. congruence. }
      assert (Hseen' : seen ++ [key_of v] = map key_of (ret ++ [v])).
      { rewrite map_app, Hseen. reflexivity. }
      assert (Hnd' : NoDup (seen ++ [key_of v])).
      { apply NoDup_app. split; [exact Hnd|]. split.
        - intros x Hx Hx'. apply list_elem_of_singleton in Hx'. subst x.
          apply Hnew, list_elem_of_In, Hx.
        - apply NoDup_singleton. }
      destruct (IH _ _ _ _ Hc Hseen' Hnd') as (H1 & H2 & new & H3 & H4).
      split; [exact H1|]. split; [exact H2|].
      exists (v :: new). split.
      * rewrite H3, <- app_assoc. reflexivity.
      * apply sublist_skip. exact H4.
Qed.

Lemma distinct_loop_per_document_distinct path docs :
  forall seen ret,
    seen = map key_of ret -> NoDup seen ->
    NoDup (map key_of (distinct_loop_per_document objectHash path docs seen ret))
    /\ (exists new,
          distinct_loop_per_document objectHash path docs seen ret = ret ++ new
          /\ sublist new (flat_map (extracted_from path) docs))
    /\ (forall doc v,
          In doc docs -> In v (extracted_from path doc) ->
          In (key_of v)
             (map key_of
                (distinct_loop_per_document objectHash path docs seen ret))).
Proof.
  induction docs as [|doc rest IH]; intros seen ret Hseen Hnd; simpl.
  - split; [rewrite <- Hseen; exact Hnd|]. split.
    + exists []. split; [symmetry; apply app_nil_r | constructor].
    + intros doc v [].
  - destruct (collect_values objectHash (extracted_from path doc) seen ret)
      as [seen' ret'] eqn:Hc.
    destruct (collect_values_distinct _ _ _ _ _ Hc Hseen Hnd)
      as (Hseen' & Hnd' & new & Hret' & Hsub).
    destruct (IH _ _ Hseen' Hnd') as (H1 & (new' & H2 & H3) & H4).
    split; [exact H1|]. split.
    + exists (new ++ new'). split.
      * rewrite H2, Hret', <- app_assoc. reflexivity.
      * apply sublist_app; assumption.
    + intros d v [<-|Hd] Hv; [|exact (H4 d v Hd Hv)].
      destruct (collect_values_covers _ _ _ _ _ _ Hc) as [Hcov _].
      specialize (Hcov v Hv). apply seen_has_In in Hcov.
      rewrite H2, map_app. apply in_or_app. left.
      rewrite <- Hseen'. exact Hcov.
Qed.

Lemma distinct_loop_per_document_app path docs docs' :
  forall seen ret,
    seen = map key_of ret -> NoDup seen ->
    distinct_loop_per_document objectHash path (docs ++ docs') seen ret
    = distinct_loop_per_document objectHash path docs'
        (map key_of (distinct_loop_per_document objectHash path docs seen ret))
        (distinct_loop_per_document objectHash path docs seen ret).
Proof.
  induction docs as [|doc rest IH]; intros seen ret Hseen Hnd; simpl.
  - rewrite <- Hseen. reflexivity.
  - destruct (collect_values objectHash (extracted_from path doc) seen ret)
      as [seen' ret'] eqn:Hc.
    destruct (collect_values_distinct _ _ _ _ _ Hc Hseen Hnd)
      as (Hseen' & Hnd' & _).
    apply IH; assumption.
Qed.

Lemma distinct_loop_per_document_nothing_new path docs :
  forall seen ret,
    (forall doc v,
       In doc docs -> In v (extracted_from path doc) ->
       seen_has seen (key_of v) = true) ->
    distinct_loop_per_document objectHash path docs seen ret = ret.
Proof.
  induction docs as [|doc rest IH]; intros seen ret Hseen; simpl;
    [reflexivity|].
  rewrite collect_values_seen
    by (intros v Hv; apply (Hseen doc v); [left; reflexivity | exact Hv]).
  apply IH. intros d v Hd Hv. apply (Hseen d v); [right; exact Hd | exact Hv].
Qed.

End DistinctResult.

Lemma split_dot_nonempty s : split_dot s <> [].
Proof.
  destruct s as [|c rest]; simpl; [discriminate|].
  destruct (Ascii.eqb c "."); [discriminate|].
  destruct (split_dot rest); discriminate.
Qed.

(** A segment that names something inherited is a segment of the path. *)
Lemma inherited_segment path index b :
  inherited (nth index path "undefined"%string) = Some b ->
  In (nth index path "undefined"%string) path.
Proof.
  intros H. destruct (Nat.lt_ge_cases index (length path)) as [Hlt|Hge].
  - apply nth_In. exact Hlt.
  - rewrite nth_overflow in H by exact Hge. discriminate H.
Qed.

Lemma prototype_member_inherited prop f :
  prototype_member prop = Some f -> inherited prop <> None.
Proof.
  intros H. unfold inherited.
  destruct (String.eqb prop "__proto__"); [discriminate | congruence].
Qed.

(** What the walk emits on [Object.prototype] or one of its functions is
    that value, or a function that a segment of the path names. *)
Lemma extract_builtin_origin path index b x :
  In x (extract_builtin path index b []) ->
  x = VBuiltin b
  \/ exists f seg, x = VBuiltin f /\ In seg path /\ inherited seg <> None.
Proof.
  unfold extract_builtin.
  destruct (index =? length path); [intros [<-|[]]; left; reflexivity|].
  destruct b as [|name]; [|intros []].
  destruct (prototype_member _) as [f|] eqn:Hf; [|intros []].
  destruct (index + 1 =? length path); [|intros []].
  intros [<-|[]]. right. exists f, (nth index path "undefined"%string).
  split; [reflexivity|].
  pose proof (prototype_member_inherited _ _ Hf) as Hinh.
  split; [|exact Hinh].
  destruct (inherited (nth index path "undefined"%string)) as [b'|] eqn:Hb;
    [|congruence].
  exact (inherited_segment _ _ _ Hb).
Qed.

(** A value that the walk emits occurs in the value it walks, or is
    [Object.prototype] or one of its functions, reached through a segment
    of the path that names an inherited property. *)
Lemma contribution_occurs_in path index value x :
  In x (contribution path index value) ->
  occurs_in x value
  \/ exists b seg, x = VBuiltin b /\ In seg path /\ inherited seg <> None.
Proof.
  revert index.
  induction value as [ | | b | n | s | elems IH | props IH | b]
    using jsval_nested_ind;
    intros index; unfold contribution.
  8: { rewrite extract_VBuiltin. intros Hx.
       apply extract_builtin_origin in Hx as [->|Hx];
         [left; apply occurs_here | right; exact Hx]. }
  1-5: destruct (Nat.eq_dec index (length path)) as [->|Hne];
    [ match goal with
      | |- In _ (extract _ _ ?v _) -> _ =>
          destruct (truthy v) eqn:Ht;
          [ rewrite extract_terminal by exact Ht; intros [<-|[]];
            left; apply occurs_here
          | rewrite extract_falsy by exact Ht; intros [] ]
      end
    | rewrite extract_scalar by (assumption || exact I); intros [] ].
  - destruct (Nat.eq_dec index (length path)) as [->|Hne].
    + rewrite extract_terminal by reflexivity. intros Hx. left.
      apply occurs_in_element with x; [exact Hx | apply occurs_here].
    + rewrite extract_array by exact Hne. rewrite Forall_forall in IH.
      destruct (parseInt _) as [asInt|].
      * destruct (asInt <? _)%Z; [|intros []].
        destruct asInt as [|p|p]; try (intros []).
        -- destruct (elems !! Z.to_nat 0) as [y|] eqn:Hy; [|intros []].
           apply list_elem_of_lookup_2 in Hy. intros Hx.
           destruct (IH y Hy _ Hx) as [H|H]; [left | right; exact H].
           apply occurs_in_element with y;
             [apply list_elem_of_In, Hy | exact H].
        -- destruct (elems !! Z.to_nat (Z.pos p)) as [y|] eqn:Hy; [|intros []].
           apply list_elem_of_lookup_2 in Hy. intros Hx.
           destruct (IH y Hy _ Hx) as [H|H]; [left | right; exact H].
           apply occurs_in_element with y;
             [apply list_elem_of_In, Hy | exact H].
      * rewrite foldl_extract_app
          by (apply Forall_forall; intros; apply extract_app).
        simpl. intros Hx. apply in_flat_map in Hx as (y & Hy & Hxy).
        destruct (IH y (proj2 (list_elem_of_In _ _) Hy) _ Hxy) as [H|H];
          [left | right; exact H].
        apply occurs_in_element with y; [exact Hy | exact H].
  - destruct (Nat.eq_dec index (length path)) as [->|Hne].
    + rewrite extract_terminal by reflexivity. intros [<-|[]].
      left. apply occurs_here.
    + rewrite extract_object by exact Hne. rewrite Forall_forall in IH.
      destruct (get_prop _ props) as [y|] eqn:Hy.
      * assert (Hin : exists k, In (k, y) props).
        { clear -Hy. induction props as [|[k z] l IHl]; simpl in Hy;
            [discriminate|].
          destruct (String.eqb k _).
          - injection Hy as ->. exists k. left. reflexivity.
          - destruct (IHl Hy) as [k' Hk']. exists k'. right. exact Hk'. }
        destruct Hin as [k Hk]. intros Hx.
        destruct (IH (k, y) (proj2 (list_elem_of_In _ _) Hk) _ Hx) as [H|H];
          [left | right; exact H].
        apply occurs_in_property with k y; [exact Hk | exact H].
      * destruct (inherited _) as [b|] eqn:Hb; [|intros []].
        intros Hx. right.
        apply extract_builtin_origin in Hx as [->|Hx]; [|exact Hx].
        exists b, (nth index path "undefined"%string).
        split; [reflexivity|].
        split; [exact (inherited_segment _ _ _ Hb) | congruence].
Qed.

(** [takeWhile] and the rest of the array. *)
Lemma takeWhile_prefix {T} (arr : list T) pred :
  exists rest,
    arr = takeWhile arr pred ++ rest
    /\ match rest with
       | [] => True
       | x :: _ => pred x = false
       end.
Proof.
  induction arr as [|x l IH]; simpl.
  - exists []. split; [reflexivity | exact I].
  - destruct (pred x) eqn:Hp.
    + destruct IH as (rest & H1 & H2). exists rest. split; [|exact H2].
      simpl. f_equal. exact H1.
    + exists (x :: l). split; [reflexivity | exact Hp].
Qed.

Lemma takeWhile_all {T} (arr : list T) pred :
  forallb pred (takeWhile arr pred) = true.
Proof.
  induction arr as [|x l IH]; simpl; [reflexivity|].
  destruct (pred x) eqn:Hp; simpl; [rewrite Hp; exact IH | reflexivity].
Qed.

Lemma split_dot_no_dot s : contains_dot s = false -> split_dot s = [s].
Proof.
  induction s as [|c rest IH]; simpl; [reflexivity|].
  destruct (Ascii.eqb c "."); simpl; [discriminate|].
  intros H. rewrite (IH H). reflexivity.
Qed.

Lemma split_dot_append s t :
  contains_dot s = false ->
  split_dot (String.append s (String "." t)) = s :: split_dot t.
Proof.
  induction s as [|c rest IH]; simpl.
  - reflexivity.
  - destruct (Ascii.eqb c "."); simpl; [discriminate|].
    intros H. rewrite (IH H). reflexivity.
Qed.

Lemma split_dot_join_dot segments :
  segments <> [] ->
  forallb (fun s => negb (contains_dot s)) segments = true ->
  split_dot (join_dot segments) = segments.
Proof.
  induction segments as [|s rest IH]; [congruence|].
  intros _ Hall. simpl in Hall. apply andb_true_iff in Hall as [Hs Hrest].
  apply negb_true_iff in Hs.
  destruct rest as [|s' rest'].
  - simpl. apply split_dot_no_dot. exact Hs.
  - change (join_dot (s :: s' :: rest'))
      with (String.append s (String "." (join_dot (s' :: rest')))).
    rewrite split_dot_append by exact Hs.
    f_equal. apply IH; [discriminate | exact Hrest].
Qed.

Lemma join_dot_split_dot s : join_dot (split_dot s) = s.
Proof.
  induction s as [|c rest IH]; simpl; [reflexivity|].
  destruct (Ascii.eqb c ".") eqn:Hc.
  - apply Ascii.eqb_eq in Hc. subst c.
    destruct (split_dot rest) as [|seg segs] eqn:Hs;
      [exfalso; exact (split_dot_nonempty _ Hs)|].
    change (join_dot (EmptyString :: seg :: segs))
      with (String "." (join_dot (seg :: segs))).
    rewrite IH. reflexivity.
  - destruct (split_dot rest) as [|seg segs] eqn:Hs;
      [exfalso; exact (split_dot_nonempty _ Hs)|].
    destruct segs as [|seg' segs'].
    + simpl in IH. simpl. rewrite IH. reflexivity.
    + change (join_dot (String c seg :: seg' :: segs'))
        with (String c (String.append seg (String "." (join_dot (seg' :: segs'))))).
      change (join_dot (seg :: seg' :: segs'))
        with (String.append seg (String "." (join_dot (seg' :: segs')))) in IH.
      rewrite IH. reflexivity.
Qed.

Lemma split_dot_segments_no_dot s :
  forallb (fun seg => negb (contains_dot seg)) (split_dot s) = true.
Proof.
  induction s as [|c rest IH]; simpl; [reflexivity|].
  destruct (Ascii.eqb c ".") eqn:Hc; simpl; [exact IH|].
  destruct (split_dot rest) as [|seg segs]; simpl.
  - rewrite Hc. reflexivity.
  - simpl in IH. rewrite Hc. exact IH.
Qed.

(** X1.  The values [distinct] returns have pairwise different keys (the
    value itself, or the hash of a value whose [typeof] is ['object']), and
    they come in the order in which the documents yield them: the result is
    a subsequence of the values extracted from the documents one after the
    other. *)
Theorem distinct_returns_each_key_once objectHash key docs ret :
  Collection_distinct objectHash key docs = inr ret ->
  NoDup (map (seen_key objectHash) ret)
  /\ sublist ret (flat_map (extracted_from key) docs).
Proof.
  rewrite Collection_distinct_eq_per_document.
  unfold Collection_distinct_per_document.
  destruct (assertPathSafe4Distinct key); [discriminate|].
  intros H. injection H as <-.
  destruct (distinct_loop_per_document_distinct objectHash key docs [] []
              eq_refl (NoDup_nil_2 (A:=jsval))) as (H1 & (new & H2 & H3) & _).
  split; [exact H1|]. rewrite H2. exact H3.
Qed.

Lemma distinct_returns_each_key_once_witness :
  Collection_distinct (fun _ => "h"%string) "a"
    [VObj [("a"%string, VNum 1)]; VObj [("a"%string, VNum 1)];
     VObj [("a"%string, VArr [VNum 2; VNum 1])]]
  = inr [VNum 1; VNum 2]
  /\ NoDup (map (seen_key (fun _ => "h"%string)) [VNum 1; VNum 2])
  /\ sublist [VNum 1; VNum 2]
       (flat_map (extracted_from "a")
          [VObj [("a"%string, VNum 1)]; VObj [("a"%string, VNum 1)];
           VObj [("a"%string, VArr [VNum 2; VNum 1])]]).
Proof.
  split; [reflexivity|].
  apply (distinct_returns_each_key_once (fun _ => "h"%string) "a").
  reflexivity.
Defined.

(** X2.  [distinct] leaves no extracted value out: whatever a document
    yields at the path, the result has a value with the same key. *)
Theorem distinct_covers_every_extracted_value objectHash key docs ret :
  Collection_distinct objectHash key docs = inr ret ->
  forall doc v,
    In doc docs -> In v (extracted_from key doc) ->
    exists r, In r ret /\ seen_key objectHash r = seen_key objectHash v.
Proof.
  rewrite Collection_distinct_eq_per_document.
  unfold Collection_distinct_per_document.
  destruct (assertPathSafe4Distinct key); [discriminate|].
  intros H doc v Hdoc Hv. injection H as <-.
  destruct (distinct_loop_per_document_distinct objectHash key docs [] []
              eq_refl (NoDup_nil_2 (A:=jsval))) as (_ & _ & H3).
  specialize (H3 doc v Hdoc Hv). apply in_map_iff in H3 as (r & Hr & Hin).
  exists r. split; [exact Hin | exact Hr].
Qed.

Lemma distinct_covers_every_extracted_value_witness :
  exists r,
    In r [VNum 1; VNum 2]
    /\ seen_key (fun _ => "h"%string) r = seen_key (fun _ => "h"%string) (VNum 2).
Proof.
  apply (distinct_covers_every_extracted_value (fun _ => "h"%string) "a"
           [VObj [("a"%string, VNum 1)];
            VObj [("a"%string, VArr [VNum 2; VNum 1])]]
           [VNum 1; VNum 2] eq_refl
           (VObj [("a"%string, VArr [VNum 2; VNum 1])]) (VNum 2)).
  - right. left. reflexivity.
  - left. reflexivity.
Defined.

(** X3.  Where the values of [distinct] come from.  Every returned value
    occurs in one of the documents (as the document itself, as the value of
    a property or as an element of an array, at some depth), or it is
    [Object.prototype] or one of its functions and the path has a segment
    that names an inherited property: [value[prop]] follows the prototype
    chain, so a path such as [constructor] yields a value that is in no
    document.  When no segment of the path names an inherited property,
    every returned value occurs in a document. *)
Theorem distinct_values_occur_in_documents objectHash key docs ret :
  Collection_distinct objectHash key docs = inr ret ->
  (forall x,
     In x ret ->
     (exists doc, In doc docs /\ occurs_in x doc)
     \/ exists b seg,
          x = VBuiltin b /\ In seg (split_dot key) /\ inherited seg <> None)
  /\ ((forall seg, In seg (split_dot key) -> inherited seg = None) ->
      forall x, In x ret -> exists doc, In doc docs /\ occurs_in x doc).
Proof.
  rewrite Collection_distinct_eq_per_document.
  unfold Collection_distinct_per_document.
  destruct (assertPathSafe4Distinct key); [discriminate|].
  intros H. injection H as <-.
  assert (Hall : forall x,
            In x (distinct_loop_per_document objectHash key docs [] []) ->
            (exists doc, In doc docs /\ occurs_in x doc)
            \/ exists b seg,
                 x = VBuiltin b /\ In seg (split_dot key)
                 /\ inherited seg <> None).
  { intros x Hx.
    destruct (distinct_loop_per_document_ret _ _ _ _ _ _ Hx)
      as [[]|(doc & Hdoc & Hxd)].
    destruct (contribution_occurs_in _ _ _ _ Hxd) as [Hocc|Hb];
      [left; exists doc; split; assumption | right; exact Hb]. }
  split; [exact Hall|].
  intros Hown x Hx.
  destruct (Hall x Hx) as [Hdoc|(b & seg & _ & Hseg & Hinh)];
    [exact Hdoc|].
  exfalso. apply Hinh, Hown, Hseg.
Qed.

Lemma distinct_values_occur_in_documents_witness :
  exists doc,
    In doc [doc_items] /\ occurs_in (VStr "b") doc.
Proof.
  apply (proj2 (distinct_values_occur_in_documents (fun _ => "h"%string)
                  "items.tag" [doc_items] [VStr "a"; VStr "b"] eq_refl)).
  - intros seg [<-|[<-|[]]]; reflexivity.
  - right. left. reflexivity.
Defined.

(** X4.  [distinct] refuses a path exactly when one of its segments is
    empty, always with the message about empty segments: the test
    [split.length === 0] never holds, since [split] of any string has at
    least one segment, so the empty path too is refused as having an empty
    segment and the message ['Path cannot be empty'] is never produced. *)
Theorem distinct_refuses_exactly_empty_segments objectHash key docs :
  (Collection_distinct objectHash key docs = inl msg_empty_segment
   <-> In ""%string (split_dot key))
  /\ (forall message,
        Collection_distinct objectHash key docs = inl message ->
        message = msg_empty_segment)
  /\ Collection_distinct objectHash key docs <> inl msg_empty_path
  /\ Collection_distinct objectHash "" docs = inl msg_empty_segment.
Proof.
  assert (Hcases :
    (In ""%string (split_dot key)
     /\ Collection_distinct objectHash key docs = inl msg_empty_segment)
    \/ (~ In ""%string (split_dot key)
        /\ exists ret, Collection_distinct objectHash key docs = inr ret)).
  { unfold Collection_distinct, assertPathSafe4Distinct.
    destruct (length (split_dot key) =? 0) eqn:Hlen.
    - apply Nat.eqb_eq in Hlen. apply length_zero_iff_nil in Hlen.
      exfalso. exact (split_dot_nonempty _ Hlen).
    - destruct (existsb (fun p => String.eqb p "") (split_dot key)) eqn:Hex.
      + left. split; [|reflexivity].
        apply existsb_exists in Hex as (p & Hin & Hp).
        apply String.eqb_eq in Hp. subst p. exact Hin.
      + right. split; [|eexists; reflexivity].
        intros Hin.
        assert (existsb (fun p => String.eqb p "") (split_dot key) = true)
          by (apply existsb_exists; exists ""%string; split;
              [exact Hin | reflexivity]).
        congruence. }
  split; [|split; [|split]].
  - destruct Hcases as [[Hin Heq]|[Hnin [ret Heq]]]; rewrite Heq; split;
      try (intros; assumption); try reflexivity; try discriminate.
    intros Hin. contradiction.
  - intros message Hm.
    destruct Hcases as [[_ Heq]|[_ [ret Heq]]]; rewrite Heq in Hm;
      [injection Hm as <-; reflexivity | discriminate].
  - destruct Hcases as [[_ Heq]|[_ [ret Heq]]]; rewrite Heq; discriminate.
  - reflexivity.
Qed.

Lemma distinct_refuses_exactly_empty_segments_witness :
  Collection_distinct (fun _ => "h"%string) "a..b" [doc_items]
  = inl msg_empty_segment.
Proof.
  apply (proj1 (distinct_refuses_exactly_empty_segments
                  (fun _ => "h"%string) "a..b" [doc_items])).
  right. left. reflexivity.
Defined.

(** X5.  Where the walk ends without a value.  Before the end of the path,
    an object that has no own property named by the segment contributes
    nothing when the segment names nothing inherited from
    [Object.prototype] either; an array contributes nothing when the
    segment parses as a negative number or as a number that is not below
    its length; and a value that is neither an array nor an object nor a
    function contributes nothing.  A segment that names a function of
    [Object.prototype] which the object does not own, at the end of the
    path, does contribute: that function. *)
Theorem extract_dead_ends path index values :
  index <> length path ->
  (forall props,
     get_prop (nth index path "undefined"%string) props = None ->
     inherited (nth index path "undefined"%string) = None ->
     extract path index (VObj props) values = values)
  /\ (forall elems asInt,
        parseInt (nth index path "undefined"%string) = Some asInt ->
        (asInt < 0 \/ Z.of_nat (length elems) <= asInt)%Z ->
        extract path index (VArr elems) values = values)
  /\ (forall value,
        match value with
        | VArr _ | VObj _ | VBuiltin _ => False
        | _ => True
        end ->
        extract path index value values = values)
  /\ (forall props b,
        get_prop (nth index path "undefined"%string) props = None ->
        inherited (nth index path "undefined"%string) = Some b ->
        index + 1 = length path ->
        extract path index (VObj props) values = values ++ [VBuiltin b]).
Proof.
  intros Hne. split; [|split; [|split]].
  - intros props Hget Hinh. rewrite extract_object by exact Hne.
    rewrite Hget, Hinh. reflexivity.
  - intros elems asInt Hparse Hrange. rewrite extract_array by exact Hne.
    rewrite Hparse.
    destruct (asInt <? Z.of_nat (length elems))%Z eqn:Hlt; [|reflexivity].
    apply Z.ltb_lt in Hlt.
    destruct asInt as [|p|p]; [lia | lia | reflexivity].
  - intros value Hv. apply extract_scalar; assumption.
  - intros props b Hget Hinh Hend. rewrite extract_object by exact Hne.
    rewrite Hget, Hinh. unfold extract_builtin.
    rewrite (proj2 (Nat.eqb_eq _ _) Hend). reflexivity.
Qed.

Lemma extract_dead_ends_witness :
  extract ["items"%string; "-1"%string] 1 (VArr [VStr "a"; VStr "b"]) []
  = []
  /\ extract ["a"%string; "constructor"%string] 1
       (VObj [("b"%string, VNum 1)]) []
     = [VBuiltin (PrototypeFunction "constructor")].
Proof.
  split.
  - apply (proj1 (proj2 (extract_dead_ends ["items"%string; "-1"%string] 1 []
                           ltac:(discriminate)))
             [VStr "a"; VStr "b"] (-1)%Z eq_refl).
    left. reflexivity.
  - apply (proj2 (proj2 (proj2 (extract_dead_ends
                                  ["a"%string; "constructor"%string] 1 []
                                  ltac:(discriminate))))
             [("b"%string, VNum 1)] (PrototypeFunction "constructor")
             eq_refl eq_refl eq_refl).
Defined.

(** X6.  [takeWhile] returns the longest initial segment of the array whose
    elements all satisfy the predicate: the array is the result followed by
    a rest that is empty or starts with an element that fails it. *)
Theorem takeWhile_longest_prefix {T} (arr : list T) (pred : T -> bool) :
  exists rest,
    arr = takeWhile arr pred ++ rest
    /\ forallb pred (takeWhile arr pred) = true
    /\ match rest with
       | [] => True
       | x :: _ => pred x = false
       end.
Proof.
  destruct (takeWhile_prefix arr pred) as (rest & H1 & H2).
  exists rest. split; [exact H1|]. split; [apply takeWhile_all | exact H2].
Qed.

(** X7.  The projection that [distinct] asks for is the path cut before its
    first segment that converts to a number: it is the whole path when no
    segment does, the empty string when the first segment does, and
    otherwise its segments are the segments of the path up to that one. *)
Theorem projection_stops_at_first_number isNaN path :
  (forallb isNaN (split_dot path) = true ->
   pullSafeProjection4Distinct isNaN path = path)
  /\ (forall first rest,
        split_dot path = first :: rest -> isNaN first = false ->
        pullSafeProjection4Distinct isNaN path = ""%string)
  /\ (forall first rest,
        split_dot path = first :: rest -> isNaN first = true ->
        split_dot (pullSafeProjection4Distinct isNaN path)
        = takeWhile (split_dot path) isNaN
        /\ exists after,
             split_dot path
             = split_dot (pullSafeProjection4Distinct isNaN path) ++ after
             /\ match after with
                | [] => True
                | x :: _ => isNaN x = false
                end).
Proof.
  unfold pullSafeProjection4Distinct. split; [|split].
  - intros Hall.
    assert (Htw : forall l, forallb isNaN l = true -> takeWhile l isNaN = l).
    { induction l as [|x l IH]; simpl; [reflexivity|].
      intros H. apply andb_true_iff in H as [Hx Hl].
      rewrite Hx, (IH Hl). reflexivity. }
    rewrite (Htw _ Hall). apply join_dot_split_dot.
  - intros first rest Hsplit Hfirst. rewrite Hsplit. simpl.
    rewrite Hfirst. reflexivity.
  - intros first rest Hsplit Hfirst.
    assert (Hround :
      split_dot (join_dot (takeWhile (split_dot path) isNaN))
      = takeWhile (split_dot path) isNaN).
    { apply split_dot_join_dot.
      - rewrite Hsplit. simpl. rewrite Hfirst. discriminate.
      - pose proof (split_dot_segments_no_dot path) as Hnd.
        destruct (takeWhile_prefix (split_dot path) isNaN) as (after & Ha & _).
        rewrite Ha, forallb_app in Hnd.
        apply andb_true_iff in Hnd as [Hnd _]. exact Hnd. }
    split; [exact Hround|].
    rewrite Hround. apply takeWhile_prefix.
Qed.

Lemma projection_stops_at_first_number_witness :
  pullSafeProjection4Distinct (fun s => negb (String.eqb s "0")) "items.tag"
  = "items.tag"%string.
Proof.
  apply (proj1 (projection_stops_at_first_number
                  (fun s => negb (String.eqb s "0")) "items.tag")).
  reflexivity.
Defined.

(** X25.  Documents that repeat earlier ones add nothing to [distinct]:
    when every document of a second batch is also in the first, the result
    for the two batches one after the other is the result for the first
    alone.  In particular the result for a list of documents followed by
    itself is the result for the list. *)
Theorem distinct_ignores_repeated_documents objectHash key docs docs' :
  (forall doc, In doc docs' -> In doc docs) ->
  Collection_distinct objectHash key (docs ++ docs')
  = Collection_distinct objectHash key docs.
Proof.
  intros Hsub. rewrite !Collection_distinct_eq_per_document.
  unfold Collection_distinct_per_document.
  destruct (assertPathSafe4Distinct key); [reflexivity|]. f_equal.
  rewrite (distinct_loop_per_document_app objectHash key docs docs' [] []
             eq_refl (NoDup_nil_2 (A:=jsval))).
  apply distinct_loop_per_document_nothing_new. intros doc v Hdoc Hv.
  apply In_seen_has.
  destruct (distinct_loop_per_document_distinct objectHash key docs [] []
              eq_refl (NoDup_nil_2 (A:=jsval))) as (_ & _ & Hcov).
  exact (Hcov doc v (Hsub doc Hdoc) Hv).
Qed.

Lemma distinct_ignores_repeated_documents_witness :
  Collection_distinct (fun _ => "h"%string) "items.tag"
    ([doc_items] ++ [doc_items])
  = Collection_distinct (fun _ => "h"%string) "items.tag" [doc_items].
Proof.
  apply (distinct_ignores_repeated_documents (fun _ => "h"%string)
           "items.tag" [doc_items] [doc_items]).
  intros doc Hdoc. exact Hdoc.
Defined.

(* ===================================================================== *)
(** * More on bulk writes, insertions and deletions *)
(* ===================================================================== *)

Lemma map_buildBulkWriteCommands_unknown before name after :
  existsb is_OpOther before = false ->
  map_buildBulkWriteCommands (before ++ OpOther name :: after)
  = Thrown (Error (msg_unknown_operation name)).
Proof.
  induction before as [|op rest IH]; simpl; intros H; [reflexivity|].
  apply orb_false_iff in H as [Hop Hrest].
  destruct op; try discriminate; simpl; rewrite (IH Hrest); reflexivity.
Qed.

Lemma buildBulkWriteCommands_upsert_eq op c :
  buildBulkWriteCommands op = Returned c ->
  is_upsert_command c = is_upsert_operation op.
Proof.
  destruct op as [d|f r [[|]|]|f u [[|]|]|f u [[|]|]|f|f|n]; simpl;
    intros H; try discriminate; injection H as <-; reflexivity.
Qed.

Lemma map_buildBulkWriteCommands_known operations :
  existsb is_OpOther operations = false ->
  exists commands,
    map_buildBulkWriteCommands operations = Returned commands
    /\ Forall2 (fun op c => buildBulkWriteCommands op = Returned c)
               operations commands.
Proof.
  induction operations as [|op rest IH]; simpl; intros H.
  - exists []. split; [reflexivity | constructor].
  - apply orb_false_iff in H as [Hop Hrest].
    destruct (IH Hrest) as (cs & Hcs & Hall). rewrite Hcs.
    destruct op; try discriminate; simpl;
      eexists; (split; [reflexivity | constructor; [reflexivity | exact Hall]]).
Qed.

(** The ordered loop over requests that are answered with a status. *)
Lemma bulkWriteOrdered_from_advance srv operations d :
  forall i results,
    i + d <= length operations ->
    (forall j, i <= j < i + d -> answered_status srv operations j <> None) ->
    bulkWriteOrdered_from srv (drop i operations) i results (take i operations)
    = bulkWriteOrdered_from srv (drop (i + d) operations) (i + d)
        (merge_order srv operations (seq i d) results)
        (take (i + d) operations).
Proof.
  induction d as [|d IH]; intros i results Hlen Hok.
  - rewrite Nat.add_0_r. reflexivity.
  - destruct (lookup_lt_is_Some_2 operations i ltac:(lia)) as [op Hopi].
    rewrite (drop_S _ _ _ Hopi). cbn [bulkWriteOrdered_from executeCommand].
    assert (Hl : length (take i operations) = i)
      by (rewrite length_take; lia).
    rewrite Hl.
    pose proof (Hok i ltac:(lia)) as Hans. unfold answered_status in Hans.
    rewrite (operation_at_lookup _ _ _ Hopi) in Hans.
    destruct (srv i op) as [resp|e] eqn:Hsrv; [|contradiction].
    destruct (status resp) as [st|] eqn:Hst; [|contradiction].
    rewrite <- (take_S_r _ _ _ Hopi).
    replace (i + 1) with (S i) by lia.
    rewrite (IH (S i)); [| lia | intros j Hj; apply Hok; lia].
    replace (S i + d) with (i + S d) by lia.
    cbn [seq]. rewrite merge_order_cons. unfold answered_status.
    rewrite (operation_at_lookup _ _ _ Hopi), Hsrv, Hst. reflexivity.
Qed.

Section IdleSpawn.

Context {A : Type}.
Variable total stride : nat.
Variable stops_at : nat -> bool.
Variable command_at : nat -> Command.

(** When the [break] is taken at every index below [total], the workers
    leave their loops at once and nothing is sent. *)
Lemma spawn_resolved n (p : pool A) :
  (forall i, i < total -> stops_at i = true) ->
  forallb is_Resolved (workers p) = true ->
  forallb is_Resolved (workers (spawn total stride stops_at command_at n p))
  = true
  /\ sent (spawn total stride stops_at command_at n p) = sent p
  /\ accumulated (spawn total stride stops_at command_at n p) = accumulated p
  /\ failCommands (spawn total stride stops_at command_at n p) = failCommands p
  /\ rejection (spawn total stride stops_at command_at n p) = rejection p.
Proof.
  intros Hbreak. revert p. induction n as [|n IH]; intros p Hall.
  - cbn. repeat split; try reflexivity. exact Hall.
  - assert (Hloop : exists q,
              worker_loop total stride stops_at command_at p = (Resolved, q)
              /\ workers q = workers p /\ sent q = sent p
              /\ accumulated q = accumulated p
              /\ failCommands q = failCommands p
              /\ rejection q = rejection p).
    { unfold worker_loop. destruct (masterIndex p <? total) eqn:Hlt.
      + apply Nat.ltb_lt in Hlt. rewrite (Hbreak _ Hlt).
        eexists. split; [reflexivity|]. cbn. repeat split; reflexivity.
      + exists p. repeat split; reflexivity. }
    destruct Hloop as (q & Hq & Hw & Hs & Ha & Hf & Hr).
    cbn [spawn]. rewrite Hq.
    destruct (IH (push_worker Resolved q)) as (H1 & H2 & H3 & H4 & H5).
    { cbn. rewrite forallb_app, Hw, Hall. reflexivity. }
    rewrite H1, H2, H3, H4, H5. cbn. repeat split; congruence.
Qed.

Lemma awaited_resolved (ws : list worker) :
  forallb is_Resolved ws = true -> awaited ws = [].
Proof.
  induction ws as [|w ws IH]; [reflexivity|].
  cbn [forallb]. intros H. apply andb_true_iff in H as [Hw Hws].
  destruct w; try discriminate. cbn. exact (IH Hws).
Qed.

End IdleSpawn.

(** The loop of [deleteMany] over answers that say [moreData]. *)
Lemma deleteMany_loop_pages srv c n :
  forall fuel numDeleted sent0,
    (forall k, length sent0 <= k < length sent0 + n ->
               exists resp, srv k c = Returned resp
                            /\ status_moreData resp = true) ->
    deleteMany_loop (n + fuel) srv c numDeleted sent0
    = deleteMany_loop fuel srv c
        (numDeleted + sumZ (deleted_of srv c) (seq (length sent0) n))%Z
        (sent0 ++ repeat c n).
Proof.
  induction n as [|n IH]; intros fuel numDeleted sent0 Hmore.
  - cbn. rewrite Z.add_0_r, app_nil_r. reflexivity.
  - destruct (Hmore (length sent0) ltac:(lia)) as (resp & Hsrv & Hmd).
    cbn [Nat.add deleteMany_loop executeCommand]. rewrite Hsrv, Hmd.
    rewrite IH.
    + rewrite length_app. cbn [length]. rewrite Nat.add_1_r.
      cbn [seq sumZ foldr repeat]. unfold deleted_of at 2. rewrite Hsrv.
      rewrite <- app_assoc. cbn [app].
      f_equal. unfold sumZ. lia.
    + intros k Hk. rewrite length_app in Hk. cbn [length] in Hk.
      apply Hmore. lia.
Qed.

Lemma deleteMany_loop_repeats fuel srv c :
  forall numDeleted sent0 out sent,
    deleteMany_loop fuel srv c numDeleted sent0 = Some (out, sent) ->
    exists n, sent = sent0 ++ repeat c (S n).
Proof.
  induction fuel as [|fuel IH]; intros numDeleted sent0 out sent H;
    [discriminate|].
  cbn [deleteMany_loop executeCommand] in H.
  destruct (srv (length sent0) c) as [resp|e].
  - destruct (status_moreData resp).
    + destruct (IH _ _ _ _ H) as [n Hn]. exists (S n).
      rewrite Hn, <- app_assoc. reflexivity.
    + injection H as <- <-. exists 0. reflexivity.
  - exists 0. destruct e; injection H as <- <-; reflexivity.
Qed.

(** A pool that has no worker, or whose workers all take the [break] at
    once, returns the initial accumulator and has sent nothing, whenever it
    is looked at. *)
Lemma idle_pool_returns {A} srv total stride stops_at command_at
    (on_response : A -> Response -> nat -> outcome A) on_failure mkError
    initial parallel schedule :
  Z.to_nat parallel = 0 \/ (forall i, i < total -> stops_at i = true) ->
  settle mkError
    (run srv total stride stops_at command_at on_response on_failure schedule
       (start total stride stops_at command_at initial parallel))
  = Some (Returned initial)
  /\ sent (run srv total stride stops_at command_at on_response on_failure
             schedule (start total stride stops_at command_at initial parallel))
     = [].
Proof.
  intros Hidle.
  set (p0 := {| masterIndex := 0; accumulated := initial; failCommands := [];
                failRaw := []; workers := []; sent := [];
                rejection := None |}).
  assert (Hq : forallb is_Resolved
                 (workers (start total stride stops_at command_at initial
                             parallel)) = true
               /\ sent (start total stride stops_at command_at initial parallel)
                  = []
               /\ accumulated (start total stride stops_at command_at initial
                                 parallel) = initial
               /\ failCommands (start total stride stops_at command_at initial
                                  parallel) = []
               /\ rejection (start total stride stops_at command_at initial
                               parallel) = None).
  { unfold start. fold p0. destruct Hidle as [Hzero|Hbreak].
    - rewrite Hzero. cbn. repeat split; reflexivity.
    - exact (spawn_resolved total stride stops_at command_at
               (Z.to_nat parallel) p0 Hbreak eq_refl). }
  destruct Hq as (Hres & Hsent & Hacc & Hfc & Hrej).
  rewrite run_idle by (apply awaited_resolved; exact Hres).
  unfold settle. rewrite Hrej, Hres, Hfc, Hacc, Hsent. cbn.
  split; reflexivity.
Qed.

Lemma insertManyOrdered_from_stuck srv documents :
  (forall k c, exists resp, srv k c = Returned resp) ->
  forall fuel i ids sent,
    i < length documents ->
    insertManyOrdered_from fuel srv documents 0 i ids sent = None.
Proof.
  intros Hsrv. induction fuel as [|fuel IH]; intros i ids sent Hi.
  - cbn [insertManyOrdered_from].
    destruct (length documents <=? i) eqn:Hle; [|reflexivity].
    apply Nat.leb_le in Hle. lia.
  - cbn [insertManyOrdered_from].
    destruct (length documents <=? i) eqn:Hle;
      [apply Nat.leb_le in Hle; lia|].
    unfold insertMany, executeCommand.
    destruct (Hsrv (length sent)
                (CmdInsertMany (slice documents i (i + 0)) true))
      as [resp Hresp].
    rewrite Hresp. rewrite Nat.add_0_r. apply IH. exact Hi.
Qed.

(** The result of merging the answers to the requests [0 .. m - 1] does not
    depend on the order of merging, up to the order of the raw
    responses. *)
Lemma merge_order_any_order srv operations order order' :
  Permutation order order' -> NoDup order ->
  let r := merge_order srv operations order new_BulkWriteResult in
  let r' := merge_order srv operations order' new_BulkWriteResult in
  insertedCount_ r = insertedCount_ r'
  /\ matchedCount_ r = matchedCount_ r'
  /\ modifiedCount_ r = modifiedCount_ r'
  /\ deletedCount_ r = deletedCount_ r'
  /\ upsertedCount_ r = upsertedCount_ r'
  /\ upsertedIds r = upsertedIds r'
  /\ Permutation (getRawResponse r) (getRawResponse r').
Proof.
  intros Hperm Hnd r r'.
  destruct (merge_order_counters srv operations order new_BulkWriteResult)
    as (H1 & H2 & H3 & H4 & H5).
  destruct (merge_order_counters srv operations order' new_BulkWriteResult)
    as (H1' & H2' & H3' & H4' & H5').
  fold r in H1, H2, H3, H4, H5. fold r' in H1', H2', H3', H4', H5'.
  rewrite H1, H2, H3, H4, H5, H1', H2', H3', H4', H5'.
  rewrite !(sumZ_Permutation _ _ _ Hperm).
  repeat (split; [reflexivity|]).
  assert (Hnd' : NoDup order') by (rewrite <- Hperm; exact Hnd).
  split.
  - apply map_eq. intros i.
    destruct (merge_order_upserted srv operations order Hnd new_BulkWriteResult)
      as [_ Hl]; [intros k _; apply lookup_empty | reflexivity |].
    destruct (merge_order_upserted srv operations order' Hnd'
                new_BulkWriteResult)
      as [_ Hl']; [intros k _; apply lookup_empty | reflexivity |].
    fold r in Hl. fold r' in Hl'. rewrite Hl, Hl'.
    cbn [new_BulkWriteResult upsertedIds]. rewrite lookup_empty.
    destruct (bool_decide (i ∈ order)) eqn:Hi.
    + apply bool_decide_eq_true_1 in Hi. rewrite Hperm in Hi.
      rewrite bool_decide_eq_true_2 by exact Hi. reflexivity.
    + apply bool_decide_eq_false_1 in Hi. rewrite Hperm in Hi.
      rewrite bool_decide_eq_false_2 by exact Hi. reflexivity.
  - unfold r, r'. rewrite !merge_order_raw. cbn [new_BulkWriteResult getRawResponse app].
    rewrite Hperm. reflexivity.
Qed.

Lemma merge_order_same_answers srv srv' operations order :
  (forall k, In k order ->
             answered_status srv' operations k = answered_status srv operations k) ->
  forall r,
    merge_order srv' operations order r = merge_order srv operations order r.
Proof.
  induction order as [|k rest IH]; intros Hsame r; [reflexivity|].
  rewrite !merge_order_cons, (Hsame k (or_introl eq_refl)).
  apply IH. intros j Hj. apply Hsame. right. exact Hj.
Qed.

(** X8.  [bulkWrite] builds the commands of all the operations before it
    sends any of them: when an operation is of none of the six kinds, the
    call throws the error that names the first such operation and nothing has
    been sent, in either mode, whatever precedes or follows that operation. *)
Theorem bulkWrite_refuses_unknown_operation_before_sending
    srv before name after options schedule :
  existsb is_OpOther before = false ->
  Collection_bulkWrite srv (before ++ OpOther name :: after) options schedule
  = (Some (Thrown (Error (msg_unknown_operation name))), []).
Proof.
  intros Hknown. unfold Collection_bulkWrite.
  rewrite (map_buildBulkWriteCommands_unknown _ _ _ Hknown). reflexivity.
Qed.

Lemma bulkWrite_refuses_unknown_operation_witness :
  Collection_bulkWrite example_service
    ([OpInsertOne doc_A] ++ OpOther "insertTwo" :: [OpInsertOne doc_B])
    None [0; 1]
  = (Some (Thrown (Error "Unknown bulk write operation: insertTwo")), []).
Proof.
  apply (bulkWrite_refuses_unknown_operation_before_sending example_service
           [OpInsertOne doc_A] "insertTwo" [OpInsertOne doc_B] None [0; 1]).
  reflexivity.
Defined.

(** X9.  When every operation is of one of the six kinds, the commands are
    built, one for each operation and in the same order, and a command asks
    for an upsert exactly when its operation says [upsert: true]: a missing
    [upsert] is sent as [false]. *)
Theorem bulkWrite_commands_follow_operations operations :
  existsb is_OpOther operations = false ->
  exists commands,
    map_buildBulkWriteCommands operations = Returned commands
    /\ length commands = length operations
    /\ forall i op,
         operations !! i = Some op ->
         exists c, commands !! i = Some c
                   /\ buildBulkWriteCommands op = Returned c
                   /\ is_upsert_command c = is_upsert_operation op.
Proof.
  intros Hknown.
  destruct (map_buildBulkWriteCommands_known _ Hknown) as (cs & Hcs & Hall).
  exists cs. split; [exact Hcs|]. split.
  - symmetry. exact (Forall2_length _ _ _ Hall).
  - intros i op Hop.
    destruct (Forall2_lookup_l _ _ _ _ _ Hall Hop) as (c & Hc & Hb).
    exists c. split; [exact Hc|]. split; [exact Hb|].
    apply buildBulkWriteCommands_upsert_eq. exact Hb.
Qed.

Lemma bulkWrite_commands_follow_operations_witness :
  exists commands,
    map_buildBulkWriteCommands example_operations = Returned commands
    /\ length commands = length example_operations
    /\ forall i op,
         example_operations !! i = Some op ->
         exists c, commands !! i = Some c
                   /\ buildBulkWriteCommands op = Returned c
                   /\ is_upsert_command c = is_upsert_operation op.
Proof.
  apply (bulkWrite_commands_follow_operations example_operations).
  reflexivity.
Defined.

(** X10.  The ordered bulk write wraps only operational failures.  When the
    requests before the [k]-th have been answered with a status and the
    [k]-th fails with an error that is not a [DataAPIResponseError], the call
    throws that very error, and when the [k]-th is answered without a
    status it throws a [TypeError]; in both cases the commands 0 to [k] have
    been sent and the accumulated result is lost. *)
Theorem bulkWriteOrdered_rethrows_other_errors srv operations k failing :
  operations !! k = Some failing ->
  (forall j, j < k -> answered_status srv operations j <> None) ->
  (forall e,
     srv k failing = Thrown e -> is_DataAPIResponseError e = false ->
     bulkWriteOrdered srv operations = (Thrown e, take (S k) operations))
  /\ (forall resp,
        srv k failing = Returned resp -> status resp = None ->
        bulkWriteOrdered srv operations
        = (Thrown TypeError, take (S k) operations)).
Proof.
  intros Hop Hok.
  assert (Hk : k < length operations) by (apply lookup_lt_Some in Hop; exact Hop).
  assert (Hadv :
    bulkWriteOrdered srv operations
    = bulkWriteOrdered_from srv (drop k operations) k
        (merge_order srv operations (seq 0 k) new_BulkWriteResult)
        (take k operations)).
  { unfold bulkWriteOrdered.
    pose proof (bulkWriteOrdered_from_advance srv operations k 0
                  new_BulkWriteResult ltac:(lia)
                  ltac:(intros j Hj; apply Hok; lia)) as H.
    cbn [Nat.add] in H. rewrite drop_0, take_0 in H. exact H. }
  assert (Hl : length (take k operations) = k)
    by (rewrite length_take; lia).
  split.
  - intros e Hsrv He. rewrite Hadv, (drop_S _ _ _ Hop).
    cbn [bulkWriteOrdered_from executeCommand]. rewrite Hl, Hsrv.
    rewrite (take_S_r _ _ _ Hop).
    destruct e; try reflexivity. discriminate.
  - intros resp Hsrv Hst. rewrite Hadv, (drop_S _ _ _ Hop).
    cbn [bulkWriteOrdered_from executeCommand]. rewrite Hl, Hsrv, Hst.
    rewrite (take_S_r _ _ _ Hop). reflexivity.
Qed.

Lemma bulkWriteOrdered_rethrows_other_errors_witness :
  bulkWriteOrdered failing_transport example_commands
  = (Thrown (TransportError "503"), take 1 example_commands).
Proof.
  apply (proj1 (bulkWriteOrdered_rethrows_other_errors failing_transport
                  example_commands 0 (CmdInsertOne doc_A) eq_refl
                  ltac:(intros j Hj; lia))
           (TransportError "503") eq_refl eq_refl).
Defined.

(** X11.  At every point of an unordered bulk write, whatever the order in
    which the answers arrive and whether or not a worker has thrown, the
    commands sent so far are the first operations in the order of the
    input, each sent once; the shared index counts them, and every worker
    that is waiting waits for the answer to the operation at the index of
    its request. *)
Theorem bulkWriteUnordered_takes_operations_in_order
    srv operations parallel schedule :
  let p := bulkWriteUnordered_run srv operations parallel schedule in
  sent p = take (length (sent p)) operations
  /\ length (sent p) <= length operations
  /\ masterIndex p = length (sent p)
  /\ Forall (fun w => match w with
                      | Awaiting localI request => localI = request
                      | _ => True
                      end) (workers p).
Proof.
  intros p.
  assert (Hbreak : forall i, i < length operations ->
                             (length operations <=? i) = false)
    by (intros i Hi; apply Nat.leb_gt; exact Hi).
  pose proof (invariant_run srv (length operations) 1
                (fun localI => length operations <=? localI)
                (operation_at operations) bulkWrite_on_response add_partial
                Nat.lt_0_1 Hbreak new_BulkWriteResult schedule _
                (invariant_start srv (length operations) 1
                   (fun localI => length operations <=? localI)
                   (operation_at operations) bulkWrite_on_response add_partial
                   Nat.lt_0_1 Hbreak new_BulkWriteResult parallel))
    as (Hmi & Hsent & Hlt & Hw & _).
  fold (bulkWriteUnordered_start operations parallel) in Hmi, Hsent, Hlt, Hw.
  fold (bulkWriteUnordered_run srv operations parallel schedule)
    in Hmi, Hsent, Hlt, Hw.
  fold p in Hmi, Hsent, Hlt, Hw.
  assert (Hlen : length (sent p) <= length operations).
  { destruct (length (sent p)) as [|m] eqn:Hm; [lia|].
    specialize (Hlt m ltac:(lia)). lia. }
  split; [|split; [exact Hlen | split]].
  - rewrite Hsent at 1. apply map_operation_at. exact Hlen.
  - rewrite Hmi. lia.
  - eapply Forall_impl; [exact Hw|].
    intros [localI request| |e]; cbn; [lia | trivial | trivial].
Qed.

(** X12.  A bulk write with nothing to do succeeds without a request: for
    the empty list of operations in either mode, and in unordered mode for
    any operations when the pool size [parallel] is zero or negative, the
    call returns the empty result and nothing is sent. *)
Theorem bulkWrite_with_nothing_to_do srv operations commands options schedule :
  map_buildBulkWriteCommands operations = Returned commands ->
  operations = []
  \/ (bulkWrite_ordered options = false
      /\ (bulkWrite_pool_size options <= 0)%Z) ->
  Collection_bulkWrite srv operations options schedule
  = (Some (Returned new_BulkWriteResult), []).
Proof.
  intros Hbuild Hidle. unfold Collection_bulkWrite. rewrite Hbuild.
  assert (Hun : (commands = [] \/ (bulkWrite_pool_size options <= 0)%Z) ->
                bulkWriteUnordered srv commands (bulkWrite_pool_size options)
                  schedule
                = (Some (Returned new_BulkWriteResult), [])).
  { intros H. unfold bulkWriteUnordered, bulkWriteUnordered_run,
      bulkWriteUnordered_start.
    destruct (idle_pool_returns srv (length commands) 1
                (fun localI => length commands <=? localI)
                (operation_at commands) bulkWrite_on_response add_partial
                BulkWriteError new_BulkWriteResult
                (bulkWrite_pool_size options) schedule) as [H1 H2].
    { destruct H as [->|Hle]; [right; cbn; intros i Hi; lia | left; lia]. }
    rewrite H1, H2. reflexivity. }
  destruct Hidle as [->|[Hord Hle]].
  - cbn in Hbuild. injection Hbuild as <-.
    destruct (bulkWrite_ordered options); [reflexivity|].
    apply Hun. left. reflexivity.
  - rewrite Hord. apply Hun. right. exact Hle.
Qed.

Lemma bulkWrite_with_nothing_to_do_witness :
  Collection_bulkWrite example_service example_operations
    (Some {| bw_ordered := None; bw_parallel := Some 0%Z;
             bw_concurrency := None |}) [0; 1; 2]
  = (Some (Returned new_BulkWriteResult), []).
Proof.
  apply (bulkWrite_with_nothing_to_do example_service example_operations
           example_commands _ [0; 1; 2] eq_refl).
  right. split; [reflexivity | cbn; lia].
Defined.

(** X13.  In the result of a bulk write that returns, [upsertedCount] is the
    number of entries of [upsertedIds], and [upsertedIds[i]] is the upserted
    id carried by the answer to operation [i], for the operations that were
    sent, and [undefined] for every other index. *)
Theorem bulkWrite_upsertedIds_agree_with_upsertedCount
    srv operations commands options schedule results sent :
  map_buildBulkWriteCommands operations = Returned commands ->
  Collection_bulkWrite srv operations options schedule
  = (Some (Returned results), sent) ->
  upsertedCount_ results = Z.of_nat (size (upsertedIds results))
  /\ forall i,
       upsertedIds results !! i
       = if bool_decide (i < length sent)
         then reported_upsert srv commands i
         else None.
Proof.
  intros Hbuild Hrun. unfold Collection_bulkWrite in Hrun.
  rewrite Hbuild in Hrun.
  destruct (bulkWrite_completed _ _ _ _ _ _ Hrun)
    as (order & Hperm & _ & _ & Hres).
  assert (Hnd : NoDup order) by (rewrite Hperm; apply NoDup_seq).
  destruct (merge_order_upserted srv commands order Hnd new_BulkWriteResult)
    as [Hcount Hlook].
  { intros k _. apply lookup_empty. }
  { reflexivity. }
  rewrite <- Hres in Hcount, Hlook.
  split; [exact Hcount|]. intros i.
  rewrite Hlook. cbn [new_BulkWriteResult upsertedIds].
  rewrite lookup_empty.
  destruct (bool_decide (i < length sent)) eqn:Hi.
  - apply bool_decide_eq_true_1 in Hi.
    rewrite bool_decide_eq_true_2; [reflexivity|].
    rewrite Hperm. apply elem_of_seq. lia.
  - apply bool_decide_eq_false_1 in Hi.
    rewrite bool_decide_eq_false_2; [reflexivity|].
    rewrite Hperm. intros Hin. apply elem_of_seq in Hin. lia.
Qed.

Lemma bulkWrite_upsertedIds_agree_witness :
  upsertedCount_
    (addToBulkWriteResult new_BulkWriteResult
       {| insertedIds := None; matchedCount := None; modifiedCount := None;
          deletedCount := None; upsertedId := Some (VStr "x");
          moreData := None |} 0)
  = Z.of_nat (size (upsertedIds
    (addToBulkWriteResult new_BulkWriteResult
       {| insertedIds := None; matchedCount := None; modifiedCount := None;
          deletedCount := None; upsertedId := Some (VStr "x");
          moreData := None |} 0))).
Proof.
  apply (proj1 (bulkWrite_upsertedIds_agree_with_upsertedCount
                  upserting_service [upsert_operation] _
                  (Some {| bw_ordered := Some true; bw_parallel := None;
                           bw_concurrency := None |}) [] _ _
                  eq_refl eq_refl)).
Defined.

Section InsertManyEdges.

Variable setDefaultIdForInsert : jsval -> jsval.

(** X14.  An [insertMany] that cannot make a request succeeds with nothing
    inserted: for the empty array of documents in either mode, and in
    unordered mode for any documents when the chunk size is 0 or the pool
    size [parallel] is zero or negative, the call returns
    [{ insertedCount: 0, insertedIds: [] }] and nothing is sent. *)
Theorem insertMany_with_nothing_to_do srv documents options fuel schedule :
  documents = []
  \/ (default false (options ≫= im_ordered) = false
      /\ (insertMany_chunkSize options = 0
          \/ (default 8%Z (options ≫= im_parallel) <= 0)%Z)) ->
  Collection_insertMany setDefaultIdForInsert srv documents options fuel
    schedule
  = (Some (Returned {| im_insertedCount := 0; im_insertedIds := [] |}), []).
Proof.
  intros Hidle. unfold Collection_insertMany.
  set (docs := map setDefaultIdForInsert documents).
  set (chunkSize := insertMany_chunkSize options).
  set (parallel := default 8%Z (options ≫= im_parallel)).
  assert (Hun : (docs = [] \/ chunkSize = 0 \/ (parallel <= 0)%Z) ->
                insertManyUnordered srv docs parallel chunkSize schedule
                = (Some (Returned []), [])).
  { intros H. unfold insertManyUnordered, insertManyUnordered_run,
      insertManyUnordered_start.
    destruct (idle_pool_returns srv (length docs) chunkSize
                (insertMany_stops_at docs chunkSize)
                (chunk_command docs chunkSize)
                insertMany_on_response insertMany_on_failure
                mkInsertManyError [] parallel schedule) as [H1 H2].
    { destruct H as [->|[->|Hle]].
      - right. cbn. intros i Hi. lia.
      - right. intros i Hi. unfold insertMany_stops_at.
        apply Nat.leb_le. lia.
      - left. lia. }
    rewrite H1, H2. reflexivity. }
  destruct Hidle as [->|[Hord Hcase]].
  - destruct (default false (options ≫= im_ordered)).
    + subst docs. cbn [map]. unfold insertManyOrdered.
      destruct fuel; reflexivity.
    + rewrite Hun by (left; reflexivity). reflexivity.
  - rewrite Hord. rewrite Hun by (right; exact Hcase). reflexivity.
Qed.

(** X15.  The ordered [insertMany] with a chunk size of 0 does not end: with
    at least one document and a service that answers every request, the
    loop index never advances and no number of iterations brings the call
    to a result. *)
Theorem insertMany_ordered_chunkSize_0_never_ends
    srv documents parallel fuel schedule :
  documents <> [] ->
  (forall k c, exists resp, srv k c = Returned resp) ->
  Collection_insertMany setDefaultIdForInsert srv documents
    (Some {| im_ordered := Some true; im_parallel := parallel;
             im_chunkSize := Some 0 |}) fuel schedule
  = (None, []).
Proof.
  intros Hne Hsrv. unfold Collection_insertMany. cbn.
  unfold insertManyOrdered.
  rewrite insertManyOrdered_from_stuck; [reflexivity | exact Hsrv |].
  rewrite length_map. destruct documents; [congruence | cbn; lia].
Qed.

End InsertManyEdges.

Lemma insertMany_with_nothing_to_do_witness :
  Collection_insertMany (fun d => d) example_service [doc_A; doc_B]
    (Some {| im_ordered := None; im_parallel := None;
             im_chunkSize := Some 0 |}) 5 [0; 1]
  = (Some (Returned {| im_insertedCount := 0; im_insertedIds := [] |}), []).
Proof.
  apply (insertMany_with_nothing_to_do (fun d => d) example_service
           [doc_A; doc_B] _ 5 [0; 1]).
  right. split; [reflexivity | left; reflexivity].
Defined.

Lemma insertMany_ordered_chunkSize_0_witness :
  Collection_insertMany (fun d => d)
    (fun _ _ => Returned {| status := Some (status_of_ids []) |})
    [doc_A; doc_B]
    (Some {| im_ordered := Some true; im_parallel := None;
             im_chunkSize := Some 0 |}) 5 []
  = (None, []).
Proof.
  apply (insertMany_ordered_chunkSize_0_never_ends (fun d => d)
           (fun _ _ => Returned {| status := Some (status_of_ids []) |})
           [doc_A; doc_B] None 5 []).
  - discriminate.
  - intros k c. eexists. reflexivity.
Defined.

(** X16.  [deleteMany] adds up what the pages report.  When the first [n]
    requests are answered with [moreData], the call has sent its one command
    [n + 1] times by the time the next answer arrives, and: if that answer
    has no [moreData], it returns the sum of the [deletedCount] of all the
    answers; if it is a [DataAPIResponseError], it throws a
    [DeleteManyError] for the command, carrying the sum so far plus the
    [deletedCount] of the failing response; any other error is thrown as it
    is. *)
Theorem deleteMany_adds_up_the_pages srv filter m n fuel :
  Object_keys_length filter = Some (S m) ->
  n < fuel ->
  (forall k, k < n ->
     exists resp, srv k (CmdDeleteMany filter) = Returned resp
                  /\ status_moreData resp = true) ->
  (forall resp,
     srv n (CmdDeleteMany filter) = Returned resp ->
     status_moreData resp = false ->
     Collection_deleteMany fuel srv filter
     = Some (Returned (sumZ (deleted_of srv (CmdDeleteMany filter)) (seq 0 n)
                       + status_deletedCount resp)%Z,
             repeat (CmdDeleteMany filter) (S n)))
  /\ (forall desc others,
        srv n (CmdDeleteMany filter)
        = Thrown (DataAPIResponseError desc others) ->
        Collection_deleteMany fuel srv filter
        = Some (Thrown (DeleteManyError [CmdDeleteMany filter]
                          [rawResponse desc]
                          (sumZ (deleted_of srv (CmdDeleteMany filter))
                                (seq 0 n)
                           + status_deletedCount (rawResponse desc))%Z),
                repeat (CmdDeleteMany filter) (S n)))
  /\ (forall e,
        srv n (CmdDeleteMany filter) = Thrown e ->
        is_DataAPIResponseError e = false ->
        Collection_deleteMany fuel srv filter
        = Some (Thrown e, repeat (CmdDeleteMany filter) (S n))).
Proof.
  intros Hkeys Hfuel Hmore.
  set (c := CmdDeleteMany filter).
  assert (Hstart : Collection_deleteMany fuel srv filter
                   = deleteMany_loop fuel srv c 0%Z []).
  { unfold Collection_deleteMany.
    destruct filter; cbn in Hkeys; try discriminate; rewrite ?Hkeys;
      cbn [Object_keys_length];
      match goal with
      | |- context [match ?x with _ => _ end] =>
          destruct x eqn:Hx; [discriminate | try discriminate]
      | _ => idtac
      end; try reflexivity; try congruence. }
  assert (Hpages : Collection_deleteMany fuel srv filter
                   = deleteMany_loop (fuel - n) srv c
                       (sumZ (deleted_of srv c) (seq 0 n))
                       (repeat c n)).
  { rewrite Hstart. replace fuel with (n + (fuel - n)) at 1 by lia.
    rewrite deleteMany_loop_pages.
    - cbn [length app]. rewrite Z.add_0_l. reflexivity.
    - intros k Hk. cbn [length] in Hk. apply Hmore. lia. }
  assert (Hrep : repeat c n ++ [c] = repeat c (S n)).
  { rewrite <- repeat_cons. reflexivity. }
  destruct (fuel - n) as [|f] eqn:Hf; [lia|].
  split; [|split].
  - intros resp Hsrv Hmd. rewrite Hpages.
    cbn [deleteMany_loop executeCommand]. rewrite repeat_length, Hsrv, Hmd.
    rewrite Hrep. reflexivity.
  - intros desc others Hsrv. rewrite Hpages.
    cbn [deleteMany_loop executeCommand]. rewrite repeat_length, Hsrv.
    rewrite Hrep. reflexivity.
  - intros e Hsrv He. rewrite Hpages.
    cbn [deleteMany_loop executeCommand]. rewrite repeat_length, Hsrv.
    rewrite Hrep. destruct e; try reflexivity. discriminate.
Qed.

(** X17.  [deleteMany] never sends the command of [deleteAll].  Whatever it
    has sent when it ends is its one command, repeated, and the filter of
    that command has at least one key, whereas [deleteAll] sends exactly one
    [deleteMany] command with the empty filter, whatever the answer. *)
Theorem deleteMany_never_sends_the_command_of_deleteAll
    fuel srv filter out sent :
  Collection_deleteMany fuel srv filter = Some (out, sent) ->
  (sent = [] \/ exists n, sent = repeat (CmdDeleteMany filter) (S n))
  /\ (forall srv', snd (Collection_deleteAll srv') = [CmdDeleteMany (VObj [])])
  /\ (forall srv' c, In c (snd (Collection_deleteAll srv')) -> ~ In c sent).
Proof.
  intros Hrun.
  assert (Hall : forall srv',
            snd (Collection_deleteAll srv') = [CmdDeleteMany (VObj [])]).
  { intros srv'. unfold Collection_deleteAll, executeCommand. cbn.
    destruct (srv' 0 (CmdDeleteMany (VObj []))); reflexivity. }
  assert (Hsent : sent = []
                  \/ exists n f, sent = repeat (CmdDeleteMany f) (S n)
                                 /\ f = filter /\ f <> VObj []).
  { unfold Collection_deleteMany in Hrun.
    destruct filter as [ | | b | z | s | elems | props | b]; cbn in Hrun;
      try (injection Hrun as <- <-; left; reflexivity);
      match type of Hrun with
      | context [deleteMany_loop _ _ (CmdDeleteMany ?f)] =>
          try (destruct (deleteMany_loop_repeats _ _ _ _ _ _ _ Hrun)
                 as [n Hn];
               right; exists n, f;
               split; [exact Hn | split; [reflexivity | discriminate]])
      | _ => idtac
      end.
    - destruct (String.length s) as [|len];
        [injection Hrun as <- <-; left; reflexivity|].
      destruct (deleteMany_loop_repeats _ _ _ _ _ _ _ Hrun) as [n Hn].
      right. exists n, (VStr s).
      split; [exact Hn | split; [reflexivity | discriminate]].
    - destruct (length elems) as [|len];
        [injection Hrun as <- <-; left; reflexivity|].
      destruct (deleteMany_loop_repeats _ _ _ _ _ _ _ Hrun) as [n Hn].
      right. exists n, (VArr elems).
      split; [exact Hn | split; [reflexivity | discriminate]].
    - destruct props as [|kv rest];
        [injection Hrun as <- <-; left; reflexivity|].
      destruct (deleteMany_loop_repeats _ _ _ _ _ _ _ Hrun) as [n Hn].
      right. exists n, (VObj (kv :: rest)).
      split; [exact Hn | split; [reflexivity | discriminate]]. }
  split; [|split; [exact Hall|]].
  - destruct Hsent as [->|(n & f & Hn & -> & _)];
      [left; reflexivity | right; exists n; exact Hn].
  - intros srv' c Hc. rewrite Hall in Hc. destruct Hc as [<-|[]].
    destruct Hsent as [->|(n & f & -> & _ & Hf)]; [intros []|].
    intros Hin. apply repeat_spec in Hin. congruence.
Qed.

Lemma deleteMany_adds_up_the_pages_witness :
  Collection_deleteMany 3
    (fun k _ =>
       Returned {| status :=
         Some {| insertedIds := None; matchedCount := None;
                 modifiedCount := None; deletedCount := Some 20%Z;
                 upsertedId := None;
                 moreData := if k =? 0 then Some true else None |} |})
    (VObj [("age"%string, VNum 3)])
  = Some (Returned 40%Z,
          repeat (CmdDeleteMany (VObj [("age"%string, VNum 3)])) 2).
Proof.
  apply (proj1 (deleteMany_adds_up_the_pages
    (fun k _ =>
       Returned {| status :=
         Some {| insertedIds := None; matchedCount := None;
                 modifiedCount := None; deletedCount := Some 20%Z;
                 upsertedId := None;
                 moreData := if k =? 0 then Some true else None |} |})
    (VObj [("age"%string, VNum 3)]) 0 1 3 eq_refl ltac:(lia)
    ltac:(intros k Hk; destruct k; [eexists; split; reflexivity | lia]))
    _ eq_refl eq_refl).
Defined.

Lemma deleteMany_never_sends_the_command_of_deleteAll_witness :
  ~ In (CmdDeleteMany (VObj []))
       [CmdDeleteMany (VObj [("age"%string, VNum 3)])].
Proof.
  apply (proj2 (proj2 (deleteMany_never_sends_the_command_of_deleteAll 3
           (fun _ _ => Returned {| status := None |})
           (VObj [("age"%string, VNum 3)]) _ _ eq_refl))
         (fun _ _ => Returned {| status := None |})).
  left. reflexivity.
Defined.

(** X24.  The two modes of a bulk write agree when nothing fails and the
    service gives every operation the same answer in both runs.  In either
    mode the [k]-th request is that of the [k]-th operation; when the
    ordered run against [srv] returns and an unordered run against [srv']
    with at least one worker returns, in whatever order its answers
    arrived, and [srv'] answers each operation as [srv] does, both have
    sent every command and their results have the same five counters and
    the same upserted ids; the raw responses are the same up to their
    order.  Nothing is said of a service whose answers depend on the order
    in which the requests arrive. *)
Theorem bulkWrite_modes_agree_when_both_return
    srv srv' commands parallel schedule ordered unordered sent sent' :
  (forall k, k < length commands ->
             srv' k (operation_at commands k) = srv k (operation_at commands k)) ->
  (0 < parallel)%Z ->
  bulkWriteOrdered srv commands = (Returned ordered, sent) ->
  bulkWriteUnordered srv' commands parallel schedule
  = (Some (Returned unordered), sent') ->
  sent = commands /\ sent' = commands
  /\ insertedCount_ ordered = insertedCount_ unordered
  /\ matchedCount_ ordered = matchedCount_ unordered
  /\ modifiedCount_ ordered = modifiedCount_ unordered
  /\ deletedCount_ ordered = deletedCount_ unordered
  /\ upsertedCount_ ordered = upsertedCount_ unordered
  /\ upsertedIds ordered = upsertedIds unordered
  /\ Permutation (getRawResponse ordered) (getRawResponse unordered).
Proof.
  intros Hsame Hpar Hord Hun.
  destruct (bulkWrite_completed srv commands
              (Some {| bw_ordered := Some true; bw_parallel := None;
                       bw_concurrency := None |}) [] ordered sent)
    as (order & Hperm & _ & Hfull & Hres).
  { cbn. rewrite Hord. reflexivity. }
  destruct (bulkWrite_completed srv' commands
              (Some {| bw_ordered := None; bw_parallel := Some parallel;
                       bw_concurrency := None |}) schedule unordered sent')
    as (order' & Hperm' & _ & Hfull' & Hres').
  { cbn. exact Hun. }
  specialize (Hfull (or_introl eq_refl)).
  specialize (Hfull' (or_intror Hpar)).
  split; [exact Hfull|]. split; [exact Hfull'|].
  rewrite Hfull in Hperm. rewrite Hfull' in Hperm'.
  assert (Hnd : NoDup order) by (rewrite Hperm; apply NoDup_seq).
  assert (Hres'' : unordered
                   = merge_order srv commands order' new_BulkWriteResult).
  { rewrite Hres'. apply merge_order_same_answers. intros k Hk.
    unfold answered_status. rewrite Hsame; [reflexivity|].
    apply list_elem_of_In in Hk. rewrite Hperm' in Hk.
    apply elem_of_seq in Hk. lia. }
  rewrite Hres, Hres''.
  apply merge_order_any_order; [|exact Hnd].
  rewrite Hperm, Hperm'. reflexivity.
Qed.

Lemma bulkWrite_modes_agree_witness :
  snd (bulkWriteOrdered upserting_service
         [CmdInsertOne doc_A; CmdInsertOne doc_B])
  = [CmdInsertOne doc_A; CmdInsertOne doc_B]
  /\ snd (bulkWriteUnordered upserting_service
            [CmdInsertOne doc_A; CmdInsertOne doc_B] 2 [1; 0])
     = [CmdInsertOne doc_A; CmdInsertOne doc_B].
Proof.
  destruct (bulkWrite_modes_agree_when_both_return upserting_service
              upserting_service
              [CmdInsertOne doc_A; CmdInsertOne doc_B] 2 [1; 0] _ _ _ _
              ltac:(intros k Hk; reflexivity)
              ltac:(lia) eq_refl eq_refl) as (H1 & H2 & _).
  split; [exact H1 | exact H2].
Defined.

(* ===================================================================== *)
(** * [countDocuments] and [updateMany] *)
(* ===================================================================== *)

Lemma page_totals_S srv first n resp :
  srv n (page_command srv first n) = Returned resp ->
  add_response_counts (page_totals srv first n) resp
  = page_totals srv first (S n).
Proof.
  intros Hsrv.
  assert (Hsum : forall f, sumZ f (seq 0 (S n)) = (sumZ f (seq 0 n) + f n)%Z).
  { intros f. rewrite seq_S, sumZ_app. cbn. lia. }
  assert (Hmod : page_modified srv first n
                 = default 0%Z (update_status resp ≫= us_modifiedCount))
    by (unfold page_modified; rewrite Hsrv; reflexivity).
  assert (Hmat : page_matched srv first n
                 = default 0%Z (update_status resp ≫= us_matchedCount))
    by (unfold page_matched; rewrite Hsrv; reflexivity).
  unfold add_response_counts, add_counts, page_totals.
  cbn [uc_modifiedCount uc_matchedCount].
  rewrite !Hsum, Hmod, Hmat. reflexivity.
Qed.

Lemma page_command_S srv first n resp :
  srv n (page_command srv first n) = Returned resp ->
  page_command srv first (S n)
  = set_pagingState (status_nextPageState resp) (page_command srv first n).
Proof. intros Hsrv. cbn [page_command]. rewrite Hsrv. reflexivity. Qed.

(** The loop of [updateMany] over answers that carry a page state. *)
Lemma updateMany_loop_pages srv first n :
  forall fuel,
    (forall k, k < n ->
       exists resp, srv k (page_command srv first k) = Returned resp
                    /\ has_nextPageState resp = true) ->
    updateMany_loop (n + fuel) srv first
      {| uc_modifiedCount := 0; uc_matchedCount := 0 |} []
    = updateMany_loop fuel srv (page_command srv first n)
        (page_totals srv first n)
        (map (page_command srv first) (seq 0 n)).
Proof.
  induction n as [|n IH]; intros fuel Hmore.
  - reflexivity.
  - replace (S n + fuel) with (n + S fuel) by lia.
    rewrite IH by (intros k Hk; apply Hmore; lia).
    destruct (Hmore n ltac:(lia)) as (resp & Hsrv & Hnext).
    cbn [updateMany_loop]. rewrite length_map, length_seq, Hsrv, Hnext.
    rewrite (page_totals_S _ _ _ _ Hsrv), <- (page_command_S _ _ _ _ Hsrv).
    rewrite seq_S, map_app. reflexivity.
Qed.

(** A run of the loop that has ended. *)
Lemma updateMany_loop_ended srv first fuel :
  forall n out sent,
    (forall k, k < n ->
       exists resp, srv k (page_command srv first k) = Returned resp
                    /\ has_nextPageState resp = true) ->
    updateMany_loop fuel srv (page_command srv first n)
      (page_totals srv first n) (map (page_command srv first) (seq 0 n))
    = Some (out, sent) ->
    exists m,
      sent = map (page_command srv first) (seq 0 (S m))
      /\ (forall k, k < m ->
            exists resp, srv k (page_command srv first k) = Returned resp
                         /\ has_nextPageState resp = true).
Proof.
  induction fuel as [|fuel IH]; intros n out sent Hmore Hrun; [discriminate|].
  cbn [updateMany_loop] in Hrun. rewrite length_map, length_seq in Hrun.
  assert (Hsent : map (page_command srv first) (seq 0 n)
                  ++ [page_command srv first n]
                  = map (page_command srv first) (seq 0 (S n))).
  { rewrite seq_S, map_app. reflexivity. }
  rewrite Hsent in Hrun.
  destruct (srv n (page_command srv first n)) as [resp|e] eqn:Hsrv.
  - destruct (has_nextPageState resp) eqn:Hnext.
    + rewrite (page_totals_S _ _ _ _ Hsrv), <- (page_command_S _ _ _ _ Hsrv)
        in Hrun.
      apply (IH (S n) out sent); [|exact Hrun].
      intros k Hk. destruct (decide (k = n)) as [->|Hne].
      * exists resp. split; assumption.
      * apply Hmore. lia.
    + injection Hrun as _ <-. exists n. split; [reflexivity | exact Hmore].
  - exists n. destruct e; injection Hrun as _ <-;
      (split; [reflexivity | exact Hmore]).
Qed.

(** X18.  [countDocuments] and its upper bound.  Without an upper bound, or
    with 0, the call throws ['options.limit is required'] and sends nothing.
    A count that it returns is the count of the answer to its one command,
    is not above the upper bound, and the answer had no [moreData].  When it
    throws [TooManyDocsToCountError], either the count of the answer is above
    the upper bound, which the error carries, or the answer had [moreData]
    and the error carries the count of the answer. *)
Theorem countDocuments_respects_the_upper_bound srv filter upperBound :
  ((upperBound = None \/ upperBound = Some 0%Z) ->
   Collection_countDocuments srv filter upperBound
   = (CountFailed (Error msg_limit_required), []))
  /\ (forall n sent,
        Collection_countDocuments srv filter upperBound
        = (CountReturned (Some n), sent) ->
        exists bound resp,
          upperBound = Some bound /\ (n <= bound)%Z
          /\ sent = [CmdCountDocuments filter]
          /\ srv (CmdCountDocuments filter) = Returned resp
          /\ status_count resp = Some n
          /\ default false (count_status resp ≫= count_moreData) = false)
  /\ (forall limit hitServerLimit sent,
        Collection_countDocuments srv filter upperBound
        = (TooManyDocsToCountError limit hitServerLimit, sent) ->
        exists bound resp,
          upperBound = Some bound
          /\ sent = [CmdCountDocuments filter]
          /\ srv (CmdCountDocuments filter) = Returned resp
          /\ if hitServerLimit
             then limit = status_count resp
                  /\ count_exceeds resp bound = false
                  /\ default false (count_status resp ≫= count_moreData) = true
             else limit = Some bound
                  /\ exists n, status_count resp = Some n /\ (bound < n)%Z).
Proof.
  split; [|split].
  - intros [->| ->]; reflexivity.
  - intros n sent H. unfold Collection_countDocuments in H.
    destruct upperBound as [bound|]; [|discriminate].
    assert (Hrun :
      match srv (CmdCountDocuments filter) with
      | Returned resp =>
          if count_exceeds resp bound
          then (TooManyDocsToCountError (Some bound) false,
                [CmdCountDocuments filter])
          else if default false (count_status resp ≫= count_moreData)
               then (TooManyDocsToCountError (status_count resp) true,
                     [CmdCountDocuments filter])
               else (CountReturned (status_count resp),
                     [CmdCountDocuments filter])
      | Thrown e => (CountFailed e, [CmdCountDocuments filter])
      end = (CountReturned (Some n), sent))
      by (destruct bound; [discriminate | exact H | exact H]).
    clear H.
    destruct (srv (CmdCountDocuments filter)) as [resp|e]; [|discriminate].
    destruct (count_exceeds resp bound) eqn:Hex; [discriminate|].
    destruct (default false (count_status resp ≫= count_moreData)) eqn:Hmd;
      [discriminate|].
    injection Hrun as Hn <-.
    exists bound, resp. split; [reflexivity|]. split.
    + unfold count_exceeds in Hex. rewrite Hn in Hex.
      apply Z.ltb_ge in Hex. exact Hex.
    + repeat split; try reflexivity; assumption.
  - intros limit hit sent H. unfold Collection_countDocuments in H.
    destruct upperBound as [bound|]; [|discriminate].
    assert (Hrun :
      match srv (CmdCountDocuments filter) with
      | Returned resp =>
          if count_exceeds resp bound
          then (TooManyDocsToCountError (Some bound) false,
                [CmdCountDocuments filter])
          else if default false (count_status resp ≫= count_moreData)
               then (TooManyDocsToCountError (status_count resp) true,
                     [CmdCountDocuments filter])
               else (CountReturned (status_count resp),
                     [CmdCountDocuments filter])
      | Thrown e => (CountFailed e, [CmdCountDocuments filter])
      end = (TooManyDocsToCountError limit hit, sent))
      by (destruct bound; [discriminate | exact H | exact H]).
    clear H.
    destruct (srv (CmdCountDocuments filter)) as [resp|e]; [|discriminate].
    exists bound, resp.
    destruct (count_exceeds resp bound) eqn:Hex.
    + injection Hrun as <- <- <-.
      split; [reflexivity|]. split; [reflexivity|]. split; [reflexivity|].
      split; [reflexivity|].
      unfold count_exceeds in Hex.
      destruct (status_count resp) as [n|]; [|discriminate].
      exists n. split; [reflexivity|]. apply Z.ltb_lt in Hex. exact Hex.
    + destruct (default false (count_status resp ≫= count_moreData)) eqn:Hmd;
        [|discriminate].
      injection Hrun as <- <- <-.
      split; [reflexivity|]. split; [reflexivity|]. split; [reflexivity|].
      split; [reflexivity|]. split; reflexivity.
Qed.

Lemma countDocuments_respects_the_upper_bound_witness :
  Collection_countDocuments
    (fun _ => Returned {| count_status :=
                 Some {| count := Some 7%Z; count_moreData := None |} |})
    (VObj []) (Some 0%Z)
  = (CountFailed (Error msg_limit_required), []).
Proof.
  apply (proj1 (countDocuments_respects_the_upper_bound
    (fun _ => Returned {| count_status :=
                 Some {| count := Some 7%Z; count_moreData := None |} |})
    (VObj []) (Some 0%Z))).
  right. reflexivity.
Defined.

Section UpdateManyFacts.

Variable setDefaultIdForUpsert : UpdateManyCommand -> UpdateManyCommand.

(** X19.  [updateMany] adds up what the pages report.  When the first [n]
    requests are answered with a page state and the next one without, the
    call returns, having sent [n + 1] commands; its [modifiedCount] and
    [matchedCount] are the sums over all the answers, while the upserted id
    is read from the last answer only. *)
Theorem updateMany_adds_up_the_pages srv filter update upsert n fuel resp :
  let first :=
    setDefaultIdForUpsert
      {| um_filter := filter; um_update := update; um_upsert := upsert;
         um_pagingState := None |} in
  n < fuel ->
  (forall k, k < n ->
     exists resp, srv k (page_command srv first k) = Returned resp
                  /\ has_nextPageState resp = true) ->
  srv n (page_command srv first n) = Returned resp ->
  has_nextPageState resp = false ->
  Collection_updateMany setDefaultIdForUpsert fuel srv filter update upsert
  = Some (UpdateManyReturned
            (updateMany_result (page_totals srv first (S n)) resp),
          map (page_command srv first) (seq 0 (S n))).
Proof.
  intros first Hfuel Hmore Hsrv Hnext. unfold Collection_updateMany.
  fold first. replace fuel with (n + S (fuel - S n)) by lia.
  rewrite updateMany_loop_pages by exact Hmore.
  cbn [updateMany_loop]. rewrite length_map, length_seq, Hsrv, Hnext.
  rewrite (page_totals_S _ _ _ _ Hsrv), seq_S, map_app. reflexivity.
Qed.

(** X20.  How the commands of one [updateMany] follow each other.  In a
    call that has ended, the first command sent is the one built from the
    arguments, and every later one is the command before it with its
    [pagingState] replaced by the page state of the answer to that command,
    an answer that carried one: filter, update and [upsert] never change. *)
Theorem updateMany_threads_the_page_state
    srv filter update upsert fuel out sent :
  Collection_updateMany setDefaultIdForUpsert fuel srv filter update upsert
  = Some (out, sent) ->
  sent !! 0
  = Some (setDefaultIdForUpsert
            {| um_filter := filter; um_update := update; um_upsert := upsert;
               um_pagingState := None |})
  /\ forall k c c',
       sent !! k = Some c -> sent !! S k = Some c' ->
       exists resp,
         srv k c = Returned resp
         /\ has_nextPageState resp = true
         /\ c' = set_pagingState (status_nextPageState resp) c.
Proof.
  intros Hrun. unfold Collection_updateMany in Hrun.
  set (first := setDefaultIdForUpsert
                  {| um_filter := filter; um_update := update;
                     um_upsert := upsert; um_pagingState := None |}) in *.
  destruct (updateMany_loop_ended srv first fuel 0 out sent
              ltac:(intros k Hk; lia) Hrun) as (m & -> & Hmore).
  split; [reflexivity|].
  intros k c c' Hc Hc'.
  rewrite list_lookup_fmap in Hc, Hc'.
  destruct (decide (S k < S m)) as [Hlt|Hge].
  - rewrite lookup_seq_lt in Hc by lia. rewrite lookup_seq_lt in Hc' by lia.
    cbn in Hc, Hc'. injection Hc as <-. injection Hc' as <-.
    destruct (Hmore k ltac:(lia)) as (resp & Hsrv & Hnext).
    exists resp. split; [exact Hsrv|]. split; [exact Hnext|].
    rewrite Hsrv. reflexivity.
  - rewrite lookup_seq_ge in Hc' by lia. discriminate.
Qed.

(** X21.  [updateMany] wraps only operational failures.  When the first [n]
    requests are answered with a page state and the next one fails with a
    [DataAPIResponseError], the call throws an [UpdateManyError] for the
    command as it was sent, carrying the sums of the answers so far plus
    the counts of the failing response; any other error is thrown as it
    is. *)
Theorem updateMany_reports_partial_counts srv filter update upsert n fuel :
  let first :=
    setDefaultIdForUpsert
      {| um_filter := filter; um_update := update; um_upsert := upsert;
         um_pagingState := None |} in
  n < fuel ->
  (forall k, k < n ->
     exists resp, srv k (page_command srv first k) = Returned resp
                  /\ has_nextPageState resp = true) ->
  (forall desc others,
     srv n (page_command srv first n)
     = Thrown (DataAPIResponseError desc others) ->
     Collection_updateMany setDefaultIdForUpsert fuel srv filter update upsert
     = Some (UpdateManyError (page_command srv first n) (rawResponse desc)
               (add_counts (page_totals srv first n)
                  (status (rawResponse desc) ≫= modifiedCount)
                  (status (rawResponse desc) ≫= matchedCount)),
             map (page_command srv first) (seq 0 (S n))))
  /\ (forall e,
        srv n (page_command srv first n) = Thrown e ->
        is_DataAPIResponseError e = false ->
        Collection_updateMany setDefaultIdForUpsert fuel srv filter update
          upsert
        = Some (UpdateManyFailed e,
                map (page_command srv first) (seq 0 (S n)))).
Proof.
  intros first Hfuel Hmore.
  assert (Hpages :
    Collection_updateMany setDefaultIdForUpsert fuel srv filter update upsert
    = updateMany_loop (S (fuel - S n)) srv (page_command srv first n)
        (page_totals srv first n)
        (map (page_command srv first) (seq 0 n))).
  { unfold Collection_updateMany. fold first.
    replace fuel with (n + S (fuel - S n)) at 1 by lia.
    apply updateMany_loop_pages. exact Hmore. }
  split.
  - intros desc others Hsrv. rewrite Hpages.
    cbn [updateMany_loop]. rewrite length_map, length_seq, Hsrv.
    rewrite seq_S, map_app. reflexivity.
  - intros e Hsrv He. rewrite Hpages.
    cbn [updateMany_loop]. rewrite length_map, length_seq, Hsrv.
    rewrite seq_S, map_app. destruct e; try reflexivity. discriminate.
Qed.

End UpdateManyFacts.

Lemma updateMany_adds_up_the_pages_witness :
  Collection_updateMany (fun c => c) 3 two_page_service
    (VObj [("age"%string, VNum 3)])
    (VObj [("$set"%string, VObj [("age"%string, VNum 4)])]) None
  = Some (UpdateManyReturned
            {| umr_counts := {| uc_modifiedCount := 40; uc_matchedCount := 40 |};
               umr_upsertedId := None; umr_upsertedCount := None |},
          [example_update_command None;
           example_update_command (Some "p1"%string)]).
Proof.
  apply (updateMany_adds_up_the_pages (fun c => c) two_page_service
           (VObj [("age"%string, VNum 3)])
           (VObj [("$set"%string, VObj [("age"%string, VNum 4)])]) None
           1 3 (update_page None)).
  - lia.
  - intros k Hk. destruct k; [|lia]. eexists. split; reflexivity.
  - reflexivity.
  - reflexivity.
Defined.

Lemma updateMany_threads_the_page_state_witness :
  [example_update_command None; example_update_command (Some "p1"%string)]
    !! 0
  = Some (example_update_command None).
Proof.
  apply (proj1 (updateMany_threads_the_page_state (fun c => c)
                  two_page_service
                  (VObj [("age"%string, VNum 3)])
                  (VObj [("$set"%string, VObj [("age"%string, VNum 4)])])
                  None 3 _ _ eq_refl)).
Defined.

Lemma updateMany_reports_partial_counts_witness :
  Collection_updateMany (fun c => c) 3 failing_second_page
    (VObj [("age"%string, VNum 3)])
    (VObj [("$set"%string, VObj [("age"%string, VNum 4)])]) None
  = Some (UpdateManyError (example_update_command (Some "p1"%string))
            {| status :=
                 Some {| insertedIds := None; matchedCount := Some 5%Z;
                         modifiedCount := Some 5%Z; deletedCount := None;
                         upsertedId := None; moreData := None |} |}
            {| uc_modifiedCount := 25; uc_matchedCount := 25 |},
          [example_update_command None;
           example_update_command (Some "p1"%string)]).
Proof.
  apply (proj1 (updateMany_reports_partial_counts (fun c => c)
                  failing_second_page
                  (VObj [("age"%string, VNum 3)])
                  (VObj [("$set"%string, VObj [("age"%string, VNum 4)])])
                  None 1 3 ltac:(lia)
                  ltac:(intros k Hk; destruct k;
                        [eexists; split; reflexivity | lia]))
           _ [] eq_refl).
Defined.

(* ===================================================================== *)
(** * The [UUID] class *)
(* ===================================================================== *)

Lemma lower_idempotent c : lower (lower c) = lower c.
Proof. destruct c as [[] [] [] [] [] [] [] []]; reflexivity. Qed.

Lemma is_hex_digit_lower c : is_hex_digit (lower c) = is_hex_digit c.
Proof. destruct c as [[] [] [] [] [] [] [] []]; reflexivity. Qed.

Lemma is_dash_lower c : Ascii.eqb (lower c) "-" = Ascii.eqb c "-".
Proof. destruct c as [[] [] [] [] [] [] [] []]; reflexivity. Qed.

Lemma hex_value_range c :
  is_hex_digit c = true ->
  exists v, hex_value (lower c) = Some v /\ (0 <= v < 16)%Z.
Proof.
  destruct c as [[] [] [] [] [] [] [] []]; intros H;
    try discriminate H; (eexists; split; [vm_compute; reflexivity | lia]).
Qed.

Lemma toLowerCase_idempotent s : toLowerCase (toLowerCase s) = toLowerCase s.
Proof.
  induction s as [|c rest IH]; [reflexivity|].
  cbn. rewrite lower_idempotent, IH. reflexivity.
Qed.

Lemma toLowerCase_length s : String.length (toLowerCase s) = String.length s.
Proof. induction s as [|c rest IH]; [reflexivity|]. cbn. rewrite IH. reflexivity. Qed.

Lemma toLowerCase_get i s :
  String.get i (toLowerCase s) = lower <$> String.get i s.
Proof.
  revert i. induction s as [|c rest IH]; intros i; [reflexivity|].
  destruct i as [|i]; [reflexivity|]. cbn. apply IH.
Qed.

Lemma hex_digits_lower n s :
  hex_digits n (toLowerCase s) = toLowerCase <$> hex_digits n s.
Proof.
  revert s. induction n as [|n IH]; intros s; [reflexivity|].
  destruct s as [|c rest]; [reflexivity|].
  cbn. rewrite is_hex_digit_lower.
  destruct (is_hex_digit c); [apply IH | reflexivity].
Qed.

Lemma dash_lower s : dash (toLowerCase s) = toLowerCase <$> dash s.
Proof.
  destruct s as [|c rest]; [reflexivity|].
  cbn. rewrite is_dash_lower. destruct (Ascii.eqb c "-"); reflexivity.
Qed.

Lemma bind_lower (f : string -> option string) (o : option string) :
  (forall s, f (toLowerCase s) = toLowerCase <$> f s) ->
  (toLowerCase <$> o) ≫= f = toLowerCase <$> (o ≫= f).
Proof. intros Hf. destruct o as [s|]; [apply Hf | reflexivity]. Qed.

Lemma uuidRegex_test_lower s :
  uuidRegex_test (toLowerCase s) = uuidRegex_test s.
Proof.
  unfold uuidRegex_test. rewrite hex_digits_lower.
  rewrite !bind_lower by (apply dash_lower || apply hex_digits_lower).
  destruct (((((((((hex_digits 8 s ≫= dash) ≫= hex_digits 4) ≫= dash)
                ≫= hex_digits 4) ≫= dash) ≫= hex_digits 4) ≫= dash)
            ≫= hex_digits 12)) as [[|c rest]|]; reflexivity.
Qed.

Lemma hex_digits_inv n :
  forall s rest,
    hex_digits n s = Some rest ->
    String.length s = n + String.length rest
    /\ (forall i, i < n ->
          exists c, String.get i s = Some c /\ is_hex_digit c = true)
    /\ (forall i, String.get (n + i) s = String.get i rest).
Proof.
  induction n as [|n IH]; intros s rest H.
  - cbn in H. injection H as <-. split; [reflexivity|].
    split; [intros i Hi; lia | reflexivity].
  - destruct s as [|c s']; [discriminate|]. cbn in H.
    destruct (is_hex_digit c) eqn:Hc; [|discriminate].
    destruct (IH _ _ H) as (Hlen & Hhex & Hget).
    split; [cbn; rewrite Hlen; reflexivity|]. split.
    + intros [|i] Hi; [exists c; split; [reflexivity | exact Hc]|].
      cbn. apply Hhex. lia.
    + intros i. cbn. apply Hget.
Qed.

Lemma dash_inv s rest :
  dash s = Some rest ->
  String.length s = S (String.length rest)
  /\ String.get 0 s = Some "-"%char
  /\ (forall i, String.get (S i) s = String.get i rest).
Proof.
  destruct s as [|c s']; [discriminate|]. cbn.
  destruct (Ascii.eqb c "-") eqn:Hc; [|discriminate].
  intros H. injection H as <-. apply Ascii.eqb_eq in Hc. subst c.
  split; [reflexivity|]. split; [reflexivity | reflexivity].
Qed.

(** A string that matches the pattern has 36 characters, dashes at 8, 13,
    18 and 23, and a hexadecimal digit at 14. *)
Lemma uuidRegex_test_inv s :
  uuidRegex_test s = true ->
  String.length s = 36
  /\ String.get 8 s = Some "-"%char /\ String.get 13 s = Some "-"%char
  /\ String.get 18 s = Some "-"%char /\ String.get 23 s = Some "-"%char
  /\ exists c, String.get 14 s = Some c /\ is_hex_digit c = true.
Proof.
  unfold uuidRegex_test.
  destruct (hex_digits 8 s) as [r1|] eqn:H1; [|discriminate].
  cbn [mbind option_bind].
  destruct (dash r1) as [r2|] eqn:H2; [|discriminate].
  cbn [mbind option_bind].
  destruct (hex_digits 4 r2) as [r3|] eqn:H3; [|discriminate].
  cbn [mbind option_bind].
  destruct (dash r3) as [r4|] eqn:H4; [|discriminate].
  cbn [mbind option_bind].
  destruct (hex_digits 4 r4) as [r5|] eqn:H5; [|discriminate].
  cbn [mbind option_bind].
  destruct (dash r5) as [r6|] eqn:H6; [|discriminate].
  cbn [mbind option_bind].
  destruct (hex_digits 4 r6) as [r7|] eqn:H7; [|discriminate].
  cbn [mbind option_bind].
  destruct (dash r7) as [r8|] eqn:H8; [|discriminate].
  cbn [mbind option_bind].
  destruct (hex_digits 12 r8) as [[|c r9]|] eqn:H9; try discriminate.
  intros _.
  apply hex_digits_inv in H1 as (L1 & _ & G1).
  apply dash_inv in H2 as (L2 & D2 & G2).
  apply hex_digits_inv in H3 as (L3 & _ & G3).
  apply dash_inv in H4 as (L4 & D4 & G4).
  apply hex_digits_inv in H5 as (L5 & X5 & G5).
  apply dash_inv in H6 as (L6 & D6 & G6).
  apply hex_digits_inv in H7 as (L7 & _ & G7).
  apply dash_inv in H8 as (L8 & D8 & G8).
  apply hex_digits_inv in H9 as (L9 & _ & _).
  cbn [String.length] in L9.
  assert (E1 : forall i, String.get (S (S (S (S (S (S (S (S (S i))))))))) s
                         = String.get i r2)
    by (intros i; rewrite <- G2; exact (G1 (S i))).
  assert (E3 : forall i, String.get (S (S (S (S (S i))))) r2 = String.get i r4)
    by (intros i; rewrite <- G4; exact (G3 (S i))).
  assert (E5 : forall i, String.get (S (S (S (S (S i))))) r4 = String.get i r6)
    by (intros i; rewrite <- G6; exact (G5 (S i))).
  split; [lia|].
  split; [exact (eq_trans (G1 0) D2)|].
  split; [rewrite (E1 4); exact (eq_trans (G3 0) D4)|].
  split; [rewrite (E1 9), (E3 4); exact (eq_trans (G5 0) D6)|].
  split; [rewrite (E1 14), (E3 9), (E5 4); exact (eq_trans (G7 0) D8)|].
  destruct (X5 0 ltac:(lia)) as (c & Hc & Hhex).
  exists c. split; [|exact Hhex].
  rewrite (E1 5), (E3 0). exact Hc.
Qed.

(** X22.  What the [UUID] constructor lets through.  With the validation
    on (no second argument, or one that is not [false]), a string is
    accepted exactly when it matches the pattern, which alone fixes the
    length at 36; the instance then holds the string in lower case, still
    matching the pattern, and its version is a number from 0 to 15, the
    value of the hexadecimal digit at position 14. *)
Theorem new_UUID_validates s validate :
  validate <> Some false ->
  (uuidRegex_test s = true <-> exists u, new_UUID (VStr s) validate = Returned u)
  /\ (uuidRegex_test s = false ->
      new_UUID (VStr s) validate = Thrown (Error msg_uuid_not_hex))
  /\ forall u,
       new_UUID (VStr s) validate = Returned u ->
       _uuid u = toLowerCase s
       /\ String.length (_uuid u) = 36
       /\ uuidRegex_test (_uuid u) = true
       /\ toLowerCase (_uuid u) = _uuid u
       /\ exists v, version u = Some v /\ (0 <= v < 16)%Z.
Proof.
  intros Hval.
  assert (Hnew : new_UUID (VStr s) validate
                 = if negb (String.length s =? 36) || negb (uuidRegex_test s)
                   then Thrown (Error msg_uuid_not_hex)
                   else Returned {| _uuid := toLowerCase s;
                                    version := version_of (toLowerCase s) |}).
  { destruct validate as [[|]|]; [reflexivity | congruence | reflexivity]. }
  assert (Hok : uuidRegex_test s = true ->
                new_UUID (VStr s) validate
                = Returned {| _uuid := toLowerCase s;
                              version := version_of (toLowerCase s) |}).
  { intros Ht. rewrite Hnew, Ht.
    destruct (uuidRegex_test_inv s Ht) as (Hlen & _). rewrite Hlen.
    reflexivity. }
  assert (Hbad : uuidRegex_test s = false ->
                 new_UUID (VStr s) validate = Thrown (Error msg_uuid_not_hex)).
  { intros Ht. rewrite Hnew, Ht, orb_true_r. reflexivity. }
  split; [|split; [exact Hbad|]].
  - split.
    + intros Ht. eexists. apply Hok. exact Ht.
    + intros [u Hu]. destruct (uuidRegex_test s) eqn:Ht; [reflexivity|].
      rewrite (Hbad eq_refl) in Hu. discriminate.
  - intros u Hu.
    destruct (uuidRegex_test s) eqn:Ht;
      [|rewrite (Hbad eq_refl) in Hu; discriminate].
    rewrite (Hok eq_refl) in Hu. injection Hu as <-.
    cbn [_uuid version].
    destruct (uuidRegex_test_inv s Ht) as (Hlen & _ & _ & _ & _ & c & Hc & Hhex).
    split; [reflexivity|].
    split; [rewrite toLowerCase_length; exact Hlen|].
    split; [rewrite uuidRegex_test_lower; exact Ht|].
    split; [apply toLowerCase_idempotent|].
    unfold version_of. rewrite toLowerCase_get, Hc. cbn.
    apply hex_value_range. exact Hhex.
Qed.

Lemma new_UUID_validates_witness :
  exists u,
    new_UUID (VStr "018E75FF-3B11-7C7A-8F2A-0123456789AB") None = Returned u.
Proof.
  apply (proj1 (proj1 (new_UUID_validates
                         "018E75FF-3B11-7C7A-8F2A-0123456789AB" None
                         ltac:(discriminate)))).
  reflexivity.
Defined.

(** X23.  Equality of [UUID]s.  [toString] and the constructor are inverse
    to each other on instances: building a [UUID] from the string of one
    gives the same instance.  Two instances are equal exactly when their
    source strings agree up to the case of the letters, whereas an instance
    equals a string only if the string is the lower-case form: a [UUID]
    built from a string with a capital letter does not equal that
    string. *)
Theorem UUID_equals_compares_the_lower_case_form s t validate validate' u u' :
  new_UUID (VStr s) validate = Returned u ->
  new_UUID (VStr t) validate' = Returned u' ->
  new_UUID (VStr (UUID_toString u)) validate = Returned u
  /\ (UUID_equals u (OtherUUID u') = true <-> toLowerCase s = toLowerCase t)
  /\ (UUID_equals u (OtherValue (VStr t)) = true <-> toLowerCase s = t)
  /\ (UUID_equals u (OtherValue (VStr s)) = true <-> toLowerCase s = s).
Proof.
  intros Hu Hu'.
  assert (Hmake : forall x v w,
            new_UUID (VStr x) v = Returned w ->
            w = {| _uuid := toLowerCase x;
                   version := version_of (toLowerCase x) |}
            /\ (v <> Some false -> uuidRegex_test x = true)).
  { intros x v w H. unfold new_UUID in H.
    destruct v as [[|]|].
    - destruct (negb (String.length x =? 36) || negb (uuidRegex_test x))
        eqn:Hc; [discriminate|].
      injection H as <-. split; [reflexivity|]. intros _.
      apply orb_false_iff in Hc as [_ Hc]. apply negb_false_iff in Hc.
      exact Hc.
    - injection H as <-. split; [reflexivity | congruence].
    - destruct (negb (String.length x =? 36) || negb (uuidRegex_test x))
        eqn:Hc; [discriminate|].
      injection H as <-. split; [reflexivity|]. intros _.
      apply orb_false_iff in Hc as [_ Hc]. apply negb_false_iff in Hc.
      exact Hc. }
  destruct (Hmake _ _ _ Hu) as [-> Hs].
  destruct (Hmake _ _ _ Hu') as [-> _].
  unfold UUID_toString, UUID_equals. cbn [_uuid].
  split; [|split; [apply String.eqb_eq | split; apply String.eqb_eq]].
  destruct (decide (validate = Some false)) as [->|Hval].
  - unfold new_UUID. rewrite toLowerCase_idempotent. reflexivity.
  - specialize (Hs Hval).
    assert (Hnew : forall x,
              new_UUID (VStr x) validate
              = if negb (String.length x =? 36) || negb (uuidRegex_test x)
                then Thrown (Error msg_uuid_not_hex)
                else Returned {| _uuid := toLowerCase x;
                                 version := version_of (toLowerCase x) |}).
    { intros x. destruct validate as [[|]|];
        [reflexivity | congruence | reflexivity]. }
    rewrite Hnew, uuidRegex_test_lower, Hs, toLowerCase_length.
    destruct (uuidRegex_test_inv s Hs) as (Hlen & _). rewrite Hlen.
    cbn [Nat.eqb negb orb]. rewrite toLowerCase_idempotent. reflexivity.
Qed.

Lemma UUID_equals_witness :
  UUID_equals
    {| _uuid := "018e75ff-3b11-7c7a-8f2a-0123456789ab"; version := Some 7%Z |}
    (OtherValue (VStr "018E75FF-3B11-7C7A-8F2A-0123456789AB")) = true
  <-> toLowerCase "018E75FF-3B11-7C7A-8F2A-0123456789AB"
      = "018E75FF-3B11-7C7A-8F2A-0123456789AB"%string.
Proof.
  apply (proj2 (proj2 (proj2
    (UUID_equals_compares_the_lower_case_form
       "018E75FF-3B11-7C7A-8F2A-0123456789AB"
       "018E75FF-3B11-7C7A-8F2A-0123456789AB" None None _ _
       eq_refl eq_refl)))).
Defined.
